(** * DICOM viewer core: volume assembly, reslicing, window/level, overlay

    A shallow embedding of [app.py]: the functions [load_dicom_series],
    [window_level_image], [clamp], [compute_default_window],
    [extract_plane], [plane_limit] and [update_overlay_coords], together
    with the pieces of NumPy and of Python's numeric tower that they call.

    Conventions.
    - A NumPy array is a record of its [shape] and its cells as nested
      lists (row-major, as NumPy stores a C-contiguous array).  The shape
      is carried explicitly because an array may have an empty axis.
    - Python exceptions are the constructors of [pyexn]; a function that
      may raise returns a [result].
    - Python [int] is [Z].  Python [float] is IEEE-754 binary64 and
      [np.float32] is binary32, both as [spec_float] with the operations
      of the standard library's [SpecFloat] (round to nearest, ties to
      even). *)

From Stdlib Require Import String Ascii.
From Stdlib Require Import Reals Lra.
From Stdlib Require Import ZArith List Bool Lia.
From Stdlib Require Import Permutation Sorted.
From Stdlib Require Import QArith.
From Stdlib Require Import Floats.SpecFloat.
Import ListNotations.

Local Open Scope Z_scope.

(** ** Python results and exceptions *)

Inductive pyexn : Type :=
| IndexError
| ValueError
| FileNotFoundError
| RuntimeError
| ZeroDivisionError
| OverflowError.

Inductive result (A : Type) : Type :=
| Ok (a : A)
| Raise (e : pyexn).

Arguments Ok {A} a.
Arguments Raise {A} e.

Definition bind {A B : Type} (r : result A) (k : A -> result B) : result B :=
  match r with
  | Ok a => k a
  | Raise e => Raise e
  end.

Notation "x <- r ;; k" := (bind r (fun x => k))
  (at level 61, r at next level, right associativity).

(** ** NumPy arrays of rank 2 and 3 *)

Section Arrays.
Context {A : Type}.
(** The value that [nth] falls back on; never read inside the bounds. *)
Variable d : A.

Record ndarray2 : Type := mk2 { shape2 : nat * nat; rows2 : list (list A) }.
Record ndarray3 : Type :=
  mk3 { shape3 : nat * nat * nat; planes3 : list (list (list A)) }.

Definition wf_rows (r c : nat) (m : list (list A)) : Prop :=
  length m = r /\ Forall (fun row => length row = c) m.

Definition wf2 (a : ndarray2) : Prop :=
  wf_rows (fst (shape2 a)) (snd (shape2 a)) (rows2 a).

Definition wf3 (v : ndarray3) : Prop :=
  let '(z, y, x) := shape3 v in
  length (planes3 v) = z /\ Forall (wf_rows y x) (planes3 v).

Definition get2 (a : ndarray2) (i j : nat) : A :=
  nth j (nth i (rows2 a) []) d.

Definition get3 (v : ndarray3) (z y x : nat) : A :=
  nth x (nth y (nth z (planes3 v) []) []) d.

(** An integer index on an axis of length [n]: Python counts a negative
    index from the end and raises [IndexError] outside [-n, n). *)
Definition norm_index (n : nat) (i : Z) : result nat :=
  if (0 <=? i) && (i <? Z.of_nat n) then Ok (Z.to_nat i)
  else if (- Z.of_nat n <=? i) && (i <? 0) then Ok (Z.to_nat (i + Z.of_nat n))
  else Raise IndexError.

(** [volume[index]] *)
Definition index_axis0 (v : ndarray3) (index : Z) : result ndarray2 :=
  let '(z, y, x) := shape3 v in
  k <- norm_index z index ;;
  Ok (mk2 (y, x) (nth k (planes3 v) [])).

(** [volume[:, index, :]] *)
Definition index_axis1 (v : ndarray3) (index : Z) : result ndarray2 :=
  let '(z, y, x) := shape3 v in
  k <- norm_index y index ;;
  Ok (mk2 (z, x) (map (fun plane => nth k plane []) (planes3 v))).

(** [volume[:, :, index]] *)
Definition index_axis2 (v : ndarray3) (index : Z) : result ndarray2 :=
  let '(z, y, x) := shape3 v in
  k <- norm_index x index ;;
  Ok (mk2 (z, y) (map (map (fun row => nth k row d)) (planes3 v))).

(** [np.flip(m, axis=1)]: every row reversed. *)
Definition flip_axis1 (a : ndarray2) : ndarray2 :=
  mk2 (shape2 a) (map (@rev A) (rows2 a)).

Fixpoint zip_cons (col : list A) (m : list (list A)) : list (list A) :=
  match col, m with
  | c :: col', r :: m' => (c :: r) :: zip_cons col' m'
  | _, _ => []
  end.

(** The rows of the transpose of a matrix with [ncols] columns. *)
Fixpoint transpose_rows (ncols : nat) (m : list (list A)) : list (list A) :=
  match m with
  | [] => repeat [] ncols
  | r :: m' => zip_cons r (transpose_rows ncols m')
  end.

(** [np.transpose(m)] on a rank-2 array: the axes swapped. *)
Definition transpose (a : ndarray2) : ndarray2 :=
  let '(r, c) := shape2 a in mk2 (c, r) (transpose_rows c (rows2 a)).

(** [np.rot90(m, k=1)]; NumPy returns [transpose(flip(m, axis=1))]. *)
Definition rot90 (a : ndarray2) : ndarray2 := transpose (flip_axis1 a).

(** [np.flipud(m)], that is [m[::-1, ...]]. *)
Definition flipud (a : ndarray2) : ndarray2 :=
  mk2 (shape2 a) (rev (rows2 a)).

(** *** The orientation rules in the words of the specification *)

Definition tabulate2 (r c : nat) (f : nat -> nat -> A) : ndarray2 :=
  mk2 (r, c) (map (fun i => map (f i) (seq 0 c)) (seq 0 r)).

(** Rotation by 90 degrees counter-clockwise: the column axis becomes
    the row axis, the last column becoming the first row. *)
Definition rotate_ccw (a : ndarray2) : ndarray2 :=
  let '(r, c) := shape2 a in
  tabulate2 c r (fun i j => get2 a j (c - 1 - i)%nat).

(** Vertical flip: the order of the rows reversed. *)
Definition flip_vertical (a : ndarray2) : ndarray2 :=
  let '(r, c) := shape2 a in
  tabulate2 r c (fun i j => get2 a (r - 1 - i)%nat j).

(** The [Z x Y] slice at column [x]: entry [z][y] is [volume[z][y][x]]. *)
Definition zy_slice (v : ndarray3) (x : nat) : ndarray2 :=
  let '(zd, yd, _) := shape3 v in
  tabulate2 zd yd (fun z y => get3 v z y x).

(** The [Z x X] slice at row [y]: entry [z][x] is [volume[z][y][x]]. *)
Definition zx_slice (v : ndarray3) (y : nat) : ndarray2 :=
  let '(zd, _, xd) := shape3 v in
  tabulate2 zd xd (fun z x => get3 v z y x).

(** ** [clamp], [extract_plane], [plane_limit] *)

Definition clamp (value minimum maximum : Z) : Z :=
  Z.max (Z.min value maximum) minimum.

Definition extract_plane (volume : ndarray3) (plane : string) (index : Z)
  : result ndarray2 :=
  let '(z_dim, y_dim, x_dim) := shape3 volume in
  if (plane =? "Axial")%string then
    let index := clamp index 0 (Z.of_nat z_dim - 1) in
    index_axis0 volume index
  else if (plane =? "Sagittal")%string then
    let index := clamp index 0 (Z.of_nat x_dim - 1) in
    plane_img <- index_axis2 volume index ;;
    let plane_img := rot90 plane_img in
    Ok (flipud plane_img)
  else if (plane =? "Coronal")%string then
    let index := clamp index 0 (Z.of_nat y_dim - 1) in
    plane_img <- index_axis1 volume index ;;
    let plane_img := rot90 plane_img in
    Ok (flipud plane_img)
  else Raise ValueError.

Definition plane_limit (volume : ndarray3) (plane : string) : Z :=
  let '(_, y_dim, x_dim) := shape3 volume in
  if (plane =? "Sagittal")%string then Z.of_nat x_dim - 1
  else Z.of_nat y_dim - 1.

(** The index range of each plane: [Z-1], [X-1], [Y-1]. *)
Definition index_limit (volume : ndarray3) (plane : string) : Z :=
  let '(z_dim, _, _) := shape3 volume in
  if (plane =? "Axial")%string then Z.of_nat z_dim - 1
  else plane_limit volume plane.

End Arrays.

Arguments ndarray2 A : clear implicits.
Arguments ndarray3 A : clear implicits.

Local Open Scope Z_scope.

(** ** Floating point

    A Python [float] is a binary64 number and the cells of the volume are
    [np.float32], binary32.  Both are [spec_float]s; the operations are
    those of [SpecFloat] at the precision and exponent range of the
    format. *)

Definition prec32 : Z := 24.
Definition emax32 : Z := 128.
Definition prec64 : Z := 53.
Definition emax64 : Z := 1024.

Definition is_nan (x : spec_float) : bool :=
  match x with S754_nan => true | _ => false end.

Definition is_finite (x : spec_float) : bool :=
  match x with S754_zero _ | S754_finite _ _ _ => true | _ => false end.

(** [np.float32(x)] for a Python float [x], and the conversion NumPy
    applies to a Python float that meets a [float32] array: rounding to
    binary32. *)
Definition f32_of_f64 (x : spec_float) : spec_float :=
  match x with
  | S754_finite s m e => binary_round prec32 emax32 s m e
  | _ => x
  end.

(** [float(x)] for an [np.float32] [x]: the same number in binary64. *)
Definition f64_of_f32 (x : spec_float) : spec_float :=
  match x with
  | S754_finite s m e => binary_round prec64 emax64 s m e
  | _ => x
  end.

(** [a.astype(np.float32)] on an integer cell. *)
Definition f32_of_int (z : Z) : spec_float :=
  binary_normalize prec32 emax32 z 0 false.

(** [float(n)] for a Python [int]; Python raises [OverflowError] when
    [n] is beyond the binary64 range. *)
Definition float_of_int (z : Z) : result spec_float :=
  match binary_normalize prec64 emax64 z 0 false with
  | S754_infinity _ => Raise OverflowError
  | x => Ok x
  end.

(** Binary64 literals. *)
Definition f64_lit (z : Z) : spec_float := binary_normalize prec64 emax64 z 0 false.
Definition f32_lit (z : Z) : spec_float := binary_normalize prec32 emax32 z 0 false.

(** [a / b] on two Python [int]s: the quotient correctly rounded to
    binary64, [ZeroDivisionError] for [b = 0] and [OverflowError] when
    the quotient is beyond the binary64 range. *)
Definition int_exact (z : Z) : spec_float :=
  match z with
  | Z0 => S754_zero false
  | Zpos p => S754_finite false p 0
  | Zneg p => S754_finite true p 0
  end.

Definition int_truediv (a b : Z) : result spec_float :=
  if b =? 0 then Raise ZeroDivisionError
  else match SFdiv prec64 emax64 (int_exact a) (int_exact b) with
       | S754_infinity _ => Raise OverflowError
       | x => Ok x
       end.

(** Rounding of the dyadic number [m * 2^e] to the nearest integer, ties
    to the even one. *)
Definition round_half_even (m : positive) (e : Z) : Z :=
  match e with
  | Zneg k =>
      let q := Z.shiftr (Zpos m) (Zpos k) in
      let r := Zpos m - Z.shiftl q (Zpos k) in
      let half := Z.shiftl 1 (Zpos k - 1) in
      match r ?= half with
      | Lt => q
      | Gt => q + 1
      | Eq => if Z.even q then q else q + 1
      end
  | _ => Z.shiftl (Zpos m) e
  end.

(** [round(x)] for a Python float: an [int]. *)
Definition py_round (x : spec_float) : result Z :=
  match x with
  | S754_zero _ => Ok 0
  | S754_finite s m e => Ok (cond_Zopp s (round_half_even m e))
  | S754_infinity _ => Raise OverflowError
  | S754_nan => Raise ValueError
  end.

(** [max(a, b)] on Python floats: [b] when [b > a], else [a]. *)
Definition py_max (a b : spec_float) : spec_float :=
  if SFltb a b then b else a.

(** One cell of [np.clip(a, lo, hi)] with scalar bounds. *)
Definition np_clip (x lo hi : spec_float) : spec_float :=
  if is_nan lo then lo
  else if is_nan hi then hi
  else
    let x := if SFltb x lo then lo else x in
    if SFltb hi x then hi else x.

(** One cell of [a.astype(np.uint8)] for a [float32] array: the C
    conversion, which truncates toward zero.  C defines it for values in
    the open interval from -1 to 256; outside it, and for NaN and the
    infinities, the result depends on the platform, and is taken here as
    the low byte of the truncated value, 0 for NaN and the infinities. *)
Definition trunc_float (x : spec_float) : Z :=
  match x with
  | S754_finite s m e =>
      cond_Zopp s (match e with
                   | Zneg k => Z.shiftr (Zpos m) (Zpos k)
                   | _ => Z.shiftl (Zpos m) e
                   end)
  | _ => 0
  end.

Definition astype_uint8 (x : spec_float) : Z := trunc_float x mod 256.

Definition map2d {A B : Type} (f : A -> B) (a : ndarray2 A) : ndarray2 B :=
  mk2 (shape2 a) (map (map f) (rows2 a)).

(** ** [window_level_image] *)

Definition window_level_pixel (low high : spec_float) (v : spec_float) : Z :=
  let clipped := np_clip v (f32_of_f64 low) (f32_of_f64 high) in
  astype_uint8
    (SFmul prec32 emax32
       (SFdiv prec32 emax32
          (SFsub prec32 emax32 clipped (f32_of_f64 low))
          (f32_of_f64 (SFsub prec64 emax64 high low)))
       (f32_lit 255)).

Definition window_level_image (img : ndarray2 spec_float) (ww wl : spec_float)
  : ndarray2 Z :=
  let ww := py_max ww (f64_lit 1) in
  let low := SFsub prec64 emax64 wl (SFdiv prec64 emax64 ww (f64_lit 2)) in
  let high := SFadd prec64 emax64 wl (SFdiv prec64 emax64 ww (f64_lit 2)) in
  if SFeqb high low then map2d (fun _ => 0) img
  else map2d (window_level_pixel low high) img.

(** The two bounds that [window_level_image] computes. *)
Definition window_low (ww wl : spec_float) : spec_float :=
  SFsub prec64 emax64 wl (SFdiv prec64 emax64 (py_max ww (f64_lit 1)) (f64_lit 2)).

Definition window_high (ww wl : spec_float) : spec_float :=
  SFadd prec64 emax64 wl (SFdiv prec64 emax64 (py_max ww (f64_lit 1)) (f64_lit 2)).

(** ** [compute_default_window]

    [np.percentile(a, q)] with the default method ("linear"), modelled
    from NumPy's documentation: the data flattened and sorted, the
    virtual index [(n - 1) * q / 100] split into its integer part [j] and
    its fraction [g], and the result interpolated between the samples of
    rank [j] and [j + 1] by NumPy's [_lerp].  The precision in which
    NumPy keeps the fraction differs between its versions (it is binary32
    here) and NumPy rejects an empty array, where this definition gives
    NaN: only what does not depend on either, the window of a uniform
    volume that is not empty, is proved from this definition. *)

(** The order of [np.sort] on floats: NaN last. *)
Definition np_lt (a b : spec_float) : bool :=
  SFltb a b || (is_nan b && negb (is_nan a)).

Fixpoint np_insert (x : spec_float) (l : list spec_float) : list spec_float :=
  match l with
  | [] => [x]
  | y :: l' => if np_lt y x then y :: np_insert x l' else x :: l
  end.

Definition np_sort (l : list spec_float) : list spec_float :=
  fold_right np_insert [] l.

Definition flatten3 {A : Type} (v : ndarray3 A) : list A :=
  concat (concat (planes3 v)).

Definition lerp (a b t : spec_float) : spec_float :=
  let diff_b_a := SFsub prec32 emax32 b a in
  if SFleb (SFdiv prec32 emax32 (f32_lit 1) (f32_lit 2)) t
  then SFsub prec32 emax32 b
         (SFmul prec32 emax32 diff_b_a (SFsub prec32 emax32 (f32_lit 1) t))
  else SFadd prec32 emax32 a (SFmul prec32 emax32 diff_b_a t).

Definition percentile (a : list spec_float) (q : Z) : spec_float :=
  let arr := np_sort a in
  let n := Z.of_nat (length arr) in
  if n =? 0 then S754_nan
  else
    let j := ((n - 1) * q) / 100 in
    let g := SFdiv prec32 emax32 (f32_lit (((n - 1) * q) mod 100)) (f32_lit 100) in
    let previous := nth (Z.to_nat j) arr S754_nan in
    let next := nth (Z.to_nat (Z.min (j + 1) (n - 1))) arr S754_nan in
    lerp previous next g.

Definition compute_default_window (volume : ndarray3 spec_float)
  : spec_float * spec_float :=
  let low := f64_of_f32 (percentile (flatten3 volume) 5) in
  let high := f64_of_f32 (percentile (flatten3 volume) 95) in
  let ww := py_max (SFsub prec64 emax64 high low) (f64_lit 1) in
  let wl := SFdiv prec64 emax64 (SFadd prec64 emax64 high low) (f64_lit 2) in
  (ww, wl).

(** ** [update_overlay_coords] *)

Definition update_overlay_coords
  (plane : string) (reform_idx reform_limit : Z) (shape : Z * Z)
  : result (Z * Z * Z * Z * Z) :=
  let '(height, width) := shape in
  if reform_limit <=? 0 then
    if (plane =? "Sagittal")%string then
      let x := width / 2 in
      Ok (x, 0, x, height - 1, 255)
    else
      let y := height / 2 in
      Ok (0, y, width - 1, y, 255)
  else
    ratio <- (if reform_limit =? 0 then Ok (S754_zero false)
              else int_truediv reform_idx reform_limit) ;;
    if (plane =? "Sagittal")%string then
      w1 <- float_of_int (width - 1) ;;
      x <- py_round (SFmul prec64 emax64 ratio w1) ;;
      Ok (x, 0, x, height - 1, 255)
    else
      h1 <- float_of_int (height - 1) ;;
      y <- py_round (SFmul prec64 emax64 ratio h1) ;;
      Ok (0, y, width - 1, y, 255).

Local Open Scope Z_scope.

(** ** [load_dicom_series]

    A [Dataset] is what [pydicom.dcmread] returns, reduced to the
    elements that [load_dicom_series] reads.  An element that may be
    absent is an [option].  [InstanceNumber] is an integer string and the
    coordinates of [ImagePositionPatient] are decimal strings; a finite
    decimal read by [float] and an [int] are both taken as the rational
    number they denote, which is how Python compares an [int] with a
    [float].  [pixel_array] is the decoded frame, of shape
    [(Rows, Columns)], with the stored integer samples. *)

Record Dataset : Type := mkDataset {
  InstanceNumber : option Z;
  ImagePositionPatient : option (Q * Q * Q);
  Rows : nat;
  Columns : nat;
  RescaleSlope : option spec_float;
  RescaleIntercept : option spec_float;
  pixel_array : ndarray2 Z
}.

Definition wf_dataset (ds : Dataset) : Prop :=
  shape2 (pixel_array ds) = (Rows ds, Columns ds) /\ wf2 (pixel_array ds).

Definition sort_key (ds : Dataset) : Q :=
  match InstanceNumber ds with
  | Some n => inject_Z n
  | None =>
      match ImagePositionPatient ds with
      | Some (_, _, z) => z
      | None => 0%Q
      end
  end.

(** [list.sort(key=...)] is stable and compares keys with [<] only.  Any
    stable sort returns the same list; it is written here as an insertion
    that puts an element before the first one that is not smaller. *)
Definition Qlt_bool (a b : Q) : bool :=
  match (a ?= b)%Q with Lt => true | _ => false end.

Section StableSort.
Context {T : Type}.
Variable key : T -> Q.

Fixpoint insert_by_key (x : T) (l : list T) : list T :=
  match l with
  | [] => [x]
  | y :: l' => if Qlt_bool (key y) (key x) then y :: insert_by_key x l'
               else x :: l
  end.

Definition sort_by_key (l : list T) : list T :=
  fold_right insert_by_key [] l.

End StableSort.

(** The datasets that [dcmread] could read, in the order of the files: a
    file that raises is skipped. *)
Fixpoint readable (files : list (option Dataset)) : list Dataset :=
  match files with
  | [] => []
  | Some ds :: rest => ds :: readable rest
  | None :: rest => readable rest
  end.

(** [np.zeros((z, y, x), dtype=np.float32)] *)
Definition np_zeros (z y x : nat) : ndarray3 spec_float :=
  mk3 (z, y, x) (repeat (repeat (repeat (S754_zero false) x) y) z).

(** The rescaled frame of a dataset: [pixel_array.astype(np.float32)],
    times the slope plus the intercept when both elements are present.
    The Python floats meet a [float32] array, so NumPy converts them to
    [float32] and computes in [float32]. *)
Definition rescale (slope intercept : spec_float) (v : spec_float) : spec_float :=
  SFadd prec32 emax32 (SFmul prec32 emax32 v (f32_of_f64 slope))
    (f32_of_f64 intercept).

Definition rescaled_pixels (ds : Dataset) : ndarray2 spec_float :=
  let pixel_array := map2d f32_of_int (pixel_array ds) in
  match RescaleIntercept ds, RescaleSlope ds with
  | Some intercept, Some slope => map2d (rescale slope intercept) pixel_array
  | _, _ => pixel_array
  end.

(** Broadcasting of a rank-2 value to the shape of the target of an
    assignment: an axis fits when it has the target's length or length 1,
    and an axis of length 1 is repeated. *)
Definition broadcastable (src dst : nat * nat) : bool :=
  ((fst src =? fst dst)%nat || (fst src =? 1)%nat)
  && ((snd src =? snd dst)%nat || (snd src =? 1)%nat).

Definition broadcast_rows (dst : nat * nat) (a : ndarray2 spec_float)
  : list (list spec_float) :=
  rows2 (tabulate2 (fst dst) (snd dst)
           (fun i j => get2 (S754_zero false) a
                         (if (fst (shape2 a) =? 1)%nat then 0%nat else i)
                         (if (snd (shape2 a) =? 1)%nat then 0%nat else j))).

Fixpoint list_set {A : Type} (l : list A) (k : nat) (x : A) : list A :=
  match l, k with
  | [], _ => []
  | _ :: l', O => x :: l'
  | y :: l', S k' => y :: list_set l' k' x
  end.

(** [volume[idx] = value]: [ValueError] when [value] cannot be broadcast
    to a plane of the volume. *)
Definition setitem_axis0 (volume : ndarray3 spec_float) (idx : nat)
  (value : ndarray2 spec_float) : result (ndarray3 spec_float) :=
  let '(z, y, x) := shape3 volume in
  if (idx <? z)%nat then
    if broadcastable (shape2 value) (y, x)
    then Ok (mk3 (z, y, x)
               (list_set (planes3 volume) idx (broadcast_rows (y, x) value)))
    else Raise ValueError
  else Raise IndexError.

(** The loop [for idx, ds in enumerate(datasets)]. *)
Fixpoint fill_volume (idx : nat) (datasets : list Dataset)
  (volume : ndarray3 spec_float) : result (ndarray3 spec_float) :=
  match datasets with
  | [] => Ok volume
  | ds :: rest =>
      volume' <- setitem_axis0 volume idx (rescaled_pixels ds) ;;
      fill_volume (S idx) rest volume'
  end.

Definition load_dicom_series (files : list (option Dataset))
  : result (ndarray3 spec_float * list Dataset) :=
  match files with
  | [] => Raise FileNotFoundError
  | _ =>
      match sort_by_key sort_key (readable files) with
      | [] => Raise RuntimeError
      | (first :: _) as datasets =>
          let rows := Rows first in
          let cols := Columns first in
          let volume := np_zeros (length datasets) rows cols in
          volume <- fill_volume 0 datasets volume ;;
          Ok (volume, datasets)
      end
  end.

(** ** Sample data *)

(** A volume of shape [(1, 2, 3)] holding [z*100 + y*10 + x]. *)
Definition gradient_1x2x3 : ndarray3 Z :=
  mk3 (1, 2, 3)%nat [[[0; 1; 2]; [10; 11; 12]]].

Definition frame_2x2 : ndarray2 Z := mk2 (2, 2)%nat [[1; 2]; [3; 4]].
Definition frame_1x2 : ndarray2 Z := mk2 (1, 2)%nat [[7; 8]].
Definition frame_3x2 : ndarray2 Z := mk2 (3, 2)%nat [[1; 2]; [3; 4]; [5; 6]].

Definition ds_2x2 (n : Z) : Dataset :=
  mkDataset (Some n) None 2 2 (Some (f64_lit 2)) (Some (f64_lit (-1000))) frame_2x2.
Definition ds_1x2 (n : Z) : Dataset :=
  mkDataset (Some n) None 1 2 None None frame_1x2.
Definition ds_3x2 (n : Z) : Dataset :=
  mkDataset (Some n) None 3 2 None None frame_3x2.

(** The cell stored for a raw sample [v] of the dataset [ds]: the sample
    times the slope plus the intercept when the dataset has both, the
    sample itself otherwise. *)
Definition stored_value (ds : Dataset) (v : Z) : spec_float :=
  match RescaleSlope ds, RescaleIntercept ds with
  | Some slope, Some intercept => rescale slope intercept (f32_of_int v)
  | _, _ => f32_of_int v
  end.

(** Structural equality of floats, and a check of a predicate on the
    integers below a bound. *)
Definition sf_same (x y : spec_float) : bool :=
  match x, y with
  | S754_zero a, S754_zero b => Bool.eqb a b
  | S754_infinity a, S754_infinity b => Bool.eqb a b
  | S754_nan, S754_nan => true
  | S754_finite a m e, S754_finite b n f =>
      Bool.eqb a b && Pos.eqb m n && Z.eqb e f
  | _, _ => false
  end.

Fixpoint check_below (P : Z -> bool) (n : nat) : bool :=
  match n with
  | O => true
  | S k => P (Z.of_nat k) && check_below P k
  end.

Definition image_1x2 : ndarray2 spec_float :=
  mk2 (1, 2)%nat [[f32_lit (2 ^ 24); f32_lit (2 ^ 24 + 2)]].

Local Open Scope Z_scope.

(** ** The real value of a float and the rounding relation

    The statements about the floating-point results are made on the real
    numbers that the floats denote.  [rep x m e l] says that the
    non-negative real [x] lies at the place that the mantissa [m], the
    exponent [e] and the location [l] describe: [x / 2^e] is [m] plus a
    fraction that is zero, below a half, a half or above a half.
    [rounds x f] says that [f] is what the rounding function of
    [SpecFloat], [binary_round_aux], returns for the real [x]. *)

Definition bpow (e : Z) : R := powerRZ 2 e.

Definition SF2R (x : spec_float) : R :=
  match x with
  | S754_finite s m e => (IZR (cond_Zopp s (Zpos m)) * bpow e)%R
  | _ => 0%R
  end.

Definition loc_frac (f : R) (l : location) : Prop :=
  match l with
  | loc_Exact => f = 0%R
  | loc_Inexact Lt => (0 < f < / 2)%R
  | loc_Inexact Eq => f = (/ 2)%R
  | loc_Inexact Gt => (/ 2 < f < 1)%R
  end.

Definition rep (x : R) (m e : Z) (l : location) : Prop :=
  loc_frac (x * bpow (- e) - IZR m)%R l.

(** What the right shifts of [SpecFloat] keep: the mantissa is not
    negative and the record still places the same real. *)
Definition shr_inv (x : R) (e : Z) (r : shr_record) : Prop :=
  0 <= shr_m r /\ rep x (shr_m r) e (loc_of_shr_record r).

Definition is_zero (x : spec_float) : bool :=
  match x with S754_zero _ => true | _ => false end.

Definition finite_or_zero (x : spec_float) : bool :=
  match x with S754_zero _ | S754_finite _ _ _ => true | _ => false end.

Section FloatSemantics.
Variables prec emax : Z.

(** The input of [binary_round_aux] has enough digits to be rounded at
    the exponent of the format. *)
Definition enough (m e : Z) : Prop :=
  e <= fexp prec emax (Zdigits2 m + e).

Definition rounds (x : R) (f : spec_float) : Prop :=
  (x = 0%R /\ is_zero f = true)
  \/ ((0 < x)%R /\ exists m e l,
        0 <= m /\ rep x m e l /\ enough m e
        /\ f = binary_round_aux prec emax false m e l)
  \/ ((x < 0)%R /\ exists m e l,
        0 <= m /\ rep (- x) m e l /\ enough m e
        /\ f = binary_round_aux prec emax true m e l).

(** The second half of [binary_round_aux]: the rounded mantissa [m2] at
    the exponent [E] made canonical again and checked for overflow. *)
Definition pack (s : bool) (m2 E : Z) : spec_float :=
  let '(mrs, e) := shr_fexp prec emax m2 E loc_Exact in
  match shr_m mrs with
  | Z0 => S754_zero s
  | Zpos p => if e <=? emax - prec then S754_finite s p e else S754_infinity s
  | Zneg _ => S754_nan
  end.

(** The rounded mantissas that [pack] receives: at most [2^prec], and at
    least [2^(prec-1)] above the smallest exponent. *)
Definition good (m2 E : Z) : Prop :=
  emin prec emax <= E /\ 0 <= m2 <= 2 ^ prec
  /\ (E = emin prec emax \/ 2 ^ (prec - 1) <= m2).

(** The positive real [x] is placed on the grid of the exponent [E] at
    which the format rounds it. *)
Definition rounded_at (x : R) (m1 : Z) (l1 : location) (E : Z) : Prop :=
  0 <= m1 /\ rep x m1 E l1 /\ emin prec emax <= E
  /\ (x < bpow (E + prec))%R
  /\ (E = emin prec emax \/ (bpow (E + prec - 1) <= x)%R).

(** A float of the format: not NaN, and canonical when finite. *)
Definition in_format (f : spec_float) : Prop :=
  is_nan f = false /\ valid_binary prec emax f = true.

End FloatSemantics.

Local Open Scope Z_scope.

(** ** The numbers of [main]

    The values that the window hands to the handlers are numbers: a
    slider gives a Python [float], and the handlers store [int]s back.
    [round(v)] with one argument returns an [int]; on a [float] it raises
    [ValueError] for NaN and [OverflowError] for an infinity. *)

Inductive pynum : Type :=
| PyInt (n : Z)
| PyFloat (x : spec_float).

Definition round_num (v : pynum) : result Z :=
  match v with
  | PyInt n => Ok n
  | PyFloat x => py_round x
  end.

(** [int(x)] for a float: truncation toward zero. *)
Definition int_of_float (x : spec_float) : result Z :=
  match x with
  | S754_nan => Raise ValueError
  | S754_infinity _ => Raise OverflowError
  | _ => Ok (trunc_float x)
  end.

(** The largest integer not above a finite float. *)
Definition floor_float (x : spec_float) : Z :=
  match x with
  | S754_finite s m e =>
      match e with
      | Zneg k => cond_Zopp s (Zpos m) / 2 ^ Zpos k
      | _ => cond_Zopp s (Zpos m) * 2 ^ e
      end
  | _ => 0
  end.

Definition ceil_float (x : spec_float) : Z := - floor_float (SFopp x).

(** [np.floor] and [np.ceil] on an [np.float32]: a float with a
    non-negative exponent is an integer already; a result of zero keeps
    the sign of the argument. *)
Definition np_floor (x : spec_float) : spec_float :=
  match x with
  | S754_finite s m (Zneg k) =>
      let q := floor_float x in
      if q =? 0 then S754_zero s else f32_of_int q
  | _ => x
  end.

Definition np_ceil (x : spec_float) : spec_float :=
  match x with
  | S754_finite s m (Zneg k) =>
      let q := ceil_float x in
      if q =? 0 then S754_zero s else f32_of_int q
  | _ => x
  end.

(** [ww_slider_max = max(int(default_ww * 5), 2000)] *)
Definition main_ww_slider_max (default_ww : spec_float) : result Z :=
  n <- int_of_float (SFmul prec64 emax64 default_ww (f64_lit 5)) ;;
  Ok (Z.max n 2000).

(** [wl_min = int(min(np.floor(np.min(volume)), -1200))], as a function
    of [np.min(volume)].  Python's [min(a, b)] is [b] when [b < a] and [a]
    otherwise; the [int] meets an [np.float32] and is compared as one. *)
Definition main_wl_min (volume_min : spec_float) : result Z :=
  let a := np_floor volume_min in
  if SFltb (f32_lit (-1200)) a then Ok (-1200) else int_of_float a.

(** [wl_max = int(max(np.ceil(np.max(volume)), 1600))], as a function of
    [np.max(volume)]. *)
Definition main_wl_max (volume_max : spec_float) : result Z :=
  let a := np_ceil volume_max in
  if SFltb a (f32_lit 1600) then Ok 1600 else int_of_float a.

(** The literals [0.45] and [0.6]: the binary64 numbers nearest to 45/100
    and to 6/10. *)
Definition lit_0_45 : spec_float :=
  SFdiv prec64 emax64 (int_exact 45) (int_exact 100).
Definition lit_0_6 : spec_float :=
  SFdiv prec64 emax64 (int_exact 6) (int_exact 10).

(** [max(default_ww * 0.45, 250)]: the [int] 250 when it is greater than
    the product, the product otherwise. *)
Definition bone_width (default_ww : spec_float) : pynum :=
  let a := SFmul prec64 emax64 default_ww lit_0_45 in
  if SFltb a (f64_lit 250) then PyInt 250 else PyFloat a.

(** [preset_map]: key, label, width, level. *)
Definition main_preset_map (default_ww default_wl : spec_float)
  : result (list (string * (string * Z * Z))) :=
  soft_ww <- py_round default_ww ;;
  soft_wl <- py_round default_wl ;;
  bone_ww <- round_num (bone_width default_ww) ;;
  bone_wl <- py_round (SFadd prec64 emax64 default_wl
                         (SFmul prec64 emax64 default_ww lit_0_6)) ;;
  Ok [("-PRESET_SOFT-", ("Soft Tissue", soft_ww, soft_wl));
      ("-PRESET_BONE-", ("Bone", bone_ww, bone_wl));
      ("-PRESET_LUNG-", ("Lung", 1500, -600));
      ("-PRESET_HEAD-", ("Head", 120, 40))]%string.

(** [key in preset_map] and [preset_map[key]] *)
Fixpoint preset_lookup (preset_map : list (string * (string * Z * Z)))
  (key : string) : option (string * Z * Z) :=
  match preset_map with
  | [] => None
  | (k, entry) :: rest =>
      if (k =? key)%string then Some entry else preset_lookup rest key
  end.

Definition default_plane : string := "Sagittal".

(** [reformat_default = plane_limit(volume, default_plane) // 2] *)
Definition main_reformat_default {A : Type} (volume : ndarray3 A) : Z :=
  plane_limit volume default_plane / 2.

(** ** The handlers of [main]

    [val_dict] is the dictionary of the window's values, read with the
    keys ['-PLANE-'], ['-AXIAL_SLICE-'], ['-REFORM_SLICE-'], ['-WW-'] and
    ['-WL-']; a field is [None] when the key is absent.  [Window] holds
    what the handlers set on the elements of the window that carry a
    choice or a number; the text elements, which are only written, are
    left out. *)

Record Values : Type := mkValues {
  v_PLANE : option string;
  v_AXIAL_SLICE : option pynum;
  v_REFORM_SLICE : option pynum;
  v_WW : option pynum;
  v_WL : option pynum
}.

Record Window : Type := mkWindow {
  w_PLANE : string;
  w_REFORM_SLICE_range : Z * Z;
  w_REFORM_SLICE : Z;
  w_WW : Z;
  w_WL : Z
}.

(** [d.get(key, default)] *)
Definition dict_get {T : Type} (field : option T) (default : T) : T :=
  match field with
  | Some v => v
  | None => default
  end.

(** What [refresh_images] hands to [to_pil]: the axial image with its
    overlay line and the reformatted image. *)
Record Display : Type := mkDisplay {
  axial_img : ndarray2 Z;
  overlay : Z * Z * Z * Z * Z;
  reform_img : ndarray2 Z
}.

Section Handlers.
(** The variables of [main] that the nested functions close over. *)
Variable volume : ndarray3 spec_float.
Variables default_ww default_wl : spec_float.
Variables ww_slider_max wl_min wl_max : Z.

Definition z_dim : Z := Z.of_nat (fst (fst (shape3 volume))).
Definition reformat_default : Z := main_reformat_default volume.

Definition parse_values (val_dict : Values)
  : result (string * Z * Z * Z * Z * Z) :=
  let plane := dict_get (v_PLANE val_dict) default_plane in
  axial <- round_num (dict_get (v_AXIAL_SLICE val_dict) (PyInt 0)) ;;
  let axial_idx := clamp axial 0 (z_dim - 1) in
  let reform_limit := plane_limit volume plane in
  reform <- round_num (dict_get (v_REFORM_SLICE val_dict)
                         (PyInt reformat_default)) ;;
  let reform_idx := clamp reform 0 reform_limit in
  ww <- round_num (dict_get (v_WW val_dict) (PyFloat default_ww)) ;;
  let ww := clamp ww 1 ww_slider_max in
  wl <- round_num (dict_get (v_WL val_dict) (PyFloat default_wl)) ;;
  let wl := clamp wl wl_min wl_max in
  Ok (plane, axial_idx, reform_idx, ww, wl, reform_limit).

Definition update_reformat_slider (plane : string) (current_idx : Z)
  (window : Window) : Z * Window :=
  let limit := plane_limit volume plane in
  let adjusted_idx := clamp current_idx 0 limit in
  (adjusted_idx,
   mkWindow (w_PLANE window) (0, limit) adjusted_idx
     (w_WW window) (w_WL window)).

Definition refresh_images (val_dict : Values) (window : Window)
  : result (Values * Window * Display) :=
  parsed <- parse_values val_dict ;;
  let '(plane, axial_idx, reform_idx, ww, wl, reform_limit) := parsed in
  let '(reform_idx, window) := update_reformat_slider plane reform_idx window in
  let val_dict :=
    mkValues (v_PLANE val_dict) (v_AXIAL_SLICE val_dict)
      (Some (PyInt reform_idx)) (v_WW val_dict) (v_WL val_dict) in
  axial_slice <- extract_plane (S754_zero false) volume "Axial" axial_idx ;;
  reform_slice <- extract_plane (S754_zero false) volume plane reform_idx ;;
  ww_f <- float_of_int ww ;;
  wl_f <- float_of_int wl ;;
  let axial_img := window_level_image axial_slice ww_f wl_f in
  let reform_img := window_level_image reform_slice ww_f wl_f in
  overlay <- update_overlay_coords plane reform_idx reform_limit
               (Z.of_nat (fst (shape2 axial_img)),
                Z.of_nat (snd (shape2 axial_img))) ;;
  Ok (val_dict, window, mkDisplay axial_img overlay reform_img).

(** [apply_preset] after its first line, the lookup [preset_map[key]],
    which the event loop guards with [event in preset_map]. *)
Definition apply_preset (entry : string * Z * Z) (val_dict : Values)
  (window : Window) : Values * string * Window :=
  let '(label, ww_val, wl_val) := entry in
  let ww_val := clamp ww_val 1 ww_slider_max in
  let wl_val := clamp wl_val wl_min wl_max in
  (mkValues (v_PLANE val_dict) (v_AXIAL_SLICE val_dict)
     (v_REFORM_SLICE val_dict) (Some (PyInt ww_val)) (Some (PyInt wl_val)),
   label,
   mkWindow (w_PLANE window) (w_REFORM_SLICE_range window)
     (w_REFORM_SLICE window) ww_val wl_val).

Definition reset_plane_state (val_dict : Values) (window : Window)
  : Values * Window :=
  (mkValues (Some default_plane) (v_AXIAL_SLICE val_dict)
     (Some (PyInt reformat_default)) (v_WW val_dict) (v_WL val_dict),
   mkWindow default_plane (0, plane_limit volume default_plane)
     reformat_default (w_WW window) (w_WL window)).

End Handlers.

(** The real value of a cell clipped to the window from [lo] to [hi]: the
    nearer bound outside the window, the cell itself inside. *)
Definition clipR (lo hi : R) (v : spec_float) : R :=
  match v with
  | S754_infinity true => lo
  | S754_infinity false => hi
  | _ => Rmax lo (Rmin (SF2R v) hi)
  end.

(** ** The overlay position in the words of the specification

    [round((reform_idx / reform_limit) * (extent - 1))] read with the
    meaning of the three operations: the quotient of the two integers
    rounded to binary64, its product with [extent - 1] rounded to
    binary64, and the integer nearest to that product, the even one of
    two that are equally near. *)
Definition nearest_even (x : R) (n : Z) : Prop :=
  (Rabs (IZR n - x) <= / 2)%R
  /\ (Rabs (IZR n - x) = (/ 2)%R -> Z.even n = true).

Definition overlay_position_spec (reform_idx reform_limit extent n : Z) : Prop :=
  exists ratio product : spec_float,
    rounds prec64 emax64 (IZR reform_idx / IZR reform_limit) ratio
    /\ rounds prec64 emax64 (SF2R ratio * IZR (extent - 1)) product
    /\ nearest_even (SF2R product) n.

(** ** Sample data *)

(** A volume with no plane. *)
Definition empty_volume : ndarray3 Z := mk3 (0, 2, 3)%nat [].

(** A number that [round] accepts: an [int], or a [float] that is neither
    NaN nor an infinity. *)
Definition finite_num (v : pynum) : bool :=
  match v with
  | PyInt _ => true
  | PyFloat x => is_finite x
  end.

(** A [float32] volume of shape [(1, 2, 3)], the values of a window and
    the state of its elements. *)
Definition volume_1x2x3 : ndarray3 spec_float :=
  mk3 (1, 2, 3)%nat (map (map (map f32_of_int)) (planes3 gradient_1x2x3)).

Definition sample_values : Values :=
  mkValues (Some "Coronal"%string) (Some (PyFloat (f64_lit 0)))
    (Some (PyFloat (f64_lit 7))) (Some (PyInt 400)) None.

Definition sample_window : Window := mkWindow "Sagittal" (0, 2) 1 400 40.

Local Open Scope Z_scope.

(** * Reslicing: orientation, shape and clamping *)

Lemma map_seq_shift {B : Type} (f : nat -> B) (s n : nat) :
  map f (seq (S s) n) = map (fun i => f (S i)) (seq s n).
Proof. now rewrite <- seq_shift, map_map. Qed.

Lemma list_tabulate {B : Type} (b : B) (l : list B) :
  l = map (fun i => nth i l b) (seq 0 (length l)).
Proof.
  induction l as [|x l IH]; [reflexivity|].
  cbn [length seq map nth]. f_equal.
  rewrite map_seq_shift. exact IH.
Qed.

Lemma map_seq_ext {B : Type} (f g : nat -> B) (s n : nat) :
  (forall i, (s <= i < s + n)%nat -> f i = g i) ->
  map f (seq s n) = map g (seq s n).
Proof.
  intros H. apply map_ext_in. intros i Hi. apply in_seq in Hi. now apply H.
Qed.

Lemma rev_map_seq {B : Type} (g : nat -> B) (n : nat) :
  rev (map g (seq 0 n)) = map (fun j => g (n - 1 - j)%nat) (seq 0 n).
Proof.
  induction n as [|n IH]; [reflexivity|].
  transitivity (g n :: rev (map g (seq 0 n))).
  { now rewrite seq_S, map_app, rev_app_distr. }
  rewrite IH. cbn [seq map]. f_equal.
  - f_equal. lia.
  - rewrite map_seq_shift. apply map_seq_ext. intros i Hi. f_equal. lia.
Qed.

Lemma nth_map_seq {B : Type} (f : nat -> B) (b : B) (s n i : nat) :
  (i < n)%nat -> nth i (map f (seq s n)) b = f (s + i)%nat.
Proof.
  intros H.
  rewrite (nth_indep _ b (f 0%nat)) by (now rewrite length_map, length_seq).
  rewrite (map_nth f). now rewrite seq_nth.
Qed.

Section ArrayFacts.
Context {A : Type}.
Variable d : A.

Lemma tabulate2_ext (r c : nat) (f g : nat -> nat -> A) :
  (forall i j, (i < r)%nat -> (j < c)%nat -> f i j = g i j) ->
  tabulate2 r c f = tabulate2 r c g.
Proof.
  intros H. unfold tabulate2. f_equal.
  apply map_seq_ext. intros i Hi. apply map_seq_ext. intros j Hj.
  apply H; lia.
Qed.

Lemma get2_tabulate2 (r c : nat) (f : nat -> nat -> A) (i j : nat) :
  (i < r)%nat -> (j < c)%nat -> get2 d (tabulate2 r c f) i j = f i j.
Proof.
  intros Hi Hj. unfold get2, tabulate2. cbn [rows2].
  rewrite (nth_map_seq (fun i => map (f i) (seq 0 c))) by exact Hi.
  now rewrite nth_map_seq by exact Hj.
Qed.

Lemma rows_tabulate (r c : nat) (m : list (list A)) :
  wf_rows r c m ->
  m = rows2 (tabulate2 r c (fun i j => nth j (nth i m []) d)).
Proof.
  intros [Hlen Hrows]. cbn [tabulate2 rows2]. subst r.
  rewrite (list_tabulate [] m) at 1.
  apply map_seq_ext. intros i Hi.
  assert (Hc : length (nth i m []) = c).
  { rewrite Forall_forall in Hrows. apply Hrows, nth_In. lia. }
  rewrite (list_tabulate d (nth i m [])) at 1. now rewrite Hc.
Qed.

Lemma wf_rows_tabulate (r c : nat) (f : nat -> nat -> A) :
  wf_rows r c (rows2 (tabulate2 r c f)).
Proof.
  split; cbn [tabulate2 rows2].
  - now rewrite length_map, length_seq.
  - apply Forall_forall. intros row Hrow. apply in_map_iff in Hrow.
    destruct Hrow as [i [<- _]]. now rewrite length_map, length_seq.
Qed.

Lemma flip_axis1_tabulate (r c : nat) (f : nat -> nat -> A) :
  flip_axis1 (tabulate2 r c f) = tabulate2 r c (fun i j => f i (c - 1 - j)%nat).
Proof.
  unfold flip_axis1, tabulate2. cbn [shape2 rows2]. f_equal.
  rewrite map_map. apply map_ext. intros i. apply rev_map_seq.
Qed.

Lemma flipud_tabulate (r c : nat) (f : nat -> nat -> A) :
  flipud (tabulate2 r c f) = tabulate2 r c (fun i j => f (r - 1 - i)%nat j).
Proof.
  unfold flipud, tabulate2. cbn [shape2 rows2]. f_equal.
  apply (rev_map_seq (fun i => map (f i) (seq 0 c))).
Qed.

Lemma zip_cons_map {I : Type} (g : I -> A) (h : I -> list A) (l : list I) :
  zip_cons (map g l) (map h l) = map (fun j => g j :: h j) l.
Proof. induction l as [|x l IH]; cbn; [reflexivity | now rewrite IH]. Qed.

Lemma repeat_nil_seq (c s : nat) :
  repeat (@nil A) c = map (fun _ => []) (seq s c).
Proof. revert s. induction c as [|c IH]; intros s; cbn; [reflexivity | now rewrite <- IH]. Qed.

Lemma transpose_rows_tabulate (c : nat) (f : nat -> nat -> A) (r s : nat) :
  transpose_rows c (map (fun i => map (f i) (seq 0 c)) (seq s r))
  = map (fun j => map (fun i => f i j) (seq s r)) (seq 0 c).
Proof.
  revert s. induction r as [|r IH]; intros s; cbn [seq map transpose_rows].
  - apply repeat_nil_seq.
  - rewrite IH. apply zip_cons_map.
Qed.

Lemma transpose_tabulate (r c : nat) (f : nat -> nat -> A) :
  transpose (tabulate2 r c f) = tabulate2 c r (fun i j => f j i).
Proof.
  unfold transpose, tabulate2. cbn [shape2 rows2]. f_equal.
  apply transpose_rows_tabulate.
Qed.

Lemma rot90_tabulate (r c : nat) (f : nat -> nat -> A) :
  rot90 (tabulate2 r c f) = tabulate2 c r (fun i j => f j (c - 1 - i)%nat).
Proof. unfold rot90. now rewrite flip_axis1_tabulate, transpose_tabulate. Qed.

Lemma rotate_ccw_tabulate (r c : nat) (f : nat -> nat -> A) :
  rotate_ccw d (tabulate2 r c f) = tabulate2 c r (fun i j => f j (c - 1 - i)%nat).
Proof.
  unfold rotate_ccw. cbn [tabulate2 shape2]. apply tabulate2_ext.
  intros i j Hi Hj. apply get2_tabulate2; lia.
Qed.

Lemma flip_vertical_tabulate (r c : nat) (f : nat -> nat -> A) :
  flip_vertical d (tabulate2 r c f) = tabulate2 r c (fun i j => f (r - 1 - i)%nat j).
Proof.
  unfold flip_vertical. cbn [tabulate2 shape2]. apply tabulate2_ext.
  intros i j Hi Hj. apply get2_tabulate2; lia.
Qed.

(** The code's rotate-then-flip agrees with the specification's on every
    array, whatever its shape. *)
Lemma flipud_rot90_spec (r c : nat) (f : nat -> nat -> A) :
  flipud (rot90 (tabulate2 r c f))
  = flip_vertical d (rotate_ccw d (tabulate2 r c f)).
Proof.
  now rewrite rot90_tabulate, flipud_tabulate, rotate_ccw_tabulate,
    flip_vertical_tabulate.
Qed.

Lemma norm_index_in_range (n : nat) (k : nat) :
  (k < n)%nat -> norm_index n (Z.of_nat k) = Ok k.
Proof.
  intros Hk. unfold norm_index.
  replace ((0 <=? Z.of_nat k) && (Z.of_nat k <? Z.of_nat n)) with true.
  - now rewrite Nat2Z.id.
  - symmetry. apply andb_true_intro. split; [apply Z.leb_le | apply Z.ltb_lt]; lia.
Qed.

Lemma index_axis2_slice (v : ndarray3 A) (x : nat) :
  wf3 v -> (x < snd (shape3 v))%nat ->
  index_axis2 d v (Z.of_nat x) = Ok (zy_slice d v x).
Proof.
  unfold wf3, index_axis2, zy_slice. destruct (shape3 v) as [[zd yd] xd] eqn:Hs.
  cbn [snd]. intros [Hlen Hpl] Hx.
  rewrite norm_index_in_range by exact Hx. cbn [bind]. unfold tabulate2. do 2 f_equal.
  subst zd. rewrite (list_tabulate [] (planes3 v)) at 1. rewrite map_map.
  apply map_seq_ext. intros z Hz. unfold get3.
  assert (Hw : wf_rows yd xd (nth z (planes3 v) [])).
  { rewrite Forall_forall in Hpl. apply Hpl, nth_In. lia. }
  destruct Hw as [Hy _]. rewrite (list_tabulate [] (nth z (planes3 v) [])) at 1.
  rewrite map_map, Hy. reflexivity.
Qed.

Lemma index_axis1_slice (v : ndarray3 A) (y : nat) :
  wf3 v -> (y < snd (fst (shape3 v)))%nat ->
  index_axis1 v (Z.of_nat y) = Ok (zx_slice d v y).
Proof.
  unfold wf3, index_axis1, zx_slice. destruct (shape3 v) as [[zd yd] xd] eqn:Hs.
  cbn [fst snd]. intros [Hlen Hpl] Hy.
  rewrite norm_index_in_range by exact Hy. cbn [bind]. unfold tabulate2. do 2 f_equal.
  subst zd. rewrite (list_tabulate [] (planes3 v)) at 1. rewrite map_map.
  apply map_seq_ext. intros z Hz. unfold get3.
  assert (Hw : wf_rows yd xd (nth z (planes3 v) [])).
  { rewrite Forall_forall in Hpl. apply Hpl, nth_In. lia. }
  destruct Hw as [Hyl Hrows].
  assert (Hx : length (nth y (nth z (planes3 v) []) []) = xd).
  { rewrite Forall_forall in Hrows. apply Hrows, nth_In. lia. }
  rewrite (list_tabulate d (nth y (nth z (planes3 v) []) [])) at 1.
  now rewrite Hx.
Qed.

End ArrayFacts.

Section Reslicing.
Context {A : Type}.
Variable d : A.

Lemma clamp_in_range (i lim : Z) : 0 <= lim -> 0 <= clamp i 0 lim <= lim.
Proof. unfold clamp. lia. Qed.

Lemma clamp_idem (i lim : Z) : clamp (clamp i 0 lim) 0 lim = clamp i 0 lim.
Proof. unfold clamp. lia. Qed.

Lemma clamp_id (i lim : Z) : 0 <= i <= lim -> clamp i 0 lim = i.
Proof. unfold clamp. lia. Qed.

Lemma norm_index_clamp (n : nat) (i : Z) :
  (0 < n)%nat ->
  norm_index n (clamp i 0 (Z.of_nat n - 1))
  = Ok (Z.to_nat (clamp i 0 (Z.of_nat n - 1))).
Proof.
  intros Hn. pose proof (clamp_in_range i (Z.of_nat n - 1)) as H.
  unfold norm_index.
  replace ((0 <=? clamp i 0 (Z.of_nat n - 1))
           && (clamp i 0 (Z.of_nat n - 1) <? Z.of_nat n)) with true.
  - reflexivity.
  - symmetry. apply andb_true_intro. split; [apply Z.leb_le | apply Z.ltb_lt]; lia.
Qed.

(** The two reslicing branches at an index in range: the slice of the
    volume, rotated and flipped. *)
Lemma extract_plane_slices (v : ndarray3 A) :
  wf3 v ->
  (forall x, (x < snd (shape3 v))%nat ->
     extract_plane d v "Sagittal" (Z.of_nat x)
     = Ok (flip_vertical d (rotate_ccw d (zy_slice d v x))))
  /\
  (forall y, (y < snd (fst (shape3 v)))%nat ->
     extract_plane d v "Coronal" (Z.of_nat y)
     = Ok (flip_vertical d (rotate_ccw d (zx_slice d v y)))).
Proof.
  intros Hwf. split.
  - intros x Hx. unfold extract_plane.
    pose proof (index_axis2_slice d v x Hwf Hx) as Hs.
    destruct (shape3 v) as [[zd yd] xd] eqn:Hshape. cbn [snd] in Hx.
    cbn [String.eqb Ascii.eqb Bool.eqb andb].
    rewrite clamp_id by lia. rewrite Hs. cbn [bind]. f_equal.
    unfold zy_slice. rewrite Hshape. apply flipud_rot90_spec.
  - intros y Hy. unfold extract_plane.
    pose proof (index_axis1_slice d v y Hwf Hy) as Hs.
    destruct (shape3 v) as [[zd yd] xd] eqn:Hshape. cbn [fst snd] in Hy.
    cbn [String.eqb Ascii.eqb Bool.eqb andb].
    rewrite clamp_id by lia. rewrite Hs. cbn [bind]. f_equal.
    unfold zx_slice. rewrite Hshape. apply flipud_rot90_spec.
Qed.

(** C1. For a volume of shape [(Z, Y, X)] and an index [x] in range,
    [extract_plane volume "Sagittal" x] is the [Z x Y] slice at column [x]
    (entry [z][y] is [volume[z][y][x]]) rotated by 90 degrees
    counter-clockwise and then flipped vertically; for [y] in range,
    [extract_plane volume "Coronal" y] is the [Z x X] slice at row [y]
    with the same rotation and flip. *)
Theorem extract_plane_orientation (v : ndarray3 A) :
  wf3 v ->
  (forall x, (x < snd (shape3 v))%nat ->
     extract_plane d v "Sagittal" (Z.of_nat x)
     = Ok (flip_vertical d (rotate_ccw d (zy_slice d v x))))
  /\
  (forall y, (y < snd (fst (shape3 v)))%nat ->
     extract_plane d v "Coronal" (Z.of_nat y)
     = Ok (flip_vertical d (rotate_ccw d (zx_slice d v y)))).
Proof. exact (extract_plane_slices v). Qed.

(** C3, as the code has it.  For a volume of shape [(Z, Y, X)] and
    indices in range, the array returned for the sagittal plane has shape
    [(Y, Z)] and the one returned for the coronal plane has shape
    [(X, Z)]: the rotation swaps the two axes of the slice and the flip
    keeps them.  The rows of the result have exactly that shape. *)
Theorem extract_plane_shape (v : ndarray3 A) (zd yd xd : nat) :
  wf3 v -> shape3 v = (zd, yd, xd) ->
  (forall x, (x < xd)%nat ->
     exists img, extract_plane d v "Sagittal" (Z.of_nat x) = Ok img
                 /\ shape2 img = (yd, zd) /\ wf2 img)
  /\
  (forall y, (y < yd)%nat ->
     exists img, extract_plane d v "Coronal" (Z.of_nat y) = Ok img
                 /\ shape2 img = (xd, zd) /\ wf2 img).
Proof.
  intros Hwf Hshape.
  destruct (extract_plane_slices v Hwf) as [Hsag Hcor].
  rewrite Hshape in Hsag, Hcor. cbn [fst snd] in Hsag, Hcor. split.
  - intros x Hx. eexists. split; [apply Hsag, Hx|].
    unfold zy_slice. rewrite Hshape.
    rewrite rotate_ccw_tabulate, flip_vertical_tabulate.
    split; [reflexivity | apply wf_rows_tabulate].
  - intros y Hy. eexists. split; [apply Hcor, Hy|].
    unfold zx_slice. rewrite Hshape.
    rewrite rotate_ccw_tabulate, flip_vertical_tabulate.
    split; [reflexivity | apply wf_rows_tabulate].
Qed.

(** The sagittal and the coronal image at an index in range, entry by
    entry. *)
Lemma extract_plane_sagittal_tabulate (v : ndarray3 A) (zd yd xd x : nat) :
  wf3 v -> shape3 v = (zd, yd, xd) -> (x < xd)%nat ->
  extract_plane d v "Sagittal" (Z.of_nat x)
  = Ok (tabulate2 yd zd
          (fun i j => get3 d v j (yd - 1 - (yd - 1 - i))%nat x)).
Proof.
  intros Hwf Hs Hx. unfold extract_plane.
  pose proof (index_axis2_slice d v x Hwf) as Hi. rewrite Hs in Hi |- *.
  cbn [String.eqb Ascii.eqb Bool.eqb andb].
  rewrite clamp_id by lia. rewrite Hi by (cbn; lia). cbn [bind]. f_equal.
  unfold zy_slice. rewrite Hs. now rewrite rot90_tabulate, flipud_tabulate.
Qed.

Lemma extract_plane_coronal_tabulate (v : ndarray3 A) (zd yd xd y : nat) :
  wf3 v -> shape3 v = (zd, yd, xd) -> (y < yd)%nat ->
  extract_plane d v "Coronal" (Z.of_nat y)
  = Ok (tabulate2 xd zd
          (fun i j => get3 d v j y (xd - 1 - (xd - 1 - i))%nat)).
Proof.
  intros Hwf Hs Hy. unfold extract_plane.
  pose proof (index_axis1_slice d v y Hwf) as Hi. rewrite Hs in Hi |- *.
  cbn [String.eqb Ascii.eqb Bool.eqb andb].
  rewrite clamp_id by lia. rewrite Hi by (cbn; lia). cbn [bind]. f_equal.
  unfold zx_slice. rewrite Hs. now rewrite rot90_tabulate, flipud_tabulate.
Qed.

(** The code's [clamp] between 0 and a limit that is not negative is the
    nearest index of [[0, limit]]. *)
Lemma clamp_nearest (i lim : Z) :
  0 <= lim -> clamp i 0 lim = Z.max 0 (Z.min i lim).
Proof. unfold clamp. lia. Qed.

(** C7, as the code has it.  For every volume of shape [(Z, Y, X)], every
    plane among Axial, Sagittal and Coronal and every integer index, with
    the limit [Z-1], [X-1], [Y-1] of the plane and [k] the index brought
    into [[0, limit]] (0 for a negative index, the limit for an index
    above it):
    - on an empty axis (limit [-1]) [extract_plane] raises [IndexError],
      whatever the index;
    - otherwise it raises nothing and returns the image of the volume at
      [k]: entry [y][x] is [volume[k][y][x]] for the axial plane, entry
      [y][z] is [volume[z][y][k]] for the sagittal plane and entry [x][z]
      is [volume[z][k][x]] for the coronal plane; this is what it returns
      at the clamped index, so a negative index gives the result at 0 and
      an index above the limit the result at the limit. *)
Theorem extract_plane_clamps (v : ndarray3 A) (plane : string) (index : Z)
  (zd yd xd : nat) :
  shape3 v = (zd, yd, xd) ->
  In plane ["Axial"; "Sagittal"; "Coronal"]%string ->
  let limit := index_limit v plane in
  let k := Z.max 0 (Z.min index limit) in
  limit = (if (plane =? "Axial")%string then Z.of_nat zd - 1
           else if (plane =? "Sagittal")%string then Z.of_nat xd - 1
           else Z.of_nat yd - 1)
  /\ (limit < 0 -> extract_plane d v plane index = Raise IndexError)
  /\ (0 <= limit ->
      0 <= k <= limit
      /\ (exists img,
            extract_plane d v plane index = Ok img
            /\ (plane = "Axial"%string ->
                forall y x, get2 d img y x = get3 d v (Z.to_nat k) y x)
            /\ (plane = "Sagittal"%string -> wf3 v ->
                forall y z, (y < yd)%nat -> (z < zd)%nat ->
                  get2 d img y z = get3 d v z y (Z.to_nat k))
            /\ (plane = "Coronal"%string -> wf3 v ->
                forall x z, (x < xd)%nat -> (z < zd)%nat ->
                  get2 d img x z = get3 d v z (Z.to_nat k) x))
      /\ extract_plane d v plane index = extract_plane d v plane k
      /\ extract_plane d v plane index
         = extract_plane d v plane (clamp index 0 limit)
      /\ (index < 0 -> extract_plane d v plane index = extract_plane d v plane 0)
      /\ (limit < index ->
          extract_plane d v plane index = extract_plane d v plane limit)).
Proof.
  intros Hs Hplane limit k.
  assert (Hlimit : limit
            = (if (plane =? "Axial")%string then Z.of_nat zd - 1
               else if (plane =? "Sagittal")%string then Z.of_nat xd - 1
               else Z.of_nat yd - 1)).
  { unfold limit, index_limit, plane_limit. rewrite Hs.
    destruct (plane =? "Axial")%string; [reflexivity|].
    destruct (plane =? "Sagittal")%string; reflexivity. }
  assert (Hcl : forall i, extract_plane d v plane i
            = extract_plane d v plane (clamp i 0 limit)).
  { intros i. rewrite Hlimit. unfold extract_plane. rewrite Hs.
    destruct Hplane as [<- | [<- | [<- | []]]];
      cbn [String.eqb Ascii.eqb Bool.eqb andb] in *;
      now rewrite clamp_idem. }
  split; [exact Hlimit|]. split.
  - intros Hneg. rewrite Hlimit in Hneg.
    unfold extract_plane, index_axis0, index_axis1, index_axis2. rewrite Hs.
    destruct Hplane as [<- | [<- | [<- | []]]];
      cbn [String.eqb Ascii.eqb Bool.eqb andb] in *.
    + assert (zd = 0%nat) by lia. subst zd.
      replace (clamp index 0 (Z.of_nat 0 - 1)) with 0 by (unfold clamp; lia).
      reflexivity.
    + assert (xd = 0%nat) by lia. subst xd.
      replace (clamp index 0 (Z.of_nat 0 - 1)) with 0 by (unfold clamp; lia).
      reflexivity.
    + assert (yd = 0%nat) by lia. subst yd.
      replace (clamp index 0 (Z.of_nat 0 - 1)) with 0 by (unfold clamp; lia).
      reflexivity.
  - intros Hlim.
    assert (Hk : 0 <= k <= limit) by (unfold k; lia).
    assert (Hck : clamp index 0 limit = k) by (apply clamp_nearest, Hlim).
    split; [exact Hk|]. split; [|split; [|split; [|split]]].
    + rewrite Hcl, Hck. clear Hck Hcl.
      assert (Hkk : k = Z.of_nat (Z.to_nat k)) by (rewrite Z2Nat.id; lia).
      set (n := Z.to_nat k) in *. clearbody n. clearbody k. subst k.
      destruct Hplane as [<- | [<- | [<- | []]]];
        cbn [String.eqb Ascii.eqb Bool.eqb andb] in Hlimit.
      * unfold extract_plane, index_axis0. rewrite Hs.
        cbn [String.eqb Ascii.eqb Bool.eqb andb].
        rewrite clamp_id by lia.
        rewrite norm_index_in_range by lia. cbn [bind].
        eexists. split; [reflexivity|].
        split; [intros _ y x; reflexivity|].
        split; intros H; discriminate H.
      * assert (Hex : exists img,
                  extract_plane d v "Sagittal" (Z.of_nat n) = Ok img).
        { unfold extract_plane, index_axis2. rewrite Hs.
          cbn [String.eqb Ascii.eqb Bool.eqb andb].
          rewrite clamp_id by lia.
          rewrite norm_index_in_range by lia. cbn [bind].
          eexists. reflexivity. }
        destruct Hex as [img Himg]. exists img. split; [exact Himg|].
        split; [intros H; discriminate H|].
        split; [|intros H; discriminate H].
        intros _ Hwf y z Hy Hz.
        rewrite (extract_plane_sagittal_tabulate v zd yd xd n Hwf Hs) in Himg
          by lia.
        injection Himg as <-. rewrite get2_tabulate2 by assumption.
        f_equal. lia.
      * assert (Hex : exists img,
                  extract_plane d v "Coronal" (Z.of_nat n) = Ok img).
        { unfold extract_plane, index_axis1. rewrite Hs.
          cbn [String.eqb Ascii.eqb Bool.eqb andb].
          rewrite clamp_id by lia.
          rewrite norm_index_in_range by lia. cbn [bind].
          eexists. reflexivity. }
        destruct Hex as [img Himg]. exists img. split; [exact Himg|].
        split; [intros H; discriminate H|].
        split; [intros H; discriminate H|].
        intros _ Hwf x z Hx Hz.
        rewrite (extract_plane_coronal_tabulate v zd yd xd n Hwf Hs) in Himg
          by lia.
        injection Himg as <-. rewrite get2_tabulate2 by assumption.
        f_equal. lia.
    + rewrite Hcl, Hck. reflexivity.
    + apply Hcl.
    + intros Hneg. rewrite Hcl, (Hcl 0). f_equal. unfold clamp. lia.
    + intros Hbig. rewrite Hcl, (Hcl limit). f_equal. unfold clamp. lia.
Qed.

End Reslicing.

Lemma gradient_1x2x3_wf : wf3 gradient_1x2x3.
Proof. split; [reflexivity|]. repeat constructor. Defined.

Lemma extract_plane_orientation_witness :
  extract_plane 0 gradient_1x2x3 "Sagittal" 1
  = Ok (flip_vertical 0 (rotate_ccw 0 (zy_slice 0 gradient_1x2x3 1))).
Proof.
  exact (proj1 (extract_plane_orientation 0 gradient_1x2x3 gradient_1x2x3_wf)
           1%nat ltac:(cbn; lia)).
Defined.

(** C3 as stated fails: on a volume of shape [(1, 2, 3)] the sagittal
    plane has shape [(2, 1)], not [(Z, Y) = (1, 2)], and the coronal plane
    has shape [(3, 1)], not [(Z, X) = (1, 3)]. *)
Lemma extract_plane_shape_counterexample :
  wf3 gradient_1x2x3
  /\ extract_plane 0 gradient_1x2x3 "Sagittal" 1 = Ok (mk2 (2, 1)%nat [[1]; [11]])
  /\ (2, 1)%nat <> (1, 2)%nat
  /\ extract_plane 0 gradient_1x2x3 "Coronal" 1
     = Ok (mk2 (3, 1)%nat [[10]; [11]; [12]])
  /\ (3, 1)%nat <> (1, 3)%nat.
Proof.
  split; [exact gradient_1x2x3_wf|].
  repeat split; try reflexivity; discriminate.
Qed.

Lemma extract_plane_shape_witness :
  exists img, extract_plane 0 gradient_1x2x3 "Sagittal" 1 = Ok img
              /\ shape2 img = (2, 1)%nat /\ wf2 img.
Proof.
  exact (proj1 (extract_plane_shape 0 gradient_1x2x3 1 2 3
                  gradient_1x2x3_wf eq_refl) 1%nat ltac:(lia)).
Defined.

(** The coronal plane of the sample volume at index -5: the limit is 1,
    the index brought into range is 0. *)
Lemma extract_plane_clamps_witness :
  extract_plane 0 gradient_1x2x3 "Coronal" (-5)
  = extract_plane 0 gradient_1x2x3 "Coronal" 0.
Proof.
  pose proof (extract_plane_clamps 0 gradient_1x2x3 "Coronal" (-5) 1 2 3
                eq_refl (or_intror (or_intror (or_introl eq_refl)))) as H.
  cbv zeta in H. destruct H as (_ & _ & H).
  destruct H as (_ & _ & _ & _ & H & _); [cbn; lia|].
  apply H. lia.
Defined.

(** C7 as stated fails: a volume of shape [(0, 2, 3)] has no axial slice;
    the limit is -1, the clamp gives 0 and the indexing raises. *)
Lemma extract_plane_clamps_counterexample :
  shape3 empty_volume = (0, 2, 3)%nat
  /\ wf3 empty_volume
  /\ index_limit empty_volume "Axial" = -1
  /\ clamp (-5) 0 (-1) = 0
  /\ extract_plane 0 empty_volume "Axial" (-5) = Raise IndexError.
Proof.
  split; [reflexivity|]. split; [split; [reflexivity | constructor]|].
  repeat split.
Qed.

Local Open Scope Z_scope.

(** * Floating point: powers of two and digits *)

Section BpowFacts.
Local Open Scope R_scope.

Lemma bpow_gt_0 (e : Z) : 0 < bpow e.
Proof. apply powerRZ_lt. lra. Qed.

Lemma bpow_plus (a b : Z) : bpow (a + b) = bpow a * bpow b.
Proof. apply powerRZ_add. lra. Qed.

Lemma bpow_0 : bpow 0 = 1.
Proof. reflexivity. Qed.

Lemma bpow_1 : bpow 1 = 2.
Proof. unfold bpow, powerRZ. simpl. lra. Qed.

Lemma bpow_m1 : bpow (-1) = / 2.
Proof. unfold bpow, powerRZ. simpl. f_equal. lra. Qed.

Lemma bpow_mul_opp (e : Z) : bpow e * bpow (- e) = 1.
Proof. rewrite <- bpow_plus. now replace (e + - e)%Z with 0%Z by lia. Qed.

Lemma bpow_opp (e : Z) : bpow (- e) = / bpow e.
Proof.
  pose proof (bpow_mul_opp e) as H. pose proof (bpow_gt_0 e) as Hp.
  apply (Rmult_eq_reg_l (bpow e)); [|lra].
  rewrite H. field. lra.
Qed.

Lemma bpow_IZR (e : Z) : (0 <= e)%Z -> bpow e = IZR (2 ^ e).
Proof.
  intros He. rewrite <- (Z2Nat.id e He). unfold bpow.
  rewrite <- pow_powerRZ. now rewrite pow_IZR.
Qed.

Lemma bpow_ge_1 (e : Z) : (0 <= e)%Z -> 1 <= bpow e.
Proof.
  intros He. rewrite bpow_IZR by exact He. apply IZR_le.
  pose proof (Z.pow_pos_nonneg 2 e). lia.
Qed.

Lemma bpow_le (a b : Z) : (a <= b)%Z -> bpow a <= bpow b.
Proof.
  intros H. replace b with (a + (b - a))%Z by lia. rewrite bpow_plus.
  pose proof (bpow_gt_0 a). pose proof (bpow_ge_1 (b - a) ltac:(lia)). nra.
Qed.

Lemma bpow_lt (a b : Z) : (a < b)%Z -> bpow a < bpow b.
Proof.
  intros H. replace b with (a + 1 + (b - a - 1))%Z by lia.
  rewrite !bpow_plus, bpow_1.
  pose proof (bpow_gt_0 a). pose proof (bpow_ge_1 (b - a - 1) ltac:(lia)). nra.
Qed.

Lemma bpow_lt_inv (a b : Z) : bpow a < bpow b -> (a < b)%Z.
Proof.
  intros H. destruct (Z_lt_le_dec a b) as [|Hle]; [assumption|].
  apply bpow_le in Hle. lra.
Qed.

Lemma bpow_le_inv (a b : Z) : bpow a <= bpow b -> (a <= b)%Z.
Proof.
  intros H. destruct (Z_le_gt_dec a b) as [|Hgt]; [assumption|].
  apply Z.gt_lt, bpow_lt in Hgt. lra.
Qed.

Lemma bpow_succ (e : Z) : bpow (e + 1) = 2 * bpow e.
Proof. rewrite bpow_plus, bpow_1. lra. Qed.

End BpowFacts.

Lemma digits2_pos_bounds (m : positive) :
  2 ^ (Zpos (digits2_pos m) - 1) <= Zpos m < 2 ^ Zpos (digits2_pos m).
Proof.
  induction m as [m IH|m IH|]; cbn [digits2_pos].
  - rewrite Pos2Z.inj_succ. replace (Z.succ (Zpos (digits2_pos m)) - 1)
      with (Z.succ (Zpos (digits2_pos m) - 1)) by lia.
    rewrite !Z.pow_succ_r by lia. lia.
  - rewrite Pos2Z.inj_succ. replace (Z.succ (Zpos (digits2_pos m)) - 1)
      with (Z.succ (Zpos (digits2_pos m) - 1)) by lia.
    rewrite !Z.pow_succ_r by lia. lia.
  - cbn. lia.
Qed.

Lemma Zdigits2_nonneg (n : Z) : 0 <= Zdigits2 n.
Proof. destruct n; cbn; lia. Qed.

Lemma Zdigits2_bounds (n : Z) :
  0 < n -> 2 ^ (Zdigits2 n - 1) <= n < 2 ^ Zdigits2 n.
Proof. destruct n as [|p|p]; try lia. intros _. apply digits2_pos_bounds. Qed.

Lemma Zdigits2_gt_0 (n : Z) : 0 < n -> 0 < Zdigits2 n.
Proof. destruct n; cbn; lia. Qed.

Lemma Zdigits2_unique (n k : Z) :
  0 < n -> 2 ^ (k - 1) <= n < 2 ^ k -> Zdigits2 n = k.
Proof.
  intros Hn [Hlo Hhi]. pose proof (Zdigits2_bounds n Hn) as [Hlo' Hhi'].
  pose proof (Zdigits2_gt_0 n Hn) as Hd.
  assert (Hk : 0 < k).
  { destruct (Z_lt_le_dec 0 k) as [|Hk]; [assumption|].
    exfalso. destruct (Z.eq_dec k 0) as [->|Hne].
    - cbn in Hhi. lia.
    - rewrite Z.pow_neg_r in Hhi by lia. lia. }
  destruct (Z.lt_trichotomy (Zdigits2 n) k) as [H|[H|H]]; [|assumption|].
  - exfalso. assert (2 ^ Zdigits2 n <= 2 ^ (k - 1)) by (apply Z.pow_le_mono_r; lia). lia.
  - exfalso. assert (2 ^ k <= 2 ^ (Zdigits2 n - 1)) by (apply Z.pow_le_mono_r; lia). lia.
Qed.

Lemma Zdigits2_le (n n' : Z) : 0 < n -> n <= n' -> Zdigits2 n <= Zdigits2 n'.
Proof.
  intros Hn Hle. pose proof (Zdigits2_bounds n Hn) as [Hlo _].
  pose proof (Zdigits2_bounds n' ltac:(lia)) as [_ Hhi].
  destruct (Z_le_gt_dec (Zdigits2 n) (Zdigits2 n')) as [|Hgt]; [assumption|].
  exfalso.
  assert (2 ^ Zdigits2 n' <= 2 ^ (Zdigits2 n - 1)) by (apply Z.pow_le_mono_r; lia).
  lia.
Qed.

Lemma Zdigits2_mul_pow (n k : Z) :
  0 < n -> 0 <= k -> Zdigits2 (n * 2 ^ k) = Zdigits2 n + k.
Proof.
  intros Hn Hk. pose proof (Zdigits2_bounds n Hn) as [Hlo Hhi].
  pose proof (Zdigits2_gt_0 n Hn) as Hd.
  pose proof (Z.pow_pos_nonneg 2 k ltac:(lia) Hk) as Hp.
  apply Zdigits2_unique; [nia|].
  replace (Zdigits2 n + k - 1) with ((Zdigits2 n - 1) + k) by lia.
  rewrite !Z.pow_add_r by lia. nia.
Qed.

(** The real bounds that the digits of a mantissa give. *)
Lemma digits_bpow (n : Z) :
  0 < n -> (bpow (Zdigits2 n - 1) <= IZR n < bpow (Zdigits2 n))%R.
Proof.
  intros Hn. pose proof (Zdigits2_bounds n Hn) as [Hlo Hhi].
  pose proof (Zdigits2_gt_0 n Hn) as Hd.
  rewrite !bpow_IZR by lia. split; [apply IZR_le | apply IZR_lt]; assumption.
Qed.

Local Open Scope Z_scope.

(** * Floating point: places and right shifts *)

Section RepFacts.
Local Open Scope R_scope.

Lemma loc_frac_range (f : R) (l : location) : loc_frac f l -> 0 <= f < 1.
Proof. destruct l as [|[| |]]; cbn; lra. Qed.

Lemma loc_frac_exact (f : R) (l : location) : loc_frac f l -> f = 0 -> l = loc_Exact.
Proof. destruct l as [|[| |]]; cbn; intros; try reflexivity; lra. Qed.

Lemma rep_bounds (x : R) (m e : Z) (l : location) :
  rep x m e l -> IZR m * bpow e <= x < (IZR m + 1) * bpow e.
Proof.
  unfold rep. intros H. apply loc_frac_range in H.
  pose proof (bpow_gt_0 e) as Hp. pose proof (bpow_mul_opp e) as Hinv.
  assert (Hx : x = x * bpow (- e) * bpow e).
  { rewrite Rmult_assoc, (Rmult_comm (bpow (- e))), Hinv. lra. }
  set (t := x * bpow (- e)) in *. clearbody t. subst x. split.
  - apply Rmult_le_compat_r; lra.
  - apply Rmult_lt_compat_r; lra.
Qed.

Lemma rep_exact (m e : Z) : rep (IZR m * bpow e) m e loc_Exact.
Proof.
  unfold rep, loc_frac. rewrite Rmult_assoc, bpow_mul_opp. lra.
Qed.

(** A real on the grid of the exponent has one place only. *)
Lemma rep_int (x : R) (m e k : Z) (l : location) :
  rep x m e l -> x * bpow (- e) = IZR k -> m = k /\ l = loc_Exact.
Proof.
  unfold rep. intros H Hk. rewrite Hk in H.
  pose proof (loc_frac_range _ _ H) as [Hlo Hhi].
  rewrite <- minus_IZR in Hlo, Hhi.
  apply le_IZR in Hlo. apply lt_IZR in Hhi.
  assert (m = k) by lia. subst k. split; [reflexivity|].
  apply (loc_frac_exact _ _ H). lra.
Qed.

Lemma rep_nonneg (x : R) (m e : Z) (l : location) :
  (0 <= m)%Z -> rep x m e l -> 0 <= x.
Proof.
  intros Hm H. apply rep_bounds in H. pose proof (bpow_gt_0 e).
  apply IZR_le in Hm. nra.
Qed.

Lemma loc_of_record_of_loc (m : Z) (l : location) :
  loc_of_shr_record (shr_record_of_loc m l) = l.
Proof. destruct l as [|[| |]]; reflexivity. Qed.

Lemma shr_m_record_of_loc (m : Z) (l : location) :
  shr_m (shr_record_of_loc m l) = m.
Proof. destruct l as [|[| |]]; reflexivity. Qed.

Lemma bpow_opp_succ (e : Z) : bpow (- (e + 1)) = bpow (- e) * / 2.
Proof.
  replace (- (e + 1))%Z with (- e + -1)%Z by lia.
  now rewrite bpow_plus, bpow_m1.
Qed.

Lemma shr_1_inv (x : R) (e : Z) (r : shr_record) :
  shr_inv x e r -> shr_inv x (e + 1) (shr_1 r).
Proof.
  destruct r as [m rb sb]. unfold shr_inv, rep. cbn [shr_m].
  rewrite bpow_opp_succ. set (t := x * bpow (- e)).
  replace (x * (bpow (- e) * / 2)) with (t / 2) by (unfold t; field).
  clearbody t. intros [Hm H].
  destruct m as [|[p|p|]|p]; try lia.
  - destruct rb, sb; cbn in H |- *; split; try lia; lra.
  - rewrite (IZR_POS_xI p) in H.
    destruct rb, sb; cbn in H |- *; split; try lia; lra.
  - rewrite (IZR_POS_xO p) in H.
    destruct rb, sb; cbn in H |- *; split; try lia; lra.
  - destruct rb, sb; cbn in H |- *; split; try lia; lra.
Qed.

Lemma iter_pos_shr_1_inv (x : R) (p : positive) :
  forall (e : Z) (r : shr_record),
  shr_inv x e r -> shr_inv x (e + Zpos p) (SpecFloat.iter_pos shr_1 p r).
Proof.
  induction p as [p IH|p IH|]; intros e r H; cbn [SpecFloat.iter_pos].
  - replace (e + Zpos p~1)%Z with (e + 1 + Zpos p + Zpos p)%Z by lia.
    apply IH, IH, shr_1_inv, H.
  - replace (e + Zpos p~0)%Z with (e + Zpos p + Zpos p)%Z by lia.
    apply IH, IH, H.
  - apply shr_1_inv, H.
Qed.

Lemma shr_inv_spec (x : R) (r : shr_record) (e n : Z) :
  shr_inv x e r ->
  shr_inv x (snd (shr r e n)) (fst (shr r e n))
  /\ snd (shr r e n) = (e + Z.max n 0)%Z.
Proof.
  intros H. unfold shr. destruct n as [|p|p]; cbn [fst snd].
  - split; [exact H | lia].
  - split; [now apply iter_pos_shr_1_inv | lia].
  - split; [exact H | lia].
Qed.

End RepFacts.

Section ShrFexp.
Variables prec emax : Z.
Local Open Scope R_scope.

Lemma shr_fexp_spec (x : R) (m e : Z) (l : location) :
  (0 <= m)%Z -> rep x m e l ->
  shr_inv x (snd (shr_fexp prec emax m e l)) (fst (shr_fexp prec emax m e l))
  /\ snd (shr_fexp prec emax m e l)
     = Z.max e (fexp prec emax (Zdigits2 m + e)).
Proof.
  intros Hm H. unfold shr_fexp.
  assert (Hinv : shr_inv x e (shr_record_of_loc m l)).
  { split; [now rewrite shr_m_record_of_loc|].
    now rewrite shr_m_record_of_loc, loc_of_record_of_loc. }
  destruct (shr_inv_spec x _ e (fexp prec emax (Zdigits2 m + e) - e) Hinv)
    as [H1 H2].
  split; [exact H1 | rewrite H2; lia].
Qed.

Lemma round_nearest_even_cases (m : Z) (l : location) :
  round_nearest_even m l = m \/ round_nearest_even m l = (m + 1)%Z.
Proof. destruct l as [|[| |]]; cbn; auto. destruct (Z.even m); auto. Qed.

End ShrFexp.

Local Open Scope Z_scope.

(** * Floating point: what [binary_round_aux] computes *)

Section RoundAux.
Variables prec emax : Z.
Hypothesis Hprec : 0 < prec.

Local Notation "'fexp'" := (SpecFloat.fexp prec emax).
Local Notation "'emin'" := (SpecFloat.emin prec emax).

Lemma fexp_ge_emin (e : Z) : emin <= fexp e.
Proof. unfold SpecFloat.fexp. lia. Qed.

Lemma fexp_le (a b : Z) : a <= b -> fexp a <= fexp b.
Proof. unfold SpecFloat.fexp. lia. Qed.

Lemma bra_pack (s : bool) (m e : Z) (l : location) :
  binary_round_aux prec emax s m e l
  = pack prec emax s
      (round_nearest_even (shr_m (fst (shr_fexp prec emax m e l)))
         (loc_of_shr_record (fst (shr_fexp prec emax m e l))))
      (snd (shr_fexp prec emax m e l)).
Proof.
  unfold binary_round_aux, pack.
  destruct (shr_fexp prec emax m e l) as [mrs' e']. reflexivity.
Qed.

Local Open Scope R_scope.

(** The exponent at which a positive real is rounded. *)
Lemma round_exponent (x : R) (m e : Z) (l : location) :
  (0 <= m)%Z -> rep x m e l -> enough prec emax m e ->
  x < bpow (fexp (Zdigits2 m + e) + prec)
  /\ (fexp (Zdigits2 m + e) = emin
      \/ bpow (fexp (Zdigits2 m + e) + prec - 1) <= x).
Proof.
  intros Hm Hrep Hen. unfold enough in Hen.
  apply rep_bounds in Hrep. destruct Hrep as [Hlo Hhi].
  pose proof (bpow_gt_0 e) as Hp.
  destruct (Z.eq_dec m 0) as [->|Hne].
  - cbn [Zdigits2] in *. rewrite Z.add_0_l in *.
    assert (HE : fexp e = emin) by (unfold SpecFloat.fexp in *; lia).
    split; [|now left].
    rewrite HE. apply Rlt_le_trans with (bpow e); [lra|].
    apply bpow_le. lia.
  - assert (Hm' : (0 < m)%Z) by lia.
    pose proof (digits_bpow m Hm') as [Hd1 Hd2].
    set (D := Zdigits2 m) in *.
    assert (Hx1 : bpow (D + e - 1) <= x).
    { replace (D + e - 1)%Z with (D - 1 + e)%Z by lia. rewrite bpow_plus. nra. }
    assert (Hx2 : x < bpow (D + e)).
    { rewrite bpow_plus.
      apply Rlt_le_trans with ((IZR m + 1) * bpow e); [exact Hhi|].
      apply Rmult_le_compat_r; [lra|].
      pose proof (Zdigits2_bounds m Hm') as [_ Hb]. fold D in Hb.
      pose proof (Zdigits2_gt_0 m Hm'). fold D in H.
      rewrite bpow_IZR by lia. rewrite <- plus_IZR. apply IZR_le. lia. }
    split.
    + apply Rlt_le_trans with (bpow (D + e)); [exact Hx2|].
      apply bpow_le. unfold SpecFloat.fexp. lia.
    + destruct (Z.eq_dec (fexp (D + e)) emin) as [|Hne']; [now left | right].
      apply Rle_trans with (bpow (D + e - 1)); [|exact Hx1].
      apply bpow_le. unfold SpecFloat.fexp in *. lia.
Qed.

(** [binary_round_aux] rounds [x] on the grid of the exponent
    [E = fexp (digits + e)] and packs the result. *)
Lemma bra_round (x : R) (m e : Z) (l : location) :
  (0 <= m)%Z -> rep x m e l -> enough prec emax m e ->
  exists m1 l1 E,
    (0 <= m1)%Z /\ rep x m1 E l1 /\ E = fexp (Zdigits2 m + e)
    /\ forall s, binary_round_aux prec emax s m e l
                 = pack prec emax s (round_nearest_even m1 l1) E.
Proof.
  intros Hm Hrep Hen.
  destruct (shr_fexp_spec prec emax x m e l Hm Hrep) as [[Hm1 Hrep1] HE].
  exists (shr_m (fst (shr_fexp prec emax m e l))),
         (loc_of_shr_record (fst (shr_fexp prec emax m e l))),
         (snd (shr_fexp prec emax m e l)).
  split; [exact Hm1|]. split; [exact Hrep1|].
  split; [rewrite HE; unfold enough in Hen; lia|].
  intros s. apply bra_pack.
Qed.

Lemma round_good (x : R) (m1 E : Z) (l1 : location) :
  (0 <= m1)%Z -> rep x m1 E l1 -> (emin <= E)%Z ->
  x < bpow (E + prec) -> (E = emin \/ bpow (E + prec - 1) <= x) ->
  good prec emax (round_nearest_even m1 l1) E.
Proof.
  intros Hm1 Hrep HE Hx1 Hx2. apply rep_bounds in Hrep.
  destruct Hrep as [Hlo Hhi]. pose proof (bpow_gt_0 E) as Hp.
  assert (Hlt : (m1 < 2 ^ prec)%Z).
  { apply lt_IZR. rewrite <- bpow_IZR by lia.
    rewrite bpow_plus, Rmult_comm in Hx1. 
    apply (Rmult_lt_reg_r (bpow E)); [exact Hp|]. nra. }
  split; [exact HE|]. split.
  - destruct (round_nearest_even_cases m1 l1) as [-> | ->]; lia.
  - destruct Hx2 as [Hx2|Hx2]; [now left | right].
    assert (H : (2 ^ (prec - 1) < m1 + 1)%Z).
    { apply lt_IZR. rewrite plus_IZR. rewrite <- bpow_IZR by lia.
      replace (E + prec - 1)%Z with (prec - 1 + E)%Z in Hx2 by lia.
      rewrite bpow_plus in Hx2.
      apply (Rmult_lt_reg_r (bpow E)); [exact Hp|]. nra. }
    destruct (round_nearest_even_cases m1 l1) as [-> | ->]; lia.
Qed.

End RoundAux.

Local Open Scope Z_scope.

(** * Floating point: canonical results and their order *)

Section Pack.
Variables prec emax : Z.
Hypothesis Hprec : 0 < prec.

Local Notation "'fexp'" := (SpecFloat.fexp prec emax).
Local Notation "'emin'" := (SpecFloat.emin prec emax).
Local Notation "'canonical'" := (canonical_mantissa prec emax).

Lemma canonical_iff (p : positive) (e : Z) :
  canonical p e = true <-> fexp (Zdigits2 (Zpos p) + e) = e.
Proof. unfold canonical_mantissa. cbn [Zdigits2]. apply Z.eqb_eq. Qed.

Lemma shr_fexp_noshift (m2 E : Z) :
  fexp (Zdigits2 m2 + E) <= E ->
  shr_fexp prec emax m2 E loc_Exact = (shr_record_of_loc m2 loc_Exact, E).
Proof.
  intros H. unfold shr_fexp, shr.
  destruct (fexp (Zdigits2 m2 + E) - E) eqn:Hn; try reflexivity. lia.
Qed.

Lemma digits_le_prec (m2 : Z) : 0 < m2 -> m2 < 2 ^ prec -> Zdigits2 m2 <= prec.
Proof.
  intros Hpos Hlt. pose proof (Zdigits2_bounds m2 Hpos) as [Hlo _].
  destruct (Z_le_gt_dec (Zdigits2 m2) prec) as [|Hgt]; [assumption|].
  exfalso.
  assert (2 ^ prec <= 2 ^ (Zdigits2 m2 - 1)) by (apply Z.pow_le_mono_r; lia).
  lia.
Qed.

Lemma digits_ge_prec (m2 : Z) : 2 ^ (prec - 1) <= m2 -> prec <= Zdigits2 m2.
Proof.
  intros Hge. assert (Hpos : 0 < m2).
  { pose proof (Z.pow_pos_nonneg 2 (prec - 1)). lia. }
  pose proof (Zdigits2_bounds m2 Hpos) as [_ Hhi].
  destruct (Z_le_gt_dec prec (Zdigits2 m2)) as [|Hgt]; [assumption|].
  exfalso.
  assert (2 ^ Zdigits2 m2 <= 2 ^ (prec - 1)) by (apply Z.pow_le_mono_r;
    pose proof (Zdigits2_gt_0 m2 Hpos); lia).
  lia.
Qed.

Local Open Scope R_scope.

Lemma pack_spec (m2 E : Z) :
  good prec emax m2 E ->
  (m2 = 0%Z /\ forall s, pack prec emax s m2 E = S754_zero s)
  \/ ((0 < m2)%Z /\ exists p e3,
        canonical p e3 = true
        /\ IZR (Zpos p) * bpow e3 = IZR m2 * bpow E
        /\ forall s, pack prec emax s m2 E
             = if (e3 <=? emax - prec)%Z then S754_finite s p e3
               else S754_infinity s).
Proof.
  intros [HE [[Hm0 Hm1] Hnorm]].
  destruct (Z.eq_dec m2 0) as [->|Hne].
  { left. split; [reflexivity|]. intros s. unfold pack.
    rewrite shr_fexp_noshift; [reflexivity|].
    cbn [Zdigits2]. unfold SpecFloat.fexp. lia. }
  right. split; [lia|].
  destruct (Z.eq_dec m2 (2 ^ prec)%Z) as [Hcarry|Hnc].
  - (* the rounding carried into one more digit *)
    assert (Hpow : (2 ^ prec = 2 * 2 ^ (prec - 1))%Z).
    { replace prec with (Z.succ (prec - 1)) at 1 by lia.
      apply Z.pow_succ_r. lia. }
    assert (Hhalf : (0 < 2 ^ (prec - 1))%Z) by (apply Z.pow_pos_nonneg; lia).
    assert (Hdig : Zdigits2 m2 = (prec + 1)%Z).
    { apply Zdigits2_unique; [lia|]. rewrite Hcarry.
      replace (prec + 1 - 1)%Z with prec by lia.
      replace (prec + 1)%Z with (Z.succ prec) by lia.
      rewrite Z.pow_succ_r by lia. lia. }
    destruct (shr_fexp_spec prec emax (IZR m2 * bpow E) m2 E loc_Exact
                ltac:(lia) (rep_exact m2 E)) as [[Hm3 Hrep3] He3].
    rewrite Hdig in He3.
    assert (He3' : snd (shr_fexp prec emax m2 E loc_Exact) = (E + 1)%Z).
    { rewrite He3. unfold SpecFloat.fexp. lia. }
    assert (Hval : IZR m2 * bpow E * bpow (- (E + 1)) = IZR (2 ^ (prec - 1))).
    { rewrite Hcarry, Hpow, mult_IZR, bpow_opp_succ.
      rewrite Rmult_assoc, <- (Rmult_assoc (bpow E)), bpow_mul_opp. lra. }
    rewrite He3' in Hrep3.
    destruct (rep_int _ _ _ _ _ Hrep3 Hval) as [Hm3' _].
    destruct (2 ^ (prec - 1))%Z as [|q|q] eqn:Hq; try lia.
    exists q, (E + 1)%Z. split; [|split].
    + apply canonical_iff.
      assert (Zdigits2 (Zpos q) = prec).
      { apply Zdigits2_unique; [lia|]. lia. }
      rewrite H. unfold SpecFloat.fexp. lia.
    + rewrite Hcarry, Hpow, mult_IZR, bpow_succ. lra.
    + intros s. unfold pack.
      destruct (shr_fexp prec emax m2 E loc_Exact) as [mrs e3].
      cbn [fst snd] in *. subst e3. rewrite Hm3', He3'. reflexivity.
  - (* no carry *)
    assert (Hlt : (m2 < 2 ^ prec)%Z) by lia.
    assert (Hpos : (0 < m2)%Z) by lia.
    pose proof (digits_le_prec m2 Hpos Hlt) as Hd.
    assert (Hfe : fexp (Zdigits2 m2 + E) = E).
    { destruct Hnorm as [->|Hge].
      - unfold SpecFloat.fexp. lia.
      - pose proof (digits_ge_prec m2 Hge). unfold SpecFloat.fexp. lia. }
    destruct m2 as [|p|p]; try lia.
    exists p, E. split; [now apply canonical_iff|]. split; [reflexivity|].
    intros s. unfold pack. rewrite shr_fexp_noshift by lia. reflexivity.
Qed.

(** Canonical mantissas are ordered by their exponents first. *)
Lemma canonical_lt (p p' : positive) (e e' : Z) :
  canonical p e = true -> canonical p' e' = true -> (e < e')%Z ->
  IZR (Zpos p) * bpow e < IZR (Zpos p') * bpow e'.
Proof.
  intros Hc Hc' Hlt. apply canonical_iff in Hc, Hc'.
  pose proof (digits_bpow (Zpos p) ltac:(lia)) as [_ Hhi].
  pose proof (digits_bpow (Zpos p') ltac:(lia)) as [Hlo' _].
  pose proof (bpow_gt_0 e). pose proof (bpow_gt_0 e').
  assert (Hd : (Zdigits2 (Zpos p) <= prec)%Z) by (unfold SpecFloat.fexp in Hc; lia).
  assert (Hd' : (Zdigits2 (Zpos p') = prec)%Z) by (unfold SpecFloat.fexp in Hc, Hc'; lia).
  rewrite Hd' in Hlo'.
  apply Rlt_le_trans with (bpow (prec + e)).
  - rewrite bpow_plus. apply Rmult_lt_compat_r; [lra|].
    apply Rlt_le_trans with (bpow (Zdigits2 (Zpos p))); [exact Hhi|].
    now apply bpow_le.
  - apply Rle_trans with (bpow (prec - 1 + e')).
    + apply bpow_le. lia.
    + rewrite bpow_plus. apply Rmult_le_compat_r; lra.
Qed.

Lemma canonical_value_le (p p' : positive) (e e' : Z) :
  canonical p e = true -> canonical p' e' = true ->
  IZR (Zpos p) * bpow e <= IZR (Zpos p') * bpow e' ->
  (e < e')%Z \/ (e = e' /\ (p <= p')%positive).
Proof.
  intros Hc Hc' Hle.
  destruct (Z.lt_trichotomy e e') as [H|[H|H]]; [now left | right | exfalso].
  - split; [exact H|]. subst e'. pose proof (bpow_gt_0 e).
    apply Rmult_le_reg_r in Hle; [|lra]. apply le_IZR in Hle. lia.
  - pose proof (canonical_lt _ _ _ _ Hc' Hc H). lra.
Qed.

Lemma SFleb_finite_pos (p p' : positive) (e e' : Z) :
  canonical p e = true -> canonical p' e' = true ->
  IZR (Zpos p) * bpow e <= IZR (Zpos p') * bpow e' ->
  SFleb (S754_finite false p e) (S754_finite false p' e') = true.
Proof.
  intros Hc Hc' Hle.
  destruct (canonical_value_le _ _ _ _ Hc Hc' Hle) as [H|[-> H]];
    unfold SFleb, SFcompare.
  - apply Z.compare_lt_iff in H. now rewrite H.
  - rewrite Z.compare_refl. change (Pos.compare_cont Eq p p') with (p ?= p')%positive.
    apply Pos.compare_le_iff in H. destruct (p ?= p')%positive; congruence.
Qed.

Lemma SFleb_finite_neg (p p' : positive) (e e' : Z) :
  canonical p e = true -> canonical p' e' = true ->
  IZR (Zpos p) * bpow e <= IZR (Zpos p') * bpow e' ->
  SFleb (S754_finite true p' e') (S754_finite true p e) = true.
Proof.
  intros Hc Hc' Hle.
  destruct (canonical_value_le _ _ _ _ Hc Hc' Hle) as [H|[-> H]];
    unfold SFleb, SFcompare.
  - apply Z.compare_gt_iff in H. now rewrite H.
  - rewrite Z.compare_refl. change (Pos.compare_cont Eq p' p) with (p' ?= p)%positive.
    apply Pos.compare_ge_iff in H. destruct (p' ?= p)%positive; cbn; congruence.
Qed.

End Pack.

Local Open Scope Z_scope.

(** * Floating point: rounding is monotone, exact on the format, and
    determined by the real it rounds *)

Section Rounding.
Variables prec emax : Z.
Hypothesis Hprec : 0 < prec.

Local Notation "'fexp'" := (SpecFloat.fexp prec emax).
Local Notation "'emin'" := (SpecFloat.emin prec emax).
Local Notation "'canonical'" := (canonical_mantissa prec emax).

Local Open Scope R_scope.

Lemma rounded_at_intro (x : R) (m e : Z) (l : location) :
  (0 <= m)%Z -> rep x m e l -> enough prec emax m e ->
  exists m1 l1 E,
    rounded_at prec emax x m1 l1 E
    /\ forall s, binary_round_aux prec emax s m e l
                 = pack prec emax s (round_nearest_even m1 l1) E.
Proof.
  intros Hm Hrep Hen.
  destruct (bra_round prec emax x m e l Hm Hrep Hen)
    as (m1 & l1 & E & Hm1 & Hrep1 & HE & Hpack).
  destruct (round_exponent prec emax Hprec x m e l Hm Hrep Hen) as [Hhi Hlo].
  exists m1, l1, E. split; [|exact Hpack].
  unfold rounded_at. rewrite HE. repeat split; try assumption.
  - now rewrite <- HE.
  - apply fexp_ge_emin.
Qed.

Lemma rounded_at_good (x : R) (m1 E : Z) (l1 : location) :
  rounded_at prec emax x m1 l1 E ->
  good prec emax (round_nearest_even m1 l1) E.
Proof.
  intros (Hm & Hrep & HE & Hhi & Hlo).
  now apply (round_good prec emax Hprec x).
Qed.

Lemma rne_bounds (m : Z) (l : location) :
  (m <= round_nearest_even m l <= m + 1)%Z.
Proof. destruct (round_nearest_even_cases m l) as [-> | ->]; lia. Qed.

Lemma loc_frac_unique (t : R) (m m' : Z) (l l' : location) :
  loc_frac (t - IZR m) l -> loc_frac (t - IZR m') l' -> m = m' /\ l = l'.
Proof.
  intros H H'.
  pose proof (loc_frac_range _ _ H) as Hr.
  pose proof (loc_frac_range _ _ H') as Hr'.
  assert (Hm : m = m').
  { assert (IZR m < IZR m' + 1) by lra. assert (IZR m' < IZR m + 1) by lra.
    rewrite <- plus_IZR in *. apply lt_IZR in H0, H1. lia. }
  subst m'. split; [reflexivity|].
  destruct l as [|[| |]], l' as [|[| |]]; cbn in H, H'; try reflexivity;
    exfalso; lra.
Qed.

Lemma rne_mono (t t' : R) (m m' : Z) (l l' : location) :
  loc_frac (t - IZR m) l -> loc_frac (t' - IZR m') l' -> t <= t' ->
  (round_nearest_even m l <= round_nearest_even m' l')%Z.
Proof.
  intros H H' Hle.
  pose proof (loc_frac_range _ _ H) as Hr.
  pose proof (loc_frac_range _ _ H') as Hr'.
  assert (Hm : (m <= m')%Z).
  { assert (IZR m < IZR m' + 1) by lra.
    rewrite <- plus_IZR in *. apply lt_IZR in H0. lia. }
  destruct (Z.eq_dec m m') as [<-|Hne].
  - destruct l as [|[| |]], l' as [|[| |]]; cbn in H, H' |- *;
      try (exfalso; lra); destruct (Z.even m); lia.
  - pose proof (rne_bounds m l). pose proof (rne_bounds m' l'). lia.
Qed.

Lemma rounded_at_exponent_le (x x' : R) (m1 m1' E E' : Z) (l1 l1' : location) :
  rounded_at prec emax x m1 l1 E -> rounded_at prec emax x' m1' l1' E' ->
  x <= x' -> (E <= E')%Z.
Proof.
  intros (Hm & Hrep & HE & Hhi & Hlo) (Hm' & Hrep' & HE' & Hhi' & Hlo') Hle.
  destruct (Z_le_gt_dec E E') as [|Hgt]; [assumption|]. exfalso.
  destruct Hlo as [->|Hlo]; [lia|].
  assert (bpow (E + prec - 1) < bpow (E' + prec)) by lra.
  apply bpow_lt_inv in H. lia.
Qed.

Lemma rounded_at_mono (x x' : R) (m1 m1' E E' : Z) (l1 l1' : location) :
  rounded_at prec emax x m1 l1 E -> rounded_at prec emax x' m1' l1' E' ->
  x <= x' ->
  IZR (round_nearest_even m1 l1) * bpow E
  <= IZR (round_nearest_even m1' l1') * bpow E'.
Proof.
  intros H H' Hle.
  pose proof (rounded_at_exponent_le _ _ _ _ _ _ _ _ H H' Hle) as HEE.
  pose proof (rounded_at_good _ _ _ _ H) as (_ & [_ Hup] & _).
  pose proof (rounded_at_good _ _ _ _ H') as (_ & _ & Hdn').
  destruct H as (Hm & Hrep & HE & Hhi & Hlo).
  destruct H' as (Hm' & Hrep' & HE' & Hhi' & Hlo').
  destruct (Z.eq_dec E E') as [<-|Hne].
  - apply Rmult_le_compat_r; [pose proof (bpow_gt_0 E); lra|].
    apply IZR_le. apply (rne_mono (x * bpow (- E)) (x' * bpow (- E)));
      try assumption.
    apply Rmult_le_compat_r; [pose proof (bpow_gt_0 (- E)); lra | exact Hle].
  - assert (Hlt : (E < E')%Z) by lia.
    destruct Hdn' as [->|Hdn']; [lia|].
    apply IZR_le in Hup, Hdn'.
    rewrite <- bpow_IZR in Hup, Hdn' by lia.
    pose proof (bpow_gt_0 E). pose proof (bpow_gt_0 E').
    apply Rle_trans with (bpow (prec + E)).
    + rewrite bpow_plus. apply Rmult_le_compat_r; lra.
    + apply Rle_trans with (bpow (prec - 1 + E')).
      * apply bpow_le. lia.
      * rewrite bpow_plus. apply Rmult_le_compat_r; lra.
Qed.

Lemma rounded_at_unique (x : R) (m1 m1' E E' : Z) (l1 l1' : location) :
  rounded_at prec emax x m1 l1 E -> rounded_at prec emax x m1' l1' E' ->
  E = E' /\ m1 = m1' /\ l1 = l1'.
Proof.
  intros H H'.
  pose proof (rounded_at_exponent_le _ _ _ _ _ _ _ _ H H' ltac:(lra)).
  pose proof (rounded_at_exponent_le _ _ _ _ _ _ _ _ H' H ltac:(lra)).
  assert (E = E') by lia. subst E'. split; [reflexivity|].
  destruct H as (_ & Hrep & _), H' as (_ & Hrep' & _).
  exact (loc_frac_unique _ _ _ _ _ Hrep Hrep').
Qed.

(** The results of [pack] on a good mantissa. *)
Lemma pack_cases (m2 E : Z) :
  good prec emax m2 E ->
  forall s, pack prec emax s m2 E = S754_zero s
       \/ pack prec emax s m2 E = S754_infinity s
       \/ exists p e, pack prec emax s m2 E = S754_finite s p e
                      /\ SpecFloat.bounded prec emax p e = true
                      /\ IZR (Zpos p) * bpow e = IZR m2 * bpow E.
Proof.
  intros Hg s.
  destruct (pack_spec prec emax Hprec m2 E Hg)
    as [[_ Hz]|[_ (p & e & Hc & Hv & Hp)]].
  - left. apply Hz.
  - right. rewrite Hp. destruct (e <=? emax - prec)%Z eqn:He.
    + right. exists p, e. split; [reflexivity|]. split; [|exact Hv].
      unfold SpecFloat.bounded. now rewrite Hc, He.
    + now left.
Qed.

Lemma pack_le (m2 m2' E E' : Z) :
  good prec emax m2 E -> good prec emax m2' E' ->
  IZR m2 * bpow E <= IZR m2' * bpow E' ->
  SFleb (pack prec emax false m2 E) (pack prec emax false m2' E') = true
  /\ SFleb (pack prec emax true m2' E') (pack prec emax true m2 E) = true.
Proof.
  intros Hg Hg' Hle.
  pose proof (bpow_gt_0 E) as HbE. pose proof (bpow_gt_0 E') as HbE'.
  destruct (pack_spec prec emax Hprec m2 E Hg)
    as [[Hz Hp]|[Hpos (p & e & Hc & Hv & Hp)]];
  destruct (pack_spec prec emax Hprec m2' E' Hg')
    as [[Hz' Hp']|[Hpos' (p' & e' & Hc' & Hv' & Hp')]];
  rewrite !Hp, !Hp'.
  - split; reflexivity.
  - split; destruct (e' <=? emax - prec)%Z; reflexivity.
  - exfalso. subst m2'. apply IZR_lt in Hpos. nra.
  - rewrite <- Hv, <- Hv' in Hle.
    destruct (canonical_value_le prec emax _ _ _ _ Hc Hc' Hle) as [H|[He Hpp]].
    + destruct (e <=? emax - prec)%Z eqn:He; destruct (e' <=? emax - prec)%Z eqn:He';
        try (split; reflexivity).
      * split; [now apply (SFleb_finite_pos prec emax) | now apply (SFleb_finite_neg prec emax)].
      * apply Z.leb_le in He'. apply Z.leb_gt in He. lia.
    + subst e'. destruct (e <=? emax - prec)%Z; [|split; reflexivity].
      split; [now apply (SFleb_finite_pos prec emax) | now apply (SFleb_finite_neg prec emax)].
Qed.

(** What [rounds] gives for a positive and for a negative real. *)
Lemma rounds_pos (x : R) (f : spec_float) :
  rounds prec emax x f -> 0 < x ->
  exists m1 l1 E, rounded_at prec emax x m1 l1 E
                  /\ f = pack prec emax false (round_nearest_even m1 l1) E.
Proof.
  intros [[H _]|[[_ (m & e & l & Hm & Hrep & Hen & ->)]|[H _]]] Hx; try lra.
  destruct (rounded_at_intro x m e l Hm Hrep Hen) as (m1 & l1 & E & H & Hp).
  exists m1, l1, E. split; [exact H | apply Hp].
Qed.

Lemma rounds_neg (x : R) (f : spec_float) :
  rounds prec emax x f -> x < 0 ->
  exists m1 l1 E, rounded_at prec emax (- x) m1 l1 E
                  /\ f = pack prec emax true (round_nearest_even m1 l1) E.
Proof.
  intros [[H _]|[[H _]|[_ (m & e & l & Hm & Hrep & Hen & ->)]]] Hx; try lra.
  destruct (rounded_at_intro (- x) m e l Hm Hrep Hen) as (m1 & l1 & E & H & Hp).
  exists m1, l1, E. split; [exact H | apply Hp].
Qed.

Lemma rounds_zero (f : spec_float) :
  rounds prec emax 0 f -> is_zero f = true.
Proof. intros [[_ H]|[[H _]|[H _]]]; [exact H | lra | lra]. Qed.

(** Rounding is monotone. *)
Theorem rounds_mono (x y : R) (f g : spec_float) :
  rounds prec emax x f -> rounds prec emax y g -> x <= y -> SFleb f g = true.
Proof.
  intros Hf Hg Hle.
  destruct (Rtotal_order x 0) as [Hx|[Hx|Hx]];
  destruct (Rtotal_order y 0) as [Hy|[Hy|Hy]]; try lra.
  - destruct (rounds_neg x f Hf Hx) as (m1 & l1 & E & H & ->).
    destruct (rounds_neg y g Hg Hy) as (m1' & l1' & E' & H' & ->).
    refine (proj2 (pack_le _ _ _ _ (rounded_at_good _ _ _ _ H')
                     (rounded_at_good _ _ _ _ H) _)).
    apply (rounded_at_mono (- y) (- x)); try assumption. lra.
  - destruct (rounds_neg x f Hf Hx) as (m1 & l1 & E & H & ->).
    subst y. apply rounds_zero in Hg. destruct g; try discriminate.
    destruct (pack_cases _ _ (rounded_at_good _ _ _ _ H) true)
      as [-> | [-> | (p & e & -> & _)]]; reflexivity.
  - destruct (rounds_neg x f Hf Hx) as (m1 & l1 & E & H & ->).
    destruct (rounds_pos y g Hg Hy) as (m1' & l1' & E' & H' & ->).
    destruct (pack_cases _ _ (rounded_at_good _ _ _ _ H) true)
      as [-> | [-> | (p & e & -> & _)]];
    destruct (pack_cases _ _ (rounded_at_good _ _ _ _ H') false)
      as [-> | [-> | (p' & e' & -> & _)]]; reflexivity.
  - subst x y. apply rounds_zero in Hf, Hg.
    destruct f; try discriminate. destruct g; try discriminate. reflexivity.
  - subst x. apply rounds_zero in Hf. destruct f; try discriminate.
    destruct (rounds_pos y g Hg Hy) as (m1' & l1' & E' & H' & ->).
    destruct (pack_cases _ _ (rounded_at_good _ _ _ _ H') false)
      as [-> | [-> | (p' & e' & -> & _)]]; reflexivity.
  - destruct (rounds_pos x f Hf Hx) as (m1 & l1 & E & H & ->).
    destruct (rounds_pos y g Hg Hy) as (m1' & l1' & E' & H' & ->).
    refine (proj1 (pack_le _ _ _ _ (rounded_at_good _ _ _ _ H)
                     (rounded_at_good _ _ _ _ H') _)).
    now apply (rounded_at_mono x y).
Qed.

(** A real other than zero has one rounding. *)
Theorem rounds_unique (x : R) (f g : spec_float) :
  rounds prec emax x f -> rounds prec emax x g -> x <> 0 -> f = g.
Proof.
  intros Hf Hg Hx.
  destruct (Rtotal_order x 0) as [Hx'|[Hx'|Hx']]; [|contradiction|].
  - destruct (rounds_neg x f Hf Hx') as (m1 & l1 & E & H & ->).
    destruct (rounds_neg x g Hg Hx') as (m1' & l1' & E' & H' & ->).
    destruct (rounded_at_unique _ _ _ _ _ _ _ H H') as (-> & -> & ->).
    reflexivity.
  - destruct (rounds_pos x f Hf Hx') as (m1 & l1 & E & H & ->).
    destruct (rounds_pos x g Hg Hx') as (m1' & l1' & E' & H' & ->).
    destruct (rounded_at_unique _ _ _ _ _ _ _ H H') as (-> & -> & ->).
    reflexivity.
Qed.

(** The result of a rounding is a float of the format. *)
Theorem rounds_valid (x : R) (f : spec_float) :
  rounds prec emax x f -> in_format prec emax f.
Proof.
  intros Hf. destruct (Rtotal_order x 0) as [Hx|[Hx|Hx]].
  - destruct (rounds_neg x f Hf Hx) as (m1 & l1 & E & H & ->).
    destruct (pack_cases _ _ (rounded_at_good _ _ _ _ H) true)
      as [-> | [-> | (p & e & -> & Hb & _)]]; split; try reflexivity. exact Hb.
  - subst x. apply rounds_zero in Hf. destruct f; try discriminate.
    split; reflexivity.
  - destruct (rounds_pos x f Hf Hx) as (m1 & l1 & E & H & ->).
    destruct (pack_cases _ _ (rounded_at_good _ _ _ _ H) false)
      as [-> | [-> | (p & e & -> & Hb & _)]]; split; try reflexivity. exact Hb.
Qed.

End Rounding.

Local Open Scope Z_scope.

(** * Floating point: the operations round the exact result *)

Section Operations.
Variables prec emax : Z.
Hypothesis Hprec : 0 < prec.
Hypothesis Hmax : prec < emax.

Local Notation "'fexp'" := (SpecFloat.fexp prec emax).
Local Notation "'emin'" := (SpecFloat.emin prec emax).
Local Notation "'canonical'" := (canonical_mantissa prec emax).

Lemma emin_le_0 : emin <= 0.
Proof. unfold SpecFloat.emin. lia. Qed.

Lemma shl_align_spec (mx : positive) (ex ex' : Z) :
  snd (shl_align mx ex ex') = Z.min ex ex'
  /\ Zpos (fst (shl_align mx ex ex')) = Zpos mx * 2 ^ (ex - Z.min ex ex').
Proof.
  unfold shl_align. destruct (ex' - ex) as [|d|d] eqn:Hd; cbn [fst snd].
  - split; [lia|]. replace (ex - Z.min ex ex') with 0 by lia. lia.
  - split; [lia|]. replace (ex - Z.min ex ex') with 0 by lia. lia.
  - split; [lia|]. change (Pos.iter xO mx d) with (shift_pos d mx).
    rewrite shift_pos_correct. change (Z.pow_pos 2 d) with (2 ^ Zpos d).
    replace (ex - Z.min ex ex') with (Zpos d) by lia. lia.
Qed.

Local Open Scope R_scope.

Lemma shl_value (mz mx ex ez : Z) :
  mz = (mx * 2 ^ (ex - ez))%Z -> (ez <= ex)%Z ->
  IZR mz * bpow ez = IZR mx * bpow ex.
Proof.
  intros -> Hle. rewrite mult_IZR, <- bpow_IZR by lia.
  rewrite Rmult_assoc, <- bpow_plus. f_equal. f_equal. lia.
Qed.

Lemma SF2R_finite (s : bool) (p : positive) (e : Z) :
  SF2R (S754_finite s p e)
  = if s then - (IZR (Zpos p) * bpow e) else IZR (Zpos p) * bpow e.
Proof. destruct s; cbn [SF2R cond_Zopp]; [|reflexivity]. rewrite opp_IZR. lra. Qed.

Lemma pos_value_gt_0 (p : positive) (e : Z) : 0 < IZR (Zpos p) * bpow e.
Proof.
  apply Rmult_lt_0_compat; [apply IZR_lt; lia | apply bpow_gt_0].
Qed.

(** A positive or negative real given by an exact mantissa with enough
    digits is rounded by [binary_round_aux]. *)
Lemma rounds_intro (s : bool) (m : positive) (e : Z) :
  enough prec emax (Zpos m) e ->
  rounds prec emax (SF2R (S754_finite s m e))
    (binary_round_aux prec emax s (Zpos m) e loc_Exact).
Proof.
  intros Hen. rewrite SF2R_finite. pose proof (pos_value_gt_0 m e) as Hpos.
  destruct s.
  - right; right. split; [lra|]. exists (Zpos m), e, loc_Exact.
    repeat split; try lia; try assumption. rewrite Ropp_involutive.
    apply rep_exact.
  - right; left. split; [lra|]. exists (Zpos m), e, loc_Exact.
    repeat split; try lia; try assumption. apply rep_exact.
Qed.

Lemma binary_round_rounds (s : bool) (m : positive) (e : Z) :
  rounds prec emax (SF2R (S754_finite s m e)) (binary_round prec emax s m e).
Proof.
  unfold binary_round.
  pose proof (shl_align_spec m e (fexp (Zpos (digits2_pos m) + e))) as [He Hm].
  destruct (shl_align m e (fexp (Zpos (digits2_pos m) + e))) as [mz ez].
  cbn [fst snd] in He, Hm.
  assert (Hv : IZR (Zpos mz) * bpow ez = IZR (Zpos m) * bpow e).
  { apply shl_value; [rewrite Hm; now subst ez | lia]. }
  assert (Hen : enough prec emax (Zpos mz) ez).
  { unfold enough. rewrite Hm, Zdigits2_mul_pow by lia.
    replace (Zdigits2 (Zpos m) + (e - Z.min e (fexp (Zpos (digits2_pos m) + e))) + ez)%Z
      with (Zpos (digits2_pos m) + e)%Z by (cbn [Zdigits2]; lia).
    lia. }
  replace (SF2R (S754_finite s m e)) with (SF2R (S754_finite s mz ez))
    by (rewrite !SF2R_finite, Hv; reflexivity).
  now apply rounds_intro.
Qed.

Theorem binary_normalize_rounds (m e : Z) (szero : bool) :
  rounds prec emax (IZR m * bpow e) (binary_normalize prec emax m e szero).
Proof.
  destruct m as [|p|p]; cbn [binary_normalize].
  - left. split; [lra | reflexivity].
  - apply (binary_round_rounds false).
  - replace (IZR (Zneg p) * bpow e) with (SF2R (S754_finite true p e))
      by reflexivity.
    apply binary_round_rounds.
Qed.

Lemma bra_format (s : bool) (p : positive) (e : Z) :
  SpecFloat.bounded prec emax p e = true ->
  binary_round_aux prec emax s (Zpos p) e loc_Exact = S754_finite s p e.
Proof.
  intros Hb. apply andb_prop in Hb as [Hc He].
  apply (canonical_iff prec emax) in Hc.
  unfold binary_round_aux.
  rewrite (shr_fexp_noshift prec emax (Zpos p) e) by lia.
  cbn [shr_record_of_loc shr_m loc_of_shr_record round_nearest_even].
  rewrite (shr_fexp_noshift prec emax (Zpos p) e) by lia.
  cbn [shr_record_of_loc shr_m]. now rewrite He.
Qed.

(** A float of the format is the rounding of its own value. *)
Theorem format_rounds (f : spec_float) :
  valid_binary prec emax f = true -> is_finite f = true ->
  rounds prec emax (SF2R f) f.
Proof.
  destruct f as [s|s| |s p e]; try discriminate; intros Hv _.
  - left. split; reflexivity.
  - cbn [valid_binary] in Hv. rewrite <- (bra_format s p e Hv) at 2.
    apply rounds_intro. unfold enough.
    apply andb_prop in Hv as [Hc _]. apply (canonical_iff prec emax) in Hc. lia.
Qed.

(** Rounding a number of the format gives that number. *)
Theorem rounds_format (f g : spec_float) :
  valid_binary prec emax g = true -> is_finite g = true -> is_zero g = false ->
  rounds prec emax (SF2R g) f -> f = g.
Proof.
  intros Hv Hf Hz Hr.
  apply (rounds_unique prec emax Hprec (SF2R g)); try assumption.
  - now apply format_rounds.
  - destruct g as [s|s| |s p e]; try discriminate.
    rewrite SF2R_finite. pose proof (pos_value_gt_0 p e). destruct s; lra.
Qed.

Lemma canonical_no_overflow (p : positive) (e : Z) :
  canonical p e = true -> IZR (Zpos p) * bpow e < bpow emax ->
  (e <= emax - prec)%Z.
Proof.
  intros Hc Hlt. apply (canonical_iff prec emax) in Hc.
  pose proof (digits_bpow (Zpos p) ltac:(lia)) as [Hlo _].
  pose proof (bpow_gt_0 e).
  assert (bpow (Zdigits2 (Zpos p) - 1 + e) < bpow emax).
  { rewrite bpow_plus. apply Rle_lt_trans with (IZR (Zpos p) * bpow e); [|lra].
    apply Rmult_le_compat_r; lra. }
  apply bpow_lt_inv in H0. unfold SpecFloat.fexp, SpecFloat.emin in Hc. lia.
Qed.

Lemma rounded_at_exact (x : R) (m1 E k e0 : Z) (l1 : location) :
  rounded_at prec emax x m1 l1 E ->
  x = IZR k * bpow e0 -> (0 < k < 2 ^ prec)%Z -> (emin <= e0)%Z ->
  l1 = loc_Exact /\ IZR m1 * bpow E = x.
Proof.
  intros (Hm & Hrep & HE & Hhi & Hlo) Hx [Hk0 Hk1] He0.
  assert (HEe : (E <= e0)%Z).
  { destruct Hlo as [->|Hlo]; [exact He0|].
    assert (x < bpow (prec + e0)).
    { rewrite Hx, bpow_plus. pose proof (bpow_gt_0 e0).
      apply Rmult_lt_compat_r; [lra|]. rewrite bpow_IZR by lia.
      now apply IZR_lt. }
    assert (bpow (E + prec - 1) < bpow (prec + e0)) by lra.
    apply bpow_lt_inv in H0. lia. }
  assert (Hint : x * bpow (- E) = IZR (k * 2 ^ (e0 - E))).
  { rewrite Hx, mult_IZR, <- bpow_IZR by lia.
    rewrite Rmult_assoc, <- bpow_plus. reflexivity. }
  destruct (rep_int _ _ _ _ _ Hrep Hint) as [-> ->].
  split; [reflexivity|]. rewrite <- Hint.
  rewrite Rmult_assoc, (Rmult_comm (bpow (- E))), bpow_mul_opp. lra.
Qed.

Lemma pack_exact (s : bool) (x : R) (m1 E k e0 : Z) (l1 : location) :
  rounded_at prec emax x m1 l1 E ->
  x = IZR k * bpow e0 -> (0 < k < 2 ^ prec)%Z ->
  (emin <= e0 <= emax - prec)%Z ->
  exists p e, pack prec emax s (round_nearest_even m1 l1) E = S754_finite s p e
              /\ SpecFloat.bounded prec emax p e = true
              /\ IZR (Zpos p) * bpow e = x.
Proof.
  intros Hat Hx Hk He0.
  destruct (rounded_at_exact x m1 E k e0 l1 Hat Hx Hk ltac:(lia)) as [-> Hv].
  pose proof (rounded_at_good prec emax Hprec _ _ _ _ Hat) as Hg.
  cbn [round_nearest_even] in *.
  assert (Hxpos : 0 < x).
  { rewrite Hx. apply Rmult_lt_0_compat; [apply IZR_lt; lia | apply bpow_gt_0]. }
  assert (Hxlt : x < bpow emax).
  { apply Rlt_le_trans with (bpow (prec + e0)).
    - rewrite Hx, bpow_plus. pose proof (bpow_gt_0 e0).
      apply Rmult_lt_compat_r; [lra|]. rewrite bpow_IZR by lia.
      apply IZR_lt. lia.
    - apply bpow_le. lia. }
  destruct (pack_spec prec emax Hprec m1 E Hg)
    as [[Hz _]|[_ (p & e & Hc & Hpv & Hp)]].
  - exfalso. subst m1. lra.
  - exists p, e. rewrite Hp.
    assert (He : (e <= emax - prec)%Z).
    { apply (canonical_no_overflow p); [exact Hc | lra]. }
    apply Z.leb_le in He. rewrite He. split; [reflexivity|].
    split; [unfold SpecFloat.bounded; now rewrite Hc, He | lra].
Qed.

(** A number [k * 2^e0] with fewer than [prec] digits, within the exponent
    range, is rounded to itself. *)
Theorem rounds_exact (x : R) (f : spec_float) (k e0 : Z) :
  rounds prec emax x f ->
  x = IZR k * bpow e0 -> k <> 0%Z -> (Z.abs k < 2 ^ prec)%Z ->
  (emin <= e0 <= emax - prec)%Z ->
  SF2R f = x /\ valid_binary prec emax f = true
  /\ is_finite f = true /\ is_zero f = false.
Proof.
  intros Hr Hx Hk0 Hk He0. pose proof (bpow_gt_0 e0) as Hb.
  destruct (Z.lt_trichotomy k 0) as [Hneg|[->|Hpos]]; [|contradiction|].
  - assert (Hxn : x < 0).
    { rewrite Hx. apply IZR_lt in Hneg. nra. }
    destruct (rounds_neg prec emax Hprec x f Hr Hxn) as (m1 & l1 & E & Hat & ->).
    destruct (pack_exact true (- x) m1 E (- k) e0 l1 Hat) as (p & e & -> & Hbd & Hv);
      [rewrite Hx, opp_IZR; lra | lia | lia |].
    rewrite SF2R_finite, Hv. repeat split; try assumption; try reflexivity. lra.
  - assert (Hxp : 0 < x).
    { rewrite Hx. apply IZR_lt in Hpos. nra. }
    destruct (rounds_pos prec emax Hprec x f Hr Hxp) as (m1 & l1 & E & Hat & ->).
    destruct (pack_exact false x m1 E k e0 l1 Hat) as (p & e & -> & Hbd & Hv);
      [exact Hx | lia | lia |].
    rewrite SF2R_finite, Hv. repeat split; try assumption; reflexivity.
Qed.

(** Two numbers of the format with the same value and neither zero are
    the same float. *)
Theorem format_inj (f g : spec_float) :
  valid_binary prec emax f = true -> is_finite f = true ->
  valid_binary prec emax g = true -> is_finite g = true -> is_zero g = false ->
  SF2R f = SF2R g -> f = g.
Proof.
  intros Hvf Hff Hvg Hfg Hzg Heq.
  apply rounds_format; try assumption. rewrite <- Heq. now apply format_rounds.
Qed.

Lemma digits_mul (a b : Z) :
  (0 < a)%Z -> (0 < b)%Z -> (Zdigits2 a + Zdigits2 b - 1 <= Zdigits2 (a * b))%Z.
Proof.
  intros Ha Hb.
  pose proof (Zdigits2_bounds a Ha) as [Hla _].
  pose proof (Zdigits2_bounds b Hb) as [Hlb _].
  pose proof (Zdigits2_bounds (a * b) ltac:(lia)) as [_ Hh].
  pose proof (Zdigits2_gt_0 a Ha). pose proof (Zdigits2_gt_0 b Hb).
  assert (Hm : (2 ^ (Zdigits2 a - 1 + (Zdigits2 b - 1)) <= a * b)%Z).
  { rewrite Z.pow_add_r by lia.
    pose proof (Z.pow_pos_nonneg 2 (Zdigits2 a - 1) ltac:(lia) ltac:(lia)).
    pose proof (Z.pow_pos_nonneg 2 (Zdigits2 b - 1) ltac:(lia) ltac:(lia)).
    nia. }
  destruct (Z_le_gt_dec (Zdigits2 a + Zdigits2 b - 1) (Zdigits2 (a * b)))
    as [|Hgt]; [assumption|]. exfalso.
  assert ((2 ^ Zdigits2 (a * b) <= 2 ^ (Zdigits2 a - 1 + (Zdigits2 b - 1)))%Z).
  { apply Z.pow_le_mono_r; [lia|]. lia. }
  lia.
Qed.

Lemma mul_enough (mx my : positive) (ex ey : Z) :
  canonical mx ex = true -> canonical my ey = true ->
  enough prec emax (Zpos (mx * my)) (ex + ey).
Proof.
  intros Hx Hy. apply (canonical_iff prec emax) in Hx, Hy.
  pose proof (digits_mul (Zpos mx) (Zpos my) ltac:(lia) ltac:(lia)) as Hd.
  change (Zpos mx * Zpos my)%Z with (Zpos (mx * my)) in Hd.
  pose proof (Zdigits2_gt_0 (Zpos mx) ltac:(lia)).
  pose proof (Zdigits2_gt_0 (Zpos my) ltac:(lia)).
  pose proof emin_le_0.
  unfold enough, SpecFloat.fexp in *. lia.
Qed.

Lemma cond_Zopp_xorb (sx sy : bool) (a b : Z) :
  (cond_Zopp sx a * cond_Zopp sy b)%Z = cond_Zopp (xorb sx sy) (a * b).
Proof. destruct sx, sy; cbn; lia. Qed.

Theorem SFmul_rounds (x y : spec_float) :
  valid_binary prec emax x = true -> is_finite x = true ->
  valid_binary prec emax y = true -> is_finite y = true ->
  rounds prec emax (SF2R x * SF2R y) (SFmul prec emax x y).
Proof.
  intros Hvx Hfx Hvy Hfy.
  destruct x as [sx|sx| |sx mx ex]; try discriminate;
  destruct y as [sy|sy| |sy my ey]; try discriminate;
  try (left; split; [cbn [SF2R]; lra | reflexivity]).
  cbn [SFmul valid_binary] in *.
  apply andb_prop in Hvx as [Hcx _]. apply andb_prop in Hvy as [Hcy _].
  replace (SF2R (S754_finite sx mx ex) * SF2R (S754_finite sy my ey))
    with (SF2R (S754_finite (xorb sx sy) (mx * my) (ex + ey))).
  - apply rounds_intro. now apply mul_enough.
  - cbn [SF2R]. rewrite bpow_plus.
    change (Zpos (mx * my)) with (Zpos mx * Zpos my)%Z.
    rewrite <- cond_Zopp_xorb, mult_IZR. lra.
Qed.

Lemma aligned_value (s : bool) (m : positive) (e ez : Z) :
  (ez <= e)%Z -> ez = Z.min e ez ->
  IZR (cond_Zopp s (Zpos (fst (shl_align m e ez)))) * bpow ez
  = SF2R (S754_finite s m e).
Proof.
  intros Hle Hmin. destruct (shl_align_spec m e ez) as [_ Hm].
  rewrite <- Hmin in Hm. cbn [SF2R].
  destruct s; cbn [cond_Zopp]; rewrite ?opp_IZR.
  - rewrite !Ropp_mult_distr_l_reverse. f_equal. now apply shl_value.
  - now apply shl_value.
Qed.

Theorem SFadd_rounds (x y : spec_float) :
  valid_binary prec emax x = true -> is_finite x = true ->
  valid_binary prec emax y = true -> is_finite y = true ->
  rounds prec emax (SF2R x + SF2R y) (SFadd prec emax x y).
Proof.
  intros Hvx Hfx Hvy Hfy.
  destruct x as [sx|sx| |sx mx ex]; try discriminate;
  destruct y as [sy|sy| |sy my ey]; try discriminate.
  - left. split; [cbn [SF2R]; lra|]. destruct sx, sy; reflexivity.
  - cbn [SFadd]. replace (SF2R (S754_zero sx) + SF2R (S754_finite sy my ey))
      with (SF2R (S754_finite sy my ey)) by (cbn [SF2R]; lra).
    now apply format_rounds.
  - cbn [SFadd]. replace (SF2R (S754_finite sx mx ex) + SF2R (S754_zero sy))
      with (SF2R (S754_finite sx mx ex)) by (cbn [SF2R]; lra).
    now apply format_rounds.
  - cbn [SFadd]. change IntDef.Z.min with Z.min.
    rewrite <- (aligned_value sx mx ex (Z.min ex ey)) by lia.
    rewrite <- (aligned_value sy my ey (Z.min ex ey)) by lia.
    rewrite <- Rmult_plus_distr_r, <- plus_IZR.
    apply binary_normalize_rounds.
Qed.

Theorem SFsub_rounds (x y : spec_float) :
  valid_binary prec emax x = true -> is_finite x = true ->
  valid_binary prec emax y = true -> is_finite y = true ->
  rounds prec emax (SF2R x - SF2R y) (SFsub prec emax x y).
Proof.
  intros Hvx Hfx Hvy Hfy.
  destruct x as [sx|sx| |sx mx ex]; try discriminate;
  destruct y as [sy|sy| |sy my ey]; try discriminate.
  - left. split; [cbn [SF2R]; lra|]. destruct sx, sy; reflexivity.
  - cbn [SFsub]. replace (SF2R (S754_zero sx) - SF2R (S754_finite sy my ey))
      with (SF2R (S754_finite (negb sy) my ey))
      by (rewrite !SF2R_finite; cbn [SF2R]; destruct sy; cbn [negb]; lra).
    now apply format_rounds.
  - cbn [SFsub]. replace (SF2R (S754_finite sx mx ex) - SF2R (S754_zero sy))
      with (SF2R (S754_finite sx mx ex)) by (cbn [SF2R]; lra).
    now apply format_rounds.
  - cbn [SFsub]. change IntDef.Z.min with Z.min.
    rewrite <- (aligned_value sx mx ex (Z.min ex ey)) by lia.
    rewrite <- (aligned_value sy my ey (Z.min ex ey)) by lia.
    rewrite <- Rmult_minus_distr_r, <- minus_IZR.
    apply binary_normalize_rounds.
Qed.

End Operations.

Local Open Scope Z_scope.

(** * Floating point: integers *)

Section Integers.
Variables prec emax : Z.
Hypothesis Hprec : 0 < prec.
Hypothesis Hmax : prec < emax.

Local Open Scope R_scope.

(** The rounding of an integer with fewer than [prec] digits. *)
Lemma rounds_int (k : Z) (f : spec_float) :
  rounds prec emax (IZR k) f -> (Z.abs k < 2 ^ prec)%Z ->
  SF2R f = IZR k /\ valid_binary prec emax f = true
  /\ is_finite f = true /\ is_zero f = (k =? 0)%Z.
Proof.
  intros Hr Hk. destruct (Z.eq_dec k 0) as [->|Hne].
  - apply rounds_zero in Hr. destruct f; try discriminate.
    repeat split; reflexivity.
  - destruct (rounds_exact prec emax Hprec Hmax (IZR k) f k 0 Hr)
      as (Hv & Hval & Hfin & Hz); try assumption.
    + rewrite bpow_0. lra.
    + unfold SpecFloat.emin. lia.
    + repeat split; try assumption. rewrite Hz. symmetry. now apply Z.eqb_neq.
Qed.

Lemma normalize_rounds_int (k : Z) :
  rounds prec emax (IZR k) (binary_normalize prec emax k 0 false).
Proof.
  pose proof (binary_normalize_rounds prec emax k 0 false) as H.
  rewrite bpow_0, Rmult_1_r in H. exact H.
Qed.

Lemma normalize_int (k : Z) :
  (Z.abs k < 2 ^ prec)%Z ->
  SF2R (binary_normalize prec emax k 0 false) = IZR k
  /\ valid_binary prec emax (binary_normalize prec emax k 0 false) = true
  /\ is_finite (binary_normalize prec emax k 0 false) = true
  /\ is_zero (binary_normalize prec emax k 0 false) = (k =? 0)%Z.
Proof. intros Hk. apply rounds_int; [apply normalize_rounds_int | exact Hk]. Qed.

(** A float that rounds an integer other than zero is the conversion of
    that integer. *)
Lemma rounds_int_normalize (k : Z) (f : spec_float) :
  rounds prec emax (IZR k) f -> k <> 0%Z ->
  f = binary_normalize prec emax k 0 false.
Proof.
  intros Hr Hk. apply (rounds_unique prec emax Hprec (IZR k)); try assumption.
  - apply normalize_rounds_int.
  - intros H. apply eq_IZR in H. contradiction.
Qed.

(** A sum that cancels is [+0], unless both operands are [-0]. *)
Lemma SFadd_cancel (x y : spec_float) :
  is_finite x = true -> is_finite y = true ->
  SF2R x + SF2R y = 0 -> y <> S754_zero true ->
  SFadd prec emax x y = S754_zero false.
Proof.
  intros Hfx Hfy Hsum Hy.
  destruct x as [sx|sx| |sx mx ex]; try discriminate;
  destruct y as [sy|sy| |sy my ey]; try discriminate.
  - destruct sx, sy; try reflexivity. contradiction.
  - exfalso. cbn [SF2R] in Hsum. rewrite Rplus_0_l in Hsum.
    fold (SF2R (S754_finite sy my ey)) in Hsum. rewrite SF2R_finite in Hsum.
    pose proof (pos_value_gt_0 my ey). destruct sy; lra.
  - exfalso. cbn [SF2R] in Hsum. rewrite Rplus_0_r in Hsum.
    fold (SF2R (S754_finite sx mx ex)) in Hsum. rewrite SF2R_finite in Hsum.
    pose proof (pos_value_gt_0 mx ex). destruct sx; lra.
  - cbn [SFadd]. change IntDef.Z.min with Z.min.
    rewrite <- (aligned_value sx mx ex (Z.min ex ey)) in Hsum by lia.
    rewrite <- (aligned_value sy my ey (Z.min ex ey)) in Hsum by lia.
    rewrite <- Rmult_plus_distr_r, <- plus_IZR in Hsum.
    pose proof (bpow_gt_0 (Z.min ex ey)).
    apply Rmult_integral in Hsum as [Hs|Hs]; [|lra].
    apply eq_IZR in Hs. rewrite Hs. reflexivity.
Qed.

(** [v * s + i] computed in the format on integers that all have fewer
    than [prec] digits: the result is the conversion of the exact
    integer. *)
Theorem mul_add_int (v s i : Z) :
  (Z.abs v < 2 ^ prec)%Z -> (Z.abs s < 2 ^ prec)%Z -> (Z.abs i < 2 ^ prec)%Z ->
  (Z.abs (v * s) < 2 ^ prec)%Z ->
  SFadd prec emax
    (SFmul prec emax (binary_normalize prec emax v 0 false)
                     (binary_normalize prec emax s 0 false))
    (binary_normalize prec emax i 0 false)
  = binary_normalize prec emax (v * s + i) 0 false.
Proof.
  intros Hv Hs Hi Hvs.
  destruct (normalize_int v Hv) as (Vv & Vval & Vfin & _).
  destruct (normalize_int s Hs) as (Sv & Sval & Sfin & _).
  destruct (normalize_int i Hi) as (Iv & Ival & Ifin & Iz).
  pose proof (SFmul_rounds prec emax Hprec Hmax _ _ Vval Vfin Sval Sfin) as Hm.
  rewrite Vv, Sv, <- mult_IZR in Hm.
  destruct (rounds_int _ _ Hm Hvs) as (Mv & Mval & Mfin & _).
  pose proof (SFadd_rounds prec emax _ _ Mval Mfin Ival Ifin) as Ha.
  destruct (Z.eq_dec (v * s + i) 0) as [Hz|Hnz].
  - rewrite Hz. cbn [binary_normalize]. apply SFadd_cancel; try assumption.
    + rewrite Mv, Iv, <- plus_IZR, Hz. reflexivity.
    + intros Hc. rewrite Hc in Iz. cbn in Iz. destruct i; discriminate.
  - rewrite Mv, Iv, <- plus_IZR in Ha. now apply rounds_int_normalize.
Qed.

End Integers.

(** ** binary32 and binary64 *)

Lemma prec32_pos : 0 < prec32.
Proof. reflexivity. Qed.

Lemma prec32_lt_emax32 : prec32 < emax32.
Proof. reflexivity. Qed.

Lemma prec64_pos : 0 < prec64.
Proof. reflexivity. Qed.

Lemma prec64_lt_emax64 : prec64 < emax64.
Proof. reflexivity. Qed.

(** A Python float that is an integer below [2^53] in magnitude becomes,
    next to a [float32] array, the [float32] nearest to that integer. *)
Lemma f32_of_f64_lit (s : Z) :
  Z.abs s < 2 ^ 53 -> f32_of_f64 (f64_lit s) = f32_lit s.
Proof.
  intros Hs. destruct (Z.eq_dec s 0) as [->|Hne]; [reflexivity|].
  destruct (normalize_int prec64 emax64 prec64_pos prec64_lt_emax64 s Hs)
    as (Hv & _ & Hfin & Hz).
  fold (f64_lit s) in Hv, Hfin, Hz.
  destruct (f64_lit s) as [sg|sg| |sg p e]; try discriminate.
  - cbn in Hz. symmetry in Hz. apply Z.eqb_eq in Hz. contradiction.
  - cbn [f32_of_f64]. unfold f32_lit.
    apply (rounds_int_normalize prec32 emax32 prec32_pos); [|exact Hne].
    rewrite <- Hv. apply binary_round_rounds.
Qed.

(** The rescaling of an integer sample by an integer slope and intercept
    is exact as long as the sample, the slope, the intercept and the
    product stay below [2^24] in magnitude. *)
Lemma rescale_int (s i v : Z) :
  Z.abs v < 2 ^ 24 -> Z.abs s < 2 ^ 24 -> Z.abs i < 2 ^ 24 ->
  Z.abs (s * v) < 2 ^ 24 ->
  rescale (f64_lit s) (f64_lit i) (f32_of_int v) = f32_of_int (s * v + i).
Proof.
  intros Hv Hs Hi Hsv. unfold rescale.
  rewrite !f32_of_f64_lit by lia. unfold f32_lit, f32_of_int.
  rewrite (mul_add_int prec32 emax32 prec32_pos prec32_lt_emax32 v s i);
    try assumption.
  - f_equal. lia.
  - now rewrite Z.mul_comm.
Qed.

Local Open Scope Z_scope.

(** * Floating point: comparison and division *)

Section Compare.
Variables prec emax : Z.
Hypothesis Hprec : 0 < prec.

Local Notation "'canonical'" := (canonical_mantissa prec emax).

Local Open Scope R_scope.

Lemma canonical_compare (p p' : positive) (e e' : Z) :
  canonical p e = true -> canonical p' e' = true ->
  match (e ?= e')%Z with
  | Eq => Pos.compare_cont Eq p p'
  | Lt => Lt
  | Gt => Gt
  end
  = (if Rlt_dec (IZR (Zpos p) * bpow e) (IZR (Zpos p') * bpow e') then Lt
     else if Rlt_dec (IZR (Zpos p') * bpow e') (IZR (Zpos p) * bpow e) then Gt
     else Eq).
Proof.
  intros Hc Hc'.
  destruct (Z.compare_spec e e') as [->|Hlt|Hgt].
  - change (Pos.compare_cont Eq p p') with (p ?= p')%positive.
    pose proof (bpow_gt_0 e').
    destruct (Pos.compare_spec p p') as [->|Hp|Hp].
    + destruct (Rlt_dec _ _); [lra|]. reflexivity.
    + assert (IZR (Zpos p) < IZR (Zpos p')) by (apply IZR_lt; lia).
      destruct (Rlt_dec _ _) as [|Hn]; [reflexivity|]. exfalso. apply Hn. nra.
    + assert (IZR (Zpos p') < IZR (Zpos p)) by (apply IZR_lt; lia).
      destruct (Rlt_dec _ _) as [Hn|_]; [exfalso; nra|].
      destruct (Rlt_dec _ _) as [|Hn]; [reflexivity|]. exfalso. apply Hn. nra.
  - pose proof (canonical_lt prec emax _ _ _ _ Hc Hc' Hlt).
    destruct (Rlt_dec _ _); [reflexivity | contradiction].
  - pose proof (canonical_lt prec emax _ _ _ _ Hc' Hc Hgt).
    destruct (Rlt_dec _ _); [lra|].
    destruct (Rlt_dec _ _); [reflexivity | contradiction].
Qed.

(** The comparison of two finite numbers of the format is the comparison
    of their values. *)
Theorem SFcompare_finite (x y : spec_float) :
  valid_binary prec emax x = true -> is_finite x = true ->
  valid_binary prec emax y = true -> is_finite y = true ->
  SFcompare x y
  = Some (if Rlt_dec (SF2R x) (SF2R y) then Lt
          else if Rlt_dec (SF2R y) (SF2R x) then Gt else Eq).
Proof.
  intros Hvx Hfx Hvy Hfy.
  destruct x as [sx|sx| |sx mx ex]; try discriminate;
  destruct y as [sy|sy| |sy my ey]; try discriminate;
  rewrite ?SF2R_finite; cbn [SFcompare SF2R].
  - destruct (Rlt_dec 0 0); [lra|]. reflexivity.
  - pose proof (pos_value_gt_0 my ey). destruct sy.
    + destruct (Rlt_dec _ _); [lra|]. destruct (Rlt_dec _ _); [reflexivity|lra].
    + destruct (Rlt_dec _ _); [reflexivity|lra].
  - pose proof (pos_value_gt_0 mx ex). destruct sx.
    + destruct (Rlt_dec _ _); [reflexivity|lra].
    + destruct (Rlt_dec _ _); [lra|]. destruct (Rlt_dec _ _); [reflexivity|lra].
  - cbn [valid_binary] in Hvx, Hvy.
    apply andb_prop in Hvx as [Hcx _]. apply andb_prop in Hvy as [Hcy _].
    pose proof (pos_value_gt_0 mx ex). pose proof (pos_value_gt_0 my ey).
    destruct sx, sy.
    + pose proof (canonical_compare mx my ex ey Hcx Hcy) as Hc.
      f_equal.
      destruct (ex ?= ey)%Z eqn:He.
      * rewrite Hc.
        repeat (destruct (Rlt_dec _ _)); try reflexivity; exfalso; lra.
      * repeat (destruct (Rlt_dec _ _)); try discriminate; try reflexivity;
          exfalso; lra.
      * repeat (destruct (Rlt_dec _ _)); try discriminate; try reflexivity;
          exfalso; lra.
    + destruct (Rlt_dec _ _); [reflexivity|lra].
    + destruct (Rlt_dec _ _); [lra|]. destruct (Rlt_dec _ _); [reflexivity|lra].
    + f_equal. apply canonical_compare; assumption.
Qed.

Lemma SFltb_lt (x y : spec_float) :
  valid_binary prec emax x = true -> is_finite x = true ->
  valid_binary prec emax y = true -> is_finite y = true ->
  SFltb x y = true <-> SF2R x < SF2R y.
Proof.
  intros Hvx Hfx Hvy Hfy. unfold SFltb.
  rewrite (SFcompare_finite x y Hvx Hfx Hvy Hfy).
  repeat (destruct (Rlt_dec _ _)); split; intros; try discriminate;
    try reflexivity; try lra.
Qed.

Lemma SFleb_le (x y : spec_float) :
  valid_binary prec emax x = true -> is_finite x = true ->
  valid_binary prec emax y = true -> is_finite y = true ->
  SFleb x y = true <-> SF2R x <= SF2R y.
Proof.
  intros Hvx Hfx Hvy Hfy. unfold SFleb.
  rewrite (SFcompare_finite x y Hvx Hfx Hvy Hfy).
  repeat (destruct (Rlt_dec _ _)); split; intros; try discriminate;
    try reflexivity; try lra.
Qed.

Lemma SFeqb_eq (x y : spec_float) :
  valid_binary prec emax x = true -> is_finite x = true ->
  valid_binary prec emax y = true -> is_finite y = true ->
  SFeqb x y = true <-> SF2R x = SF2R y.
Proof.
  intros Hvx Hfx Hvy Hfy. unfold SFeqb.
  rewrite (SFcompare_finite x y Hvx Hfx Hvy Hfy).
  repeat (destruct (Rlt_dec _ _)); split; intros; try discriminate;
    try reflexivity; try lra.
Qed.

End Compare.

Section Division.
Variables prec emax : Z.
Hypothesis Hprec : 0 < prec.

Local Notation "'fexp'" := (SpecFloat.fexp prec emax).
Local Notation "'emin'" := (SpecFloat.emin prec emax).

Local Open Scope R_scope.

Lemma new_location_spec (nb k : Z) :
  (0 <= k < nb)%Z -> loc_frac (IZR k / IZR nb) (new_location nb k).
Proof.
  intros [Hk0 Hk1].
  assert (HN : 0 < IZR nb) by (apply IZR_lt; lia).
  assert (HK : 0 <= IZR k) by (apply IZR_le; lia).
  set (f := IZR k / IZR nb).
  assert (Hf : f * IZR nb = IZR k) by (unfold f; field; lra).
  assert (Hlt : forall a b : Z, (a < b)%Z -> IZR a < IZR b) by (intros; now apply IZR_lt).
  assert (Hup : forall c, c * IZR nb < IZR k -> c < f).
  { intros c Hc. apply Rmult_lt_reg_r with (IZR nb); lra. }
  assert (Hdn : forall c, IZR k < c * IZR nb -> f < c).
  { intros c Hc. apply Rmult_lt_reg_r with (IZR nb); lra. }
  unfold new_location, new_location_even, new_location_odd.
  change IntDef.Z.even with Z.even.
  destruct (Z.eqb_spec k 0) as [->|Hne].
  - assert (f = 0) by (unfold f, Rdiv; apply Rmult_0_l).
    destruct (Z.even nb); cbn; assumption.
  - assert (0 < IZR k) by (apply IZR_lt; lia).
    apply Hlt in Hk1.
    assert (Hkz : (k =? 0)%Z = false) by now apply Z.eqb_neq.
    destruct (Z.even nb) eqn:Hev; rewrite Hkz.
    + destruct (Z.compare_spec (2 * k) nb) as [He|Hl|Hg]; cbn [loc_frac].
      * apply (f_equal IZR) in He. rewrite mult_IZR in He.
        apply Rmult_eq_reg_r with (IZR nb); lra.
      * apply Hlt in Hl. rewrite mult_IZR in Hl.
        split; [apply Hup | apply Hdn]; lra.
      * apply Hlt in Hg. rewrite mult_IZR in Hg.
        split; [apply Hup | apply Hdn]; lra.
    + assert (Hodd : Z.odd nb = true) by (rewrite <- Z.negb_even, Hev; reflexivity).
      apply Z.odd_spec in Hodd as [j Hj].
      destruct (Z.compare_spec (2 * k + 1) nb) as [He|Hl|Hg]; cbn [loc_frac].
      * assert (Hl : (2 * k < nb)%Z) by lia.
        apply Hlt in Hl. rewrite mult_IZR in Hl.
        split; [apply Hup | apply Hdn]; lra.
      * assert (Hl' : (2 * k < nb)%Z) by lia.
        apply Hlt in Hl'. rewrite mult_IZR in Hl'.
        split; [apply Hup | apply Hdn]; lra.
      * assert (Hg' : (nb < 2 * k)%Z) by lia.
        apply Hlt in Hg'. rewrite mult_IZR in Hg'.
        split; [apply Hup | apply Hdn]; lra.
Qed.

Lemma digits_ge_pow (q k : Z) : (0 <= k)%Z -> (2 ^ k <= q)%Z -> (k + 1 <= Zdigits2 q)%Z.
Proof.
  intros Hk Hq.
  assert (Hp : (0 < 2 ^ k)%Z) by (apply Z.pow_pos_nonneg; lia).
  rewrite <- (Zdigits2_unique (2 ^ k) (k + 1)).
  - apply Zdigits2_le; lia.
  - lia.
  - replace (k + 1 - 1)%Z with k by lia. split; [lia|].
    replace (k + 1)%Z with (Z.succ k) by lia. rewrite Z.pow_succ_r by lia. lia.
Qed.

Lemma SFdiv_core_spec (m1 m2 : positive) (e1 e2 : Z) :
  (0 <= fst (fst (SFdiv_core_binary prec emax (Zpos m1) e1 (Zpos m2) e2)))%Z
  /\ rep (IZR (Zpos m1) * bpow e1 / (IZR (Zpos m2) * bpow e2))
       (fst (fst (SFdiv_core_binary prec emax (Zpos m1) e1 (Zpos m2) e2)))
       (snd (fst (SFdiv_core_binary prec emax (Zpos m1) e1 (Zpos m2) e2)))
       (snd (SFdiv_core_binary prec emax (Zpos m1) e1 (Zpos m2) e2))
  /\ enough prec emax
       (fst (fst (SFdiv_core_binary prec emax (Zpos m1) e1 (Zpos m2) e2)))
       (snd (fst (SFdiv_core_binary prec emax (Zpos m1) e1 (Zpos m2) e2))).
Proof.
  unfold SFdiv_core_binary.
  change IntDef.Z.min with Z.min. change IntDef.Z.shiftl with Z.shiftl.
  change IntDef.Z.div_eucl with Z.div_eucl.
  set (d1 := Zdigits2 (Zpos m1)). set (d2 := Zdigits2 (Zpos m2)).
  set (e' := Z.min (fexp (d1 + e1 - (d2 + e2))) (e1 - e2)).
  set (s := (e1 - e2 - e')%Z).
  assert (Hs : (0 <= s)%Z) by (unfold s, e'; lia).
  set (m' := match s with
             | 0%Z => Zpos m1
             | Zpos _ => Z.shiftl (Zpos m1) s
             | Zneg _ => 0%Z
             end).
  assert (Hm' : m' = (Zpos m1 * 2 ^ s)%Z).
  { unfold m'. destruct s as [|p|p] eqn:Hsp; [lia | | lia].
    rewrite Z.shiftl_mul_pow2 by lia. reflexivity. }
  assert (Hpow : (0 < 2 ^ s)%Z) by (apply Z.pow_pos_nonneg; lia).
  pose proof (Z_div_mod m' (Zpos m2) ltac:(lia)) as Hdm.
  destruct (Z.div_eucl m' (Zpos m2)) as [q r]. destruct Hdm as [Heq Hr].
  cbn [fst snd].
  assert (Hq : (0 <= q)%Z) by nia.
  split; [exact Hq|]. split.
  - unfold rep.
    replace (IZR (Zpos m1) * bpow e1 / (IZR (Zpos m2) * bpow e2) * bpow (- e')
             - IZR q) with (IZR r / IZR (Zpos m2)).
    { now apply new_location_spec. }
    assert (Hb1 : bpow e1 = bpow s * bpow e2 * bpow e').
    { rewrite <- !bpow_plus. f_equal. unfold s. lia. }
    assert (Hbs : IZR (Zpos m1) * bpow s = IZR (Zpos m2) * IZR q + IZR r).
    { rewrite bpow_IZR by lia. rewrite <- !mult_IZR, <- plus_IZR, <- Hm'.
      now rewrite Heq. }
    pose proof (bpow_gt_0 e2). pose proof (bpow_gt_0 e').
    assert (0 < IZR (Zpos m2)) by (apply IZR_lt; lia).
    rewrite Hb1, bpow_opp.
    replace (IZR (Zpos m1) * (bpow s * bpow e2 * bpow e'))
      with ((IZR (Zpos m2) * IZR q + IZR r) * bpow e2 * bpow e')
      by (rewrite <- Hbs; ring).
    field. repeat split; lra.
  - unfold enough.
    pose proof (fexp_ge_emin prec emax (Zdigits2 q + e')) as Hge.
    destruct (Z_le_gt_dec e' emin) as [Hle|Hgt]; [lia|].
    assert (HF : (e' <= d1 + e1 - (d2 + e2) - prec)%Z).
    { unfold e', SpecFloat.fexp in *. lia. }
    pose proof (Zdigits2_bounds (Zpos m1) ltac:(lia)) as [Hl1 _].
    pose proof (Zdigits2_bounds (Zpos m2) ltac:(lia)) as [_ Hh2].
    fold d1 in Hl1. fold d2 in Hh2.
    pose proof (Zdigits2_gt_0 (Zpos m1) ltac:(lia)) as Hd1. fold d1 in Hd1.
    pose proof (Zdigits2_gt_0 (Zpos m2) ltac:(lia)) as Hd2. fold d2 in Hd2.
    set (k := (d1 - 1 + s - d2)%Z).
    assert (Hk : (0 <= k)%Z) by (unfold k, s; lia).
    assert (Hqk : (2 ^ k <= q)%Z).
    { assert (H1 : (2 ^ (d1 - 1 + s) <= m')%Z).
      { rewrite Hm', Z.pow_add_r by lia. nia. }
      assert (H2 : (2 ^ (d1 - 1 + s) = 2 ^ k * 2 ^ d2)%Z).
      { rewrite <- Z.pow_add_r by lia. f_equal. unfold k. lia. }
      assert (Hpk : (0 < 2 ^ k)%Z) by (apply Z.pow_pos_nonneg; lia).
      assert (Hpd : (0 < 2 ^ d2)%Z) by (apply Z.pow_pos_nonneg; lia).
      nia. }
    pose proof (digits_ge_pow q k Hk Hqk) as Hdq.
    unfold SpecFloat.fexp. unfold k, s in Hdq. lia.
Qed.

Lemma Rdiv_opp_opp (a b : R) : 0 < b -> - a / - b = a / b.
Proof. intros. field. lra. Qed.

Lemma Rdiv_opp_l (a b : R) : 0 < b -> - a / b = - (a / b).
Proof. intros. field. lra. Qed.

Lemma Rdiv_opp_r (a b : R) : 0 < b -> a / - b = - (a / b).
Proof. intros. field. lra. Qed.

(** Division rounds the exact quotient; the operands need not be
    canonical. *)
Theorem SFdiv_rounds (x y : spec_float) :
  is_finite x = true -> is_finite y = true -> is_zero y = false ->
  rounds prec emax (SF2R x / SF2R y) (SFdiv prec emax x y).
Proof.
  intros Hfx Hfy Hzy.
  destruct x as [sx|sx| |sx mx ex]; try discriminate;
  destruct y as [sy|sy| |sy my ey]; try discriminate.
  - left. split; [cbn [SF2R]; unfold Rdiv; lra | reflexivity].
  - cbn [SFdiv].
    pose proof (SFdiv_core_spec mx my ex ey) as (Hq & Hrep & Hen).
    destruct (SFdiv_core_binary prec emax (Zpos mx) ex (Zpos my) ey)
      as [[q e'] l]. cbn [fst snd] in *.
    pose proof (pos_value_gt_0 mx ex) as Hx. pose proof (pos_value_gt_0 my ey) as Hy.
    assert (Hpos : 0 < IZR (Zpos mx) * bpow ex / (IZR (Zpos my) * bpow ey)).
    { apply Rdiv_lt_0_compat; assumption. }
    rewrite !SF2R_finite.
    destruct sx, sy; cbn [xorb].
    + right; left.
      rewrite Rdiv_opp_opp by exact Hy.
      split; [exact Hpos|]. exists q, e', l. repeat split; assumption.
    + right; right.
      rewrite Rdiv_opp_l by exact Hy.
      split; [lra|]. exists q, e', l. rewrite Ropp_involutive.
      repeat split; assumption.
    + right; right.
      rewrite Rdiv_opp_r by exact Hy.
      split; [lra|]. exists q, e', l. rewrite Ropp_involutive.
      repeat split; assumption.
    + right; left. split; [exact Hpos|]. exists q, e', l.
      repeat split; assumption.
Qed.

End Division.

Local Open Scope Z_scope.

(** * Floating point: bounds kept by rounding, and conversions to integers *)

Section Between.
Variables prec emax : Z.
Hypothesis Hprec : 0 < prec.
Hypothesis Hmax : prec < emax.

Local Open Scope R_scope.

Lemma SFleb_finite_l (x f : spec_float) :
  is_finite x = true -> SFleb x f = true -> f <> S754_infinity true /\ is_nan f = false.
Proof.
  intros Hx H. split.
  - intros Hf. subst f. destruct x; try discriminate; cbn in H; discriminate.
  - destruct f; try reflexivity. destruct x; discriminate.
Qed.

Lemma SFleb_finite_r (f y : spec_float) :
  is_finite y = true -> SFleb f y = true -> f <> S754_infinity false.
Proof.
  intros Hy H Hf. subst f. destruct y; try discriminate; cbn in H; discriminate.
Qed.

(** Rounding keeps a number between two integers of the format. *)
Theorem rounds_between (x : R) (f : spec_float) (lo hi : Z) :
  rounds prec emax x f -> IZR lo <= x <= IZR hi ->
  (Z.abs lo < 2 ^ prec)%Z -> (Z.abs hi < 2 ^ prec)%Z ->
  is_finite f = true /\ valid_binary prec emax f = true
  /\ IZR lo <= SF2R f <= IZR hi.
Proof.
  intros Hr [Hlo Hhi] Hl Hh.
  destruct (normalize_int prec emax Hprec Hmax lo Hl) as (Lv & Lval & Lfin & _).
  destruct (normalize_int prec emax Hprec Hmax hi Hh) as (Hv & Hval & Hfin & _).
  pose proof (rounds_mono prec emax Hprec _ _ _ _
                (normalize_rounds_int prec emax lo) Hr Hlo) as H1.
  pose proof (rounds_mono prec emax Hprec _ _ _ _
                Hr (normalize_rounds_int prec emax hi) Hhi) as H2.
  destruct (rounds_valid prec emax Hprec x f Hr) as [_ Hvalid].
  destruct (SFleb_finite_l _ _ Lfin H1) as [Hn1 Hn2].
  pose proof (SFleb_finite_r _ _ Hfin H2) as Hn3.
  assert (Hf : is_finite f = true).
  { destruct f as [s|[|]| |s m e]; try reflexivity; try discriminate; congruence. }
  split; [exact Hf|]. split; [exact Hvalid|].
  apply (SFleb_le prec emax) in H1; try assumption.
  apply (SFleb_le prec emax) in H2; try assumption.
  lra.
Qed.

End Between.

Section ToInteger.
Local Open Scope R_scope.

Lemma floor_div_bounds (a : Z) (k : positive) :
  IZR (a / 2 ^ Zpos k) <= IZR a * bpow (Zneg k) < IZR (a / 2 ^ Zpos k) + 1.
Proof.
  assert (Hp : (0 < 2 ^ Zpos k)%Z) by (apply Z.pow_pos_nonneg; lia).
  pose proof (Z.div_mod a (2 ^ Zpos k) ltac:(lia)) as Hdm.
  pose proof (Z.mod_pos_bound a (2 ^ Zpos k) Hp) as [Hr0 Hr1].
  set (q := (a / 2 ^ Zpos k)%Z) in *. set (r := (a mod 2 ^ Zpos k)%Z) in *.
  set (P := IZR (2 ^ Zpos k)).
  assert (HP : 0 < P) by (apply IZR_lt; exact Hp).
  assert (Hb : bpow (Zneg k) = / P).
  { change (Zneg k) with (- Zpos k)%Z. rewrite bpow_opp, bpow_IZR by lia.
    reflexivity. }
  assert (Ha : IZR a = P * IZR q + IZR r).
  { unfold P. rewrite <- mult_IZR, <- plus_IZR. now rewrite <- Hdm. }
  apply IZR_le in Hr0. apply IZR_lt in Hr1. fold P in Hr1.
  rewrite Hb. set (x := IZR a * / P).
  assert (Hx : x * P = IZR a) by (unfold x; field; lra).
  split.
  - apply Rmult_le_reg_r with P; lra.
  - apply Rmult_lt_reg_r with P; lra.
Qed.

Lemma shiftl_value (m : positive) (e : Z) :
  (0 <= e)%Z -> IZR (Z.shiftl (Zpos m) e) = IZR (Zpos m) * bpow e.
Proof.
  intros He. rewrite Z.shiftl_mul_pow2 by exact He.
  now rewrite mult_IZR, bpow_IZR.
Qed.

(** The magnitude that [trunc_float] computes is the integer part of the
    magnitude of the float. *)
Lemma trunc_magnitude (m : positive) (e : Z) :
  let t := match e with
           | Zneg k => Z.shiftr (Zpos m) (Zpos k)
           | _ => Z.shiftl (Zpos m) e
           end in
  IZR t <= IZR (Zpos m) * bpow e < IZR t + 1.
Proof.
  destruct e as [|p|k]; cbn zeta.
  - rewrite shiftl_value by lia. lra.
  - rewrite shiftl_value by lia. lra.
  - rewrite Z.shiftr_div_pow2 by lia. apply floor_div_bounds.
Qed.

Lemma trunc_float_bounds (x : spec_float) :
  is_finite x = true ->
  (0 <= SF2R x -> IZR (trunc_float x) <= SF2R x < IZR (trunc_float x) + 1)
  /\ (SF2R x <= 0 -> IZR (trunc_float x) - 1 < SF2R x <= IZR (trunc_float x)).
Proof.
  destruct x as [s|s| |s m e]; try discriminate; intros _.
  - cbn [trunc_float SF2R]. split; intros; lra.
  - pose proof (trunc_magnitude m e) as H. cbn zeta in H.
    pose proof (pos_value_gt_0 m e) as Hpos.
    rewrite SF2R_finite. unfold trunc_float.
    destruct s; cbn [cond_Zopp]; rewrite ?opp_IZR; split; intros; lra.
Qed.

(** Truncation keeps integer bounds on the side away from zero. *)
Lemma trunc_float_le (x : spec_float) (n : Z) :
  is_finite x = true -> SF2R x <= IZR n -> (n <= 0)%Z -> (trunc_float x <= n)%Z.
Proof.
  intros Hf Hx Hn. destruct (trunc_float_bounds x Hf) as [_ H].
  apply IZR_le in Hn. destruct (H ltac:(lra)) as [H1 _].
  assert (IZR (trunc_float x) < IZR n + 1) by lra.
  rewrite <- plus_IZR in H0. apply lt_IZR in H0. lia.
Qed.

Lemma trunc_float_ge (x : spec_float) (n : Z) :
  is_finite x = true -> IZR n <= SF2R x -> (0 <= n)%Z -> (n <= trunc_float x)%Z.
Proof.
  intros Hf Hx Hn. destruct (trunc_float_bounds x Hf) as [H _].
  apply IZR_le in Hn. destruct (H ltac:(lra)) as [_ H1].
  assert (IZR n < IZR (trunc_float x) + 1) by lra.
  rewrite <- plus_IZR in H0. apply lt_IZR in H0. lia.
Qed.

Lemma trunc_float_mono (x y : spec_float) :
  is_finite x = true -> is_finite y = true ->
  0 <= SF2R x <= SF2R y -> (trunc_float x <= trunc_float y)%Z.
Proof.
  intros Hx Hy [H0 Hle].
  destruct (trunc_float_bounds x Hx) as [Hbx _].
  destruct (trunc_float_bounds y Hy) as [Hby _].
  specialize (Hbx H0). specialize (Hby ltac:(lra)).
  assert (IZR (trunc_float x) < IZR (trunc_float y) + 1) by lra.
  rewrite <- plus_IZR in H. apply lt_IZR in H. lia.
Qed.

(** [round_half_even] is within a half of the number it rounds. *)
Lemma round_half_even_bounds (m : positive) (e : Z) :
  IZR (round_half_even m e) - / 2 <= IZR (Zpos m) * bpow e
  <= IZR (round_half_even m e) + / 2.
Proof.
  unfold round_half_even. destruct e as [|p|k].
  - rewrite shiftl_value by lia. lra.
  - rewrite shiftl_value by lia. lra.
  - pose proof (floor_div_bounds (Zpos m) k) as Hq.
    rewrite Z.shiftr_div_pow2 by lia.
    set (q := (Zpos m / 2 ^ Zpos k)%Z) in *.
    rewrite Z.shiftl_mul_pow2 by lia.
    rewrite Z.shiftl_mul_pow2 by lia. rewrite Z.mul_1_l.
    assert (Hp : (0 < 2 ^ (Zpos k - 1))%Z) by (apply Z.pow_pos_nonneg; lia).
    assert (H2 : (2 ^ Zpos k = 2 * 2 ^ (Zpos k - 1))%Z).
    { replace (Zpos k) with (Z.succ (Zpos k - 1)) at 1 by lia.
      apply Z.pow_succ_r. lia. }
    set (P := IZR (2 ^ Zpos k)).
    assert (HP : 0 < P) by (apply IZR_lt; lia).
    assert (Hb : bpow (Zneg k) = / P).
    { change (Zneg k) with (- Zpos k)%Z. rewrite bpow_opp, bpow_IZR by lia.
      reflexivity. }
    set (x := IZR (Zpos m) * bpow (Zneg k)) in *.
    assert (Hx : x * P = IZR (Zpos m)) by (unfold x; rewrite Hb; field; lra).
    assert (Hhalf : IZR (2 ^ (Zpos k - 1)) = P / 2).
    { unfold P. rewrite H2, mult_IZR. lra. }
    assert (Hcmp : forall c, c * P <= IZR (Zpos m) -> c <= x).
    { intros c Hc. apply Rmult_le_reg_r with P; lra. }
    assert (Hcmp' : forall c, IZR (Zpos m) <= c * P -> x <= c).
    { intros c Hc. apply Rmult_le_reg_r with P; lra. }
    destruct (Z.compare_spec (Zpos m - q * 2 ^ Zpos k) (2 ^ (Zpos k - 1)))
      as [He|Hl|Hg].
    + assert (Hm : IZR (Zpos m) = IZR q * P + P / 2).
      { rewrite <- Hhalf. unfold P. rewrite <- mult_IZR, <- plus_IZR.
        f_equal. lia. }
      destruct (Z.even q); rewrite ?plus_IZR; split;
        try apply Hcmp; try apply Hcmp'; lra.
    + assert (Hm : IZR (Zpos m) <= IZR q * P + P / 2).
      { rewrite <- Hhalf. unfold P. rewrite <- mult_IZR, <- plus_IZR.
        apply IZR_le. lia. }
      split; [lra | apply Hcmp'; lra].
    + assert (Hm : IZR q * P + P / 2 <= IZR (Zpos m)).
      { rewrite <- Hhalf. unfold P. rewrite <- mult_IZR, <- plus_IZR.
        apply IZR_le. lia. }
      rewrite plus_IZR. split; [apply Hcmp|]; lra.
Qed.

(** [round_half_even] returns the nearest integer, the even one at a
    tie. *)
Lemma round_half_even_nearest (m : positive) (e : Z) :
  nearest_even (IZR (Zpos m) * bpow e) (round_half_even m e).
Proof.
  unfold nearest_even, round_half_even. destruct e as [|p|k].
  - rewrite shiftl_value by lia.
    replace (IZR (Zpos m) * bpow 0 - IZR (Zpos m) * bpow 0) with 0 by lra.
    rewrite Rabs_R0. split; [lra | intros; lra].
  - rewrite shiftl_value by lia.
    replace (IZR (Zpos m) * bpow (Zpos p) - IZR (Zpos m) * bpow (Zpos p))
      with 0 by lra.
    rewrite Rabs_R0. split; [lra | intros; lra].
  - pose proof (floor_div_bounds (Zpos m) k) as Hq.
    rewrite Z.shiftr_div_pow2 by lia.
    set (q := (Zpos m / 2 ^ Zpos k)%Z) in *.
    rewrite Z.shiftl_mul_pow2 by lia.
    rewrite Z.shiftl_mul_pow2 by lia. rewrite Z.mul_1_l.
    assert (Hp : (0 < 2 ^ (Zpos k - 1))%Z) by (apply Z.pow_pos_nonneg; lia).
    assert (H2 : (2 ^ Zpos k = 2 * 2 ^ (Zpos k - 1))%Z).
    { replace (Zpos k) with (Z.succ (Zpos k - 1)) at 1 by lia.
      apply Z.pow_succ_r. lia. }
    set (P := IZR (2 ^ Zpos k)).
    assert (HP : 0 < P) by (apply IZR_lt; lia).
    assert (Hb : bpow (Zneg k) = / P).
    { change (Zneg k) with (- Zpos k)%Z. rewrite bpow_opp, bpow_IZR by lia.
      reflexivity. }
    set (x := IZR (Zpos m) * bpow (Zneg k)) in *.
    assert (Hx : x * P = IZR (Zpos m)) by (unfold x; rewrite Hb; field; lra).
    assert (Hhalf : IZR (2 ^ (Zpos k - 1)) = P / 2).
    { unfold P. rewrite H2, mult_IZR. lra. }
    assert (Hlt : forall c, c * P < IZR (Zpos m) -> c < x).
    { intros c Hc. apply Rmult_lt_reg_r with P; lra. }
    assert (Hlt' : forall c, IZR (Zpos m) < c * P -> x < c).
    { intros c Hc. apply Rmult_lt_reg_r with P; lra. }
    assert (Heq : forall c, IZR (Zpos m) = c * P -> x = c).
    { intros c Hc. apply Rmult_eq_reg_r with P; lra. }
    destruct (Z.compare_spec (Zpos m - q * 2 ^ Zpos k) (2 ^ (Zpos k - 1)))
      as [He|Hl|Hg].
    + assert (Hm : IZR (Zpos m) = (IZR q + / 2) * P).
      { replace ((IZR q + / 2) * P) with (IZR q * P + P / 2) by lra.
        rewrite <- Hhalf. unfold P. rewrite <- mult_IZR, <- plus_IZR.
        f_equal. lia. }
      apply Heq in Hm.
      destruct (Z.even q) eqn:Hev.
      * split; [|intros _; exact Hev].
        rewrite Hm. replace (IZR q - (IZR q + / 2)) with (- / 2) by lra.
        rewrite Rabs_Ropp, Rabs_pos_eq; lra.
      * split.
        -- rewrite plus_IZR, Hm.
           replace (IZR q + 1 - (IZR q + / 2)) with (/ 2) by lra.
           rewrite Rabs_pos_eq; lra.
        -- intros _. replace (q + 1)%Z with (Z.succ q) by lia.
           rewrite Z.even_succ, <- Z.negb_even, Hev. reflexivity.
    + assert (Hm : IZR (Zpos m) < (IZR q + / 2) * P).
      { replace ((IZR q + / 2) * P) with (IZR q * P + P / 2) by lra.
        rewrite <- Hhalf. unfold P. rewrite <- mult_IZR, <- plus_IZR.
        apply IZR_lt. lia. }
      apply Hlt' in Hm.
      assert (Hr : Rabs (IZR q - x) = x - IZR q).
      { rewrite Rabs_left1; lra. }
      rewrite Hr. split; [lra | intros; lra].
    + assert (Hm : (IZR q + / 2) * P < IZR (Zpos m)).
      { replace ((IZR q + / 2) * P) with (IZR q * P + P / 2) by lra.
        rewrite <- Hhalf. unfold P. rewrite <- mult_IZR, <- plus_IZR.
        apply IZR_lt. lia. }
      apply Hlt in Hm. rewrite plus_IZR.
      assert (Hr : Rabs (IZR q + 1 - x) = IZR q + 1 - x).
      { rewrite Rabs_pos_eq; lra. }
      rewrite Hr. split; [lra | intros; lra].
Qed.

Lemma nearest_even_opp (x : R) (n : Z) :
  nearest_even x n -> nearest_even (- x) (- n).
Proof.
  intros [H1 H2].
  assert (Hr : Rabs (IZR (- n) - - x) = Rabs (IZR n - x)).
  { rewrite opp_IZR. replace (- IZR n - - x) with (- (IZR n - x)) by lra.
    apply Rabs_Ropp. }
  unfold nearest_even. rewrite Hr. split; [exact H1|].
  intros H. rewrite Z.even_opp. now apply H2.
Qed.

Lemma py_round_nearest (x : spec_float) (n : Z) :
  py_round x = Ok n -> nearest_even (SF2R x) n.
Proof.
  destruct x as [s|s| |s m e]; try discriminate; cbn [py_round].
  - intros [= <-]. cbn [SF2R]. unfold nearest_even.
    replace (IZR 0 - 0) with 0 by lra. rewrite Rabs_R0.
    split; [lra | intros; lra].
  - intros [= <-]. rewrite SF2R_finite.
    pose proof (round_half_even_nearest m e) as H.
    destruct s; cbn [cond_Zopp]; [now apply nearest_even_opp | exact H].
Qed.

Lemma Rabs_le_between (a b : R) : Rabs a <= b -> - b <= a <= b.
Proof.
  intros H. pose proof (Rle_abs a) as H1. pose proof (Rle_abs (- a)) as H2.
  rewrite Rabs_Ropp in H2. lra.
Qed.

(** The nearest integer, even at a tie, is unique. *)
Lemma nearest_even_unique (x : R) (n n' : Z) :
  nearest_even x n -> nearest_even x n' -> n = n'.
Proof.
  intros [H1 E1] [H2 E2].
  assert (Hd : (n' - 1 <= n <= n' + 1)%Z).
  { apply Rabs_le_between in H1, H2.
    assert (IZR n - IZR n' <= 1) by lra.
    assert (IZR n' - IZR n <= 1) by lra.
    rewrite <- minus_IZR in H, H0. apply le_IZR in H, H0. lia. }
  destruct (Z.eq_dec n n') as [|Hne]; [assumption|]. exfalso.
  assert (Hcase : n = (n' + 1)%Z \/ n = (n' - 1)%Z) by lia.
  assert (Ha : Rabs (IZR n - x) = / 2 /\ Rabs (IZR n' - x) = / 2).
  { apply Rabs_le_between in H1, H2.
    destruct Hcase as [-> | ->]; rewrite ?plus_IZR, ?minus_IZR in *.
    - assert (Hx : x = IZR n' + / 2) by lra. subst x.
      split; [rewrite Rabs_pos_eq; lra|].
      replace (IZR n' - (IZR n' + / 2)) with (- / 2) by lra.
      rewrite Rabs_Ropp, Rabs_pos_eq; lra.
    - assert (Hx : x = IZR n' - / 2) by lra. subst x.
      split; [|rewrite Rabs_pos_eq; lra].
      replace (IZR n' - 1 - (IZR n' - / 2)) with (- / 2) by lra.
      rewrite Rabs_Ropp, Rabs_pos_eq; lra. }
  destruct Ha as [A1 A2]. specialize (E1 A1). specialize (E2 A2).
  destruct Hcase as [-> | ->].
  - replace (n' + 1)%Z with (Z.succ n') in E1 by lia.
    rewrite Z.even_succ, <- Z.negb_even, E2 in E1. discriminate.
  - replace (n' - 1)%Z with (Z.pred n') in E1 by lia.
    rewrite Z.even_pred, <- Z.negb_even, E2 in E1. discriminate.
Qed.

Lemma py_round_bounds (x : spec_float) (n : Z) :
  py_round x = Ok n -> IZR n - / 2 <= SF2R x <= IZR n + / 2.
Proof.
  destruct x as [s|s| |s m e]; try discriminate; cbn [py_round].
  - intros [= <-]. cbn [SF2R]. lra.
  - intros [= <-]. rewrite SF2R_finite.
    pose proof (round_half_even_bounds m e).
    destruct s; cbn [cond_Zopp]; rewrite ?opp_IZR; lra.
Qed.

(** Rounding to an integer keeps integer bounds. *)
Lemma py_round_between (x : spec_float) (n lo hi : Z) :
  py_round x = Ok n -> IZR lo <= SF2R x <= IZR hi -> (lo <= n <= hi)%Z.
Proof.
  intros Hr [Hlo Hhi]. apply py_round_bounds in Hr.
  assert (H1 : IZR lo < IZR n + 1) by lra.
  assert (H2 : IZR n < IZR hi + 1) by lra.
  rewrite <- plus_IZR in H1, H2. apply lt_IZR in H1, H2. lia.
Qed.

Lemma py_round_finite (x : spec_float) :
  is_finite x = true -> exists n, py_round x = Ok n.
Proof. destruct x; try discriminate; intros _; eexists; reflexivity. Qed.

Lemma SF2R_int_exact (a : Z) : SF2R (int_exact a) = IZR a.
Proof.
  destruct a as [|p|p]; cbn [int_exact SF2R cond_Zopp]; rewrite ?bpow_0;
    try change (- Z.pos p)%Z with (Z.neg p); lra.
Qed.

Lemma int_exact_finite (a : Z) : is_finite (int_exact a) = true.
Proof. destruct a; reflexivity. Qed.

Lemma int_exact_nonzero (a : Z) : a <> 0%Z -> is_zero (int_exact a) = false.
Proof. destruct a; [contradiction | reflexivity | reflexivity]. Qed.

(** The quotient of two [int]s is the rounding of the exact quotient. *)
Lemma int_truediv_rounds (a b : Z) :
  b <> 0%Z ->
  rounds prec64 emax64 (IZR a / IZR b)
    (SFdiv prec64 emax64 (int_exact a) (int_exact b)).
Proof.
  intros Hb. rewrite <- (SF2R_int_exact a), <- (SF2R_int_exact b).
  apply SFdiv_rounds.
  - apply prec64_pos.
  - apply int_exact_finite.
  - apply int_exact_finite.
  - now apply int_exact_nonzero.
Qed.

(** A quotient [a / b] with [0 <= a <= b] is a float between 0 and 1. *)
Lemma int_truediv_unit (a b : Z) :
  (0 <= a <= b)%Z -> (0 < b)%Z ->
  exists f, int_truediv a b = Ok f
            /\ is_finite f = true /\ valid_binary prec64 emax64 f = true
            /\ 0 <= SF2R f <= 1.
Proof.
  intros Ha Hb. unfold int_truediv.
  replace (b =? 0)%Z with false by (symmetry; apply Z.eqb_neq; lia).
  pose proof (int_truediv_rounds a b ltac:(lia)) as Hr.
  destruct (rounds_between prec64 emax64 prec64_pos prec64_lt_emax64
              _ _ 0 1 Hr) as (Hf & Hv & Hbd).
  - assert (0 < IZR b) by (apply IZR_lt; lia).
    assert (0 <= IZR a <= IZR b) by (split; apply IZR_le; lia).
    split.
    + apply Rmult_le_reg_r with (IZR b); [lra|].
      unfold Rdiv. rewrite Rmult_assoc, Rinv_l by lra. lra.
    + apply Rmult_le_reg_r with (IZR b); [lra|].
      unfold Rdiv. rewrite Rmult_assoc, Rinv_l by lra. lra.
  - reflexivity.
  - reflexivity.
  - exists (SFdiv prec64 emax64 (int_exact a) (int_exact b)).
    destruct (SFdiv prec64 emax64 (int_exact a) (int_exact b));
      try discriminate; repeat split; try assumption; lra.
Qed.

(** [float(n)] is exact below [2^53]. *)
Lemma float_of_int_exact (n : Z) :
  (Z.abs n < 2 ^ 53)%Z ->
  exists f, float_of_int n = Ok f
            /\ is_finite f = true /\ valid_binary prec64 emax64 f = true
            /\ SF2R f = IZR n.
Proof.
  intros Hn. unfold float_of_int.
  destruct (normalize_int prec64 emax64 prec64_pos prec64_lt_emax64 n Hn)
    as (Hv & Hval & Hfin & _).
  exists (binary_normalize prec64 emax64 n 0 false).
  destruct (binary_normalize prec64 emax64 n 0 false); try discriminate;
    repeat split; assumption.
Qed.

End ToInteger.

Local Open Scope Z_scope.

(** * Volume assembly *)

Section StableSortFacts.
Context {T : Type}.
Variable key : T -> Q.

Let key_le (a b : T) : Prop := (key a <= key b)%Q.

Lemma Qlt_bool_true (a b : Q) : Qlt_bool a b = true -> (a < b)%Q.
Proof.
  unfold Qlt_bool. destruct (a ?= b)%Q eqn:E; try discriminate.
  intros _. now apply Qlt_alt.
Qed.

Lemma Qlt_bool_false (a b : Q) : Qlt_bool a b = false -> (b <= a)%Q.
Proof.
  unfold Qlt_bool. destruct (a ?= b)%Q eqn:E; try discriminate; intros _.
  - apply Qeq_alt in E. rewrite E. apply Qle_refl.
  - apply Qgt_alt in E. now apply Qlt_le_weak.
Qed.

Lemma insert_by_key_perm (x : T) (l : list T) :
  Permutation (x :: l) (insert_by_key key x l).
Proof.
  induction l as [|y l IH]; cbn; [reflexivity|].
  destruct (Qlt_bool (key y) (key x)); [|reflexivity].
  rewrite perm_swap. now constructor.
Qed.

Lemma sort_by_key_perm (l : list T) : Permutation l (sort_by_key key l).
Proof.
  induction l as [|x l IH]; cbn; [constructor|].
  rewrite <- insert_by_key_perm. now constructor.
Qed.

Lemma sort_by_key_length (l : list T) : length (sort_by_key key l) = length l.
Proof. symmetry. apply Permutation_length, sort_by_key_perm. Qed.

Lemma insert_by_key_sorted (x : T) (l : list T) :
  StronglySorted key_le l -> StronglySorted key_le (insert_by_key key x l).
Proof.
  induction 1 as [|y l Hs IH Hy]; cbn.
  - repeat constructor.
  - destruct (Qlt_bool (key y) (key x)) eqn:E.
    + constructor; [exact IH|].
      apply (Permutation_Forall (insert_by_key_perm x l)).
      constructor; [|exact Hy].
      apply Qlt_le_weak, Qlt_bool_true, E.
    + apply Qlt_bool_false in E.
      constructor; [now constructor|].
      constructor; [exact E|].
      eapply Forall_impl; [|exact Hy].
      intros z Hz. unfold key_le in *. eapply Qle_trans; eassumption.
Qed.

Lemma sort_by_key_sorted (l : list T) :
  StronglySorted key_le (sort_by_key key l).
Proof.
  induction l as [|x l IH]; cbn; [constructor|].
  now apply insert_by_key_sorted.
Qed.

Lemma insert_by_key_filter (q : Q) (x : T) (l : list T) :
  filter (fun t => Qeq_bool (key t) q) (insert_by_key key x l)
  = filter (fun t => Qeq_bool (key t) q) (x :: l).
Proof.
  induction l as [|y l IH]; [reflexivity|].
  cbn [insert_by_key]. destruct (Qlt_bool (key y) (key x)) eqn:E; [|reflexivity].
  cbn [filter] in *. rewrite IH.
  destruct (Qeq_bool (key x) q) eqn:Ex; [|reflexivity].
  destruct (Qeq_bool (key y) q) eqn:Ey; [|reflexivity].
  exfalso. apply Qlt_bool_true in E.
  apply Qeq_bool_iff in Ex, Ey. rewrite Ex, Ey in E.
  exact (Qlt_irrefl _ E).
Qed.

Lemma sort_by_key_stable (q : Q) (l : list T) :
  filter (fun t => Qeq_bool (key t) q) (sort_by_key key l)
  = filter (fun t => Qeq_bool (key t) q) l.
Proof.
  induction l as [|x l IH]; [reflexivity|].
  cbn [sort_by_key fold_right]. rewrite insert_by_key_filter.
  cbn [filter]. fold (sort_by_key key l). now rewrite IH.
Qed.

End StableSortFacts.

Lemma sf_same_eq (x y : spec_float) : sf_same x y = true -> x = y.
Proof.
  destruct x as [a|a| |a m e], y as [b|b| |b n f]; cbn; try discriminate;
    try reflexivity.
  - intros H. apply Bool.eqb_prop in H. now subst.
  - intros H. apply Bool.eqb_prop in H. now subst.
  - intros H. apply andb_prop in H. destruct H as [H He].
    apply andb_prop in H. destruct H as [Hs Hm].
    apply Bool.eqb_prop in Hs. apply Pos.eqb_eq in Hm. apply Z.eqb_eq in He.
    now subst.
Qed.

Lemma check_below_spec (P : Z -> bool) (n : nat) :
  check_below P n = true -> forall k, 0 <= k < Z.of_nat n -> P k = true.
Proof.
  induction n as [|n IH]; cbn [check_below]; intros H k Hk; [lia|].
  apply andb_prop in H. destruct H as [Hn Hrest].
  destruct (Z.eq_dec k (Z.of_nat n)) as [->|Hne]; [exact Hn|].
  apply IH; [exact Hrest | lia].
Qed.

(** With slope 2 and intercept -1000 every 16-bit sample [v], signed or
    unsigned, is stored as exactly [2 v - 1000]. *)
Lemma rescale_2_minus_1000 (v : Z) :
  -32768 <= v <= 65535 ->
  rescale (f64_lit 2) (f64_lit (-1000)) (f32_of_int v)
  = f32_of_int (2 * v - 1000).
Proof.
  intros Hv. rewrite rescale_int by lia. f_equal.
Qed.

Lemma list_set_app {A : Type} (done rest : list A) (y x : A) :
  list_set (done ++ y :: rest) (length done) x = done ++ x :: rest.
Proof. induction done as [|a done IH]; cbn; [reflexivity | now rewrite IH]. Qed.

Lemma rescaled_pixels_shape (ds : Dataset) :
  shape2 (rescaled_pixels ds) = shape2 (pixel_array ds).
Proof.
  unfold rescaled_pixels.
  destruct (RescaleIntercept ds), (RescaleSlope ds); reflexivity.
Qed.

Lemma rescaled_pixels_rows (ds : Dataset) :
  rows2 (rescaled_pixels ds)
  = map (map (stored_value ds)) (rows2 (pixel_array ds)).
Proof.
  unfold rescaled_pixels, stored_value.
  destruct (RescaleIntercept ds), (RescaleSlope ds); cbn [map2d rows2];
    try reflexivity.
  rewrite map_map. apply map_ext. intros row. now rewrite map_map.
Qed.

Lemma wf_rows_map {A B : Type} (f : A -> B) (r c : nat) (m : list (list A)) :
  wf_rows r c m -> wf_rows r c (map (map f) m).
Proof.
  intros [Hl Hr]. split; [now rewrite length_map|].
  apply Forall_map. eapply Forall_impl; [|exact Hr].
  intros row Hrow. now rewrite length_map.
Qed.

Lemma rescaled_pixels_wf (ds : Dataset) :
  wf_dataset ds -> wf2 (rescaled_pixels ds).
Proof.
  intros [_ Hwf]. unfold wf2 in *. rewrite rescaled_pixels_shape, rescaled_pixels_rows.
  now apply wf_rows_map.
Qed.

Lemma broadcast_rows_same (dst : nat * nat) (a : ndarray2 spec_float) :
  wf2 a -> shape2 a = dst -> broadcast_rows dst a = rows2 a.
Proof.
  intros Hwf <-. unfold broadcast_rows.
  transitivity
    (rows2 (tabulate2 (fst (shape2 a)) (snd (shape2 a))
              (fun i j => nth j (nth i (rows2 a) []) (S754_zero false)))).
  - f_equal. apply tabulate2_ext. intros i j Hi Hj. unfold get2.
    destruct (fst (shape2 a) =? 1)%nat eqn:E1;
      destruct (snd (shape2 a) =? 1)%nat eqn:E2;
      try apply Nat.eqb_eq in E1; try apply Nat.eqb_eq in E2;
      try (replace i with 0%nat by lia); try (replace j with 0%nat by lia);
      reflexivity.
  - symmetry. apply rows_tabulate. exact Hwf.
Qed.

Lemma fill_volume_ok (dss : list Dataset) :
  forall (done rest : list (list (list spec_float))) (z y x : nat),
  length rest = length dss -> (length done + length dss <= z)%nat ->
  Forall (fun ds => broadcastable (shape2 (rescaled_pixels ds)) (y, x) = true) dss ->
  fill_volume (length done) dss (mk3 (z, y, x) (done ++ rest))
  = Ok (mk3 (z, y, x)
          (done ++ map (fun ds => broadcast_rows (y, x) (rescaled_pixels ds)) dss)).
Proof.
  induction dss as [|ds dss IH]; intros done rest z y x Hrest Hz Hall.
  - destruct rest; [|discriminate]. reflexivity.
  - destruct rest as [|r0 rest]; [discriminate|].
    inversion Hall as [|? ? Hds Hall']; subst.
    cbn [fill_volume]. unfold setitem_axis0. cbn [shape3 planes3].
    replace (length done <? z)%nat with true
      by (symmetry; apply Nat.ltb_lt; cbn in Hz; lia).
    rewrite Hds. cbn [bind]. rewrite list_set_app.
    pose proof (IH (done ++ [broadcast_rows (y, x) (rescaled_pixels ds)]) rest
                  z y x) as IH'.
    rewrite length_app in IH'. cbn [length] in IH'.
    replace (length done + 1)%nat with (S (length done)) in IH' by lia.
    rewrite <- !app_assoc in IH'. cbn [app] in IH'.
    cbn [map]. apply IH'; [cbn in Hrest; lia | cbn in Hz; lia | exact Hall'].
Qed.

Lemma fill_volume_mismatch (dss : list Dataset) :
  forall (done rest : list (list (list spec_float))) (z y x : nat),
  length rest = length dss -> (length done + length dss <= z)%nat ->
  Exists (fun ds => broadcastable (shape2 (rescaled_pixels ds)) (y, x) = false) dss ->
  fill_volume (length done) dss (mk3 (z, y, x) (done ++ rest)) = Raise ValueError.
Proof.
  induction dss as [|ds dss IH]; intros done rest z y x Hrest Hz Hex.
  - inversion Hex.
  - destruct rest as [|r0 rest]; [discriminate|].
    cbn [fill_volume]. unfold setitem_axis0. cbn [shape3 planes3].
    replace (length done <? z)%nat with true
      by (symmetry; apply Nat.ltb_lt; cbn in Hz; lia).
    destruct (broadcastable (shape2 (rescaled_pixels ds)) (y, x)) eqn:Hds;
      [|reflexivity].
    cbn [bind]. rewrite list_set_app.
    inversion Hex as [? ? Hbad | ? ? Hex']; subst; [congruence|].
    pose proof (IH (done ++ [broadcast_rows (y, x) (rescaled_pixels ds)]) rest
                  z y x) as IH'.
    rewrite length_app in IH'. cbn [length] in IH'.
    replace (length done + 1)%nat with (S (length done)) in IH' by lia.
    rewrite <- !app_assoc in IH'. cbn [app] in IH'.
    apply IH'; [cbn in Hrest; lia | cbn in Hz; lia | exact Hex'].
Qed.

Lemma readable_nonempty (files : list (option Dataset)) :
  readable files <> [] -> files <> [].
Proof. destruct files; [intros H; now contradiction H | discriminate]. Qed.

Lemma load_dicom_series_unfold (files : list (option Dataset))
  (first : Dataset) (rest : list Dataset) :
  sort_by_key sort_key (readable files) = first :: rest ->
  load_dicom_series files
  = (volume <- fill_volume 0 (first :: rest)
                 (np_zeros (length (first :: rest)) (Rows first) (Columns first)) ;;
     Ok (volume, first :: rest)).
Proof.
  intros Hsort. unfold load_dicom_series. rewrite Hsort.
  destruct files as [|f files]; [discriminate Hsort | reflexivity].
Qed.

(** C4. For every non-empty collection of readable records of identical
    dimensions, [load_dicom_series] returns a volume whose [Z] is the
    number of readable records, together with the records in ascending
    order of their key, records of equal key staying in the order of the
    input.  The key of a record is its instance number if it has one,
    else the third coordinate of its position if it has one, else 0.  The
    slice at position [i] holds the samples of the [i]-th sorted record
    times its slope plus its intercept, computed in [float32], or the
    samples themselves when the record lacks one of the two.  With slope
    2 and intercept -1000 a 16-bit sample [v] is stored as the [float32]
    number whose value is exactly [2 v - 1000]. *)
Theorem load_dicom_series_assembles
  (files : list (option Dataset)) (r c : nat) :
  readable files <> [] ->
  Forall (fun ds => wf_dataset ds /\ Rows ds = r /\ Columns ds = c)
    (readable files) ->
  exists volume,
    load_dicom_series files
    = Ok (volume, sort_by_key sort_key (readable files))
    /\ shape3 volume = (length (readable files), r, c)
    /\ Permutation (readable files) (sort_by_key sort_key (readable files))
    /\ StronglySorted (fun a b => (sort_key a <= sort_key b)%Q)
         (sort_by_key sort_key (readable files))
    /\ (forall q,
          filter (fun ds => Qeq_bool (sort_key ds) q)
            (sort_by_key sort_key (readable files))
          = filter (fun ds => Qeq_bool (sort_key ds) q) (readable files))
    /\ planes3 volume
       = map (fun ds => map (map (stored_value ds)) (rows2 (pixel_array ds)))
           (sort_by_key sort_key (readable files))
    /\ (forall v, -32768 <= v <= 65535 ->
          rescale (f64_lit 2) (f64_lit (-1000)) (f32_of_int v)
          = f32_of_int (2 * v - 1000))
    /\ (forall ds n, InstanceNumber ds = Some n -> sort_key ds = inject_Z n)
    /\ (forall ds x y z, InstanceNumber ds = None ->
          ImagePositionPatient ds = Some (x, y, z) -> sort_key ds = z)
    /\ (forall ds, InstanceNumber ds = None ->
          ImagePositionPatient ds = None -> sort_key ds = 0%Q)
    /\ (forall ds slope intercept v,
          RescaleSlope ds = Some slope ->
          RescaleIntercept ds = Some intercept ->
          stored_value ds v
          = SFadd prec32 emax32
              (SFmul prec32 emax32 (f32_of_int v) (f32_of_f64 slope))
              (f32_of_f64 intercept))
    /\ (forall ds v,
          RescaleSlope ds = None \/ RescaleIntercept ds = None ->
          stored_value ds v = f32_of_int v)
    /\ (forall v, Z.abs v < 2 ^ 24 -> SF2R (f32_of_int v) = IZR v)
    /\ (forall v, -32768 <= v <= 65535 ->
          SF2R (rescale (f64_lit 2) (f64_lit (-1000)) (f32_of_int v))
          = IZR (2 * v - 1000)).
Proof.
  intros Hne Hall.
  pose proof (sort_by_key_perm sort_key (readable files)) as Hperm.
  pose proof (Permutation_Forall Hperm Hall) as Hall'.
  destruct (sort_by_key sort_key (readable files)) as [|first rest] eqn:Hsort.
  { apply Permutation_length in Hperm. destruct (readable files);
      [now contradiction Hne | discriminate Hperm]. }
  assert (Hfirst : Rows first = r /\ Columns first = c).
  { inversion Hall' as [|? ? [_ H] _]. exact H. }
  destruct Hfirst as [Hr Hc].
  assert (Hbc : Forall (fun ds =>
            broadcastable (shape2 (rescaled_pixels ds)) (r, c) = true)
            (first :: rest)).
  { eapply Forall_impl; [|exact Hall'].
    intros ds [[Hshape _] [Hr' Hc']].
    rewrite rescaled_pixels_shape, Hshape, Hr', Hc'.
    unfold broadcastable. cbn [fst snd]. now rewrite !Nat.eqb_refl. }
  pose proof (fill_volume_ok (first :: rest) []
                (repeat (repeat (repeat (S754_zero false) c) r)
                   (length (first :: rest)))
                (length (first :: rest)) r c
                (repeat_length _ _) (le_n _) Hbc) as Hfill.
  cbn [app length] in Hfill.
  assert (Hexact : forall v, Z.abs v < 2 ^ 24 -> SF2R (f32_of_int v) = IZR v).
  { intros v Hv.
    exact (proj1 (normalize_int prec32 emax32 prec32_pos prec32_lt_emax32
                    v Hv)). }
  eexists. repeat apply conj.
  - rewrite (load_dicom_series_unfold _ _ _ Hsort), Hr, Hc.
    unfold np_zeros. cbn [length]. rewrite Hfill. reflexivity.
  - cbn [shape3]. apply Permutation_length in Hperm. now rewrite Hperm.
  - exact Hperm.
  - rewrite <- Hsort. apply sort_by_key_sorted.
  - intros q. rewrite <- Hsort. apply sort_by_key_stable.
  - cbn [planes3]. apply map_ext_in. intros ds Hds.
    rewrite Forall_forall in Hall'. destruct (Hall' ds Hds) as [Hwf [Hr' Hc']].
    rewrite broadcast_rows_same.
    + apply rescaled_pixels_rows.
    + now apply rescaled_pixels_wf.
    + rewrite rescaled_pixels_shape. destruct Hwf as [Hs _].
      now rewrite Hs, Hr', Hc'.
  - exact rescale_2_minus_1000.
  - intros ds n Hn. unfold sort_key. now rewrite Hn.
  - intros ds x y z Hn Hp. unfold sort_key. now rewrite Hn, Hp.
  - intros ds Hn Hp. unfold sort_key. now rewrite Hn, Hp.
  - intros ds slope intercept v Hs Hi. unfold stored_value.
    now rewrite Hs, Hi.
  - intros ds v [H|H]; unfold stored_value; rewrite H; [reflexivity|].
    now destruct (RescaleSlope ds).
  - exact Hexact.
  - intros v Hv. rewrite rescale_2_minus_1000 by exact Hv.
    apply Hexact. lia.
Qed.

(** C2, as the code has it.  The dimensions of a record are not compared
    with those of the first sorted record; the record is assigned to its
    slice of the volume and NumPy broadcasts it.  When a record has a
    dimension that is neither the canonical one nor 1, the assignment
    raises [ValueError], which [load_dicom_series] passes on: no volume is
    returned. *)
Theorem load_dicom_series_mismatch
  (files : list (option Dataset)) (first : Dataset) (rest : list Dataset) :
  Forall wf_dataset (readable files) ->
  sort_by_key sort_key (readable files) = first :: rest ->
  Exists (fun ds => broadcastable (Rows ds, Columns ds)
                      (Rows first, Columns first) = false)
    (readable files) ->
  load_dicom_series files = Raise ValueError.
Proof.
  intros Hwf Hsort Hex.
  pose proof (sort_by_key_perm sort_key (readable files)) as Hperm.
  rewrite Hsort in Hperm.
  assert (Hex' : Exists (fun ds =>
             broadcastable (shape2 (rescaled_pixels ds))
               (Rows first, Columns first) = false) (first :: rest)).
  { apply Exists_exists in Hex. destruct Hex as [ds [Hin Hbad]].
    apply Exists_exists. exists ds. split.
    - eapply Permutation_in; eassumption.
    - rewrite Forall_forall in Hwf. destruct (Hwf ds Hin) as [Hs _].
      now rewrite rescaled_pixels_shape, Hs. }
  rewrite (load_dicom_series_unfold _ _ _ Hsort). unfold np_zeros.
  pose proof (fill_volume_mismatch (first :: rest) []
                (repeat (repeat (repeat (S754_zero false) (Columns first))
                           (Rows first)) (length (first :: rest)))
                (length (first :: rest)) (Rows first) (Columns first)
                (repeat_length _ _) (le_n _) Hex') as Hfill.
  cbn [app length] in Hfill. cbn [length]. now rewrite Hfill.
Qed.

Lemma ds_2x2_wf (n : Z) : wf_dataset (ds_2x2 n).
Proof. split; [reflexivity|]. split; [reflexivity|]. repeat constructor. Defined.

Lemma ds_3x2_wf (n : Z) : wf_dataset (ds_3x2 n).
Proof. split; [reflexivity|]. split; [reflexivity|]. repeat constructor. Defined.

Lemma load_dicom_series_assembles_witness :
  exists volume,
    load_dicom_series [Some (ds_2x2 2); None; Some (ds_2x2 1)]
    = Ok (volume, [ds_2x2 1; ds_2x2 2])
    /\ shape3 volume = (2, 2, 2)%nat.
Proof.
  destruct (load_dicom_series_assembles
              [Some (ds_2x2 2); None; Some (ds_2x2 1)] 2 2) as [v [H1 [H2 _]]].
  - discriminate.
  - repeat constructor.
  - exists v. split; [exact H1 | exact H2].
Defined.

(** C2 as stated fails: a record of one row follows a first record of two
    rows; the assembly succeeds and the single row is written twice. *)
Lemma load_dicom_series_mismatch_counterexample :
  exists volume,
    load_dicom_series [Some (ds_2x2 1); Some (ds_1x2 2)]
    = Ok (volume, [ds_2x2 1; ds_1x2 2])
    /\ Rows (ds_1x2 2) <> Rows (ds_2x2 1)
    /\ nth 1 (planes3 volume) []
       = [[f32_of_int 7; f32_of_int 8]; [f32_of_int 7; f32_of_int 8]].
Proof.
  eexists. split; [vm_compute; reflexivity|].
  split; [discriminate | reflexivity].
Qed.

Lemma load_dicom_series_mismatch_witness :
  load_dicom_series [Some (ds_2x2 1); Some (ds_3x2 2)] = Raise ValueError.
Proof.
  apply (load_dicom_series_mismatch _ (ds_2x2 1) [ds_3x2 2]).
  - repeat constructor.
  - reflexivity.
  - right. left. reflexivity.
Defined.

Local Open Scope Z_scope.

(** * Window/level and overlay: evaluation at given windows *)






(** C10 as stated fails: at width 3 and level [2^24] the bounds 16777214.5
    and 16777217.5 become the [float32] numbers 16777214 and 16777218, so
    the cell 16777218 is scaled to 4/3 * 255 = 340, which the conversion
    to 8 bits wraps to 84, below the 170 of the smaller cell 16777216. *)
Lemma window_level_image_monotone_counterexample :
  SFleb (f32_lit (2 ^ 24)) (f32_lit (2 ^ 24 + 2)) = true
  /\ window_level_image image_1x2 (f64_lit 3) (f64_lit (2 ^ 24))
     = mk2 (1, 2)%nat [[170; 84]]
  /\ 84 < 170.
Proof. repeat split; vm_compute; reflexivity. Qed.

Local Open Scope Z_scope.

(** * [clamp] and [extract_plane]: edges and composition *)

(** [clamp] never returns less than the minimum, also when the bounds
    cross; with bounds in order the result lies between them, a value in
    range is returned unchanged and a value outside is moved to the
    nearer bound. *)
Theorem clamp_spec (value minimum maximum : Z) :
  minimum <= clamp value minimum maximum
  /\ (maximum < minimum -> clamp value minimum maximum = minimum)
  /\ (minimum <= maximum ->
      clamp value minimum maximum <= maximum
      /\ (minimum <= value <= maximum -> clamp value minimum maximum = value)
      /\ (value < minimum -> clamp value minimum maximum = minimum)
      /\ (maximum < value -> clamp value minimum maximum = maximum)).
Proof. unfold clamp. repeat split; intros; lia. Qed.

(** Clamping twice with the same bounds is clamping once, whatever the
    bounds. *)
Lemma clamp_clamp (value minimum maximum : Z) :
  clamp (clamp value minimum maximum) minimum maximum
  = clamp value minimum maximum.
Proof. unfold clamp. lia. Qed.

Lemma clamp_inside (value minimum maximum : Z) :
  minimum <= value <= maximum -> clamp value minimum maximum = value.
Proof. unfold clamp. lia. Qed.

Section ResliceEdges.
Context {A : Type}.
Variable d : A.

Lemma norm_index_raises (n : nat) (i : Z) (e : pyexn) :
  norm_index n i = Raise e -> e = IndexError.
Proof.
  unfold norm_index.
  destruct ((0 <=? i) && (i <? Z.of_nat n)); [discriminate|].
  destruct ((- Z.of_nat n <=? i) && (i <? 0)); [discriminate|].
  congruence.
Qed.

Lemma index_never_ValueError (v : ndarray3 A) (i : Z) :
  index_axis0 v i <> Raise ValueError
  /\ index_axis1 v i <> Raise ValueError
  /\ index_axis2 d v i <> Raise ValueError.
Proof.
  unfold index_axis0, index_axis1, index_axis2.
  destruct (shape3 v) as [[zd yd] xd].
  repeat split.
  - destruct (norm_index zd i) eqn:H; cbn [bind]; [discriminate|].
    apply norm_index_raises in H. congruence.
  - destruct (norm_index yd i) eqn:H; cbn [bind]; [discriminate|].
    apply norm_index_raises in H. congruence.
  - destruct (norm_index xd i) eqn:H; cbn [bind]; [discriminate|].
    apply norm_index_raises in H. congruence.
Qed.

(** [extract_plane] raises [ValueError] exactly for a plane name other
    than the three it knows, whatever the volume and the index. *)
Theorem extract_plane_unknown_plane (v : ndarray3 A) (plane : string) (index : Z) :
  extract_plane d v plane index = Raise ValueError
  <-> ~ In plane ["Axial"; "Sagittal"; "Coronal"]%string.
Proof.
  unfold extract_plane. destruct (shape3 v) as [[zd yd] xd] eqn:Hs.
  destruct (String.eqb_spec plane "Axial") as [->|Ha].
  { split; [|intros H; exfalso; apply H; now left].
    intros H. exfalso. now apply (index_never_ValueError v) in H. }
  destruct (String.eqb_spec plane "Sagittal") as [->|Hsg].
  { split; [|intros H; exfalso; apply H; right; now left].
    intros H. exfalso.
    destruct (index_axis2 d v (clamp index 0 (Z.of_nat xd - 1))) eqn:Hi;
      cbn [bind] in H; [discriminate|].
    rewrite H in Hi. now apply (index_never_ValueError v) in Hi. }
  destruct (String.eqb_spec plane "Coronal") as [->|Hc].
  { split; [|intros H; exfalso; apply H; right; right; now left].
    intros H. exfalso.
    destruct (index_axis1 v (clamp index 0 (Z.of_nat yd - 1))) eqn:Hi;
      cbn [bind] in H; [discriminate|].
    rewrite H in Hi. now apply (index_never_ValueError v) in Hi. }
  split; [|reflexivity].
  intros _ [H|[H|[H|[]]]]; congruence.
Qed.

(** On a volume whose axis for the plane is empty the clamped index is 0
    and the indexing raises [IndexError]: the clamp does not protect an
    empty axis. *)
Theorem extract_plane_empty_axis (v : ndarray3 A) (plane : string) (index : Z) :
  In plane ["Axial"; "Sagittal"; "Coronal"]%string ->
  index_limit v plane < 0 ->
  extract_plane d v plane index = Raise IndexError.
Proof.
  intros Hplane Hlim.
  unfold extract_plane, index_limit, plane_limit, index_axis0, index_axis1,
    index_axis2 in *.
  destruct (shape3 v) as [[zd yd] xd].
  destruct Hplane as [<- | [<- | [<- | []]]];
    cbn [String.eqb Ascii.eqb Bool.eqb andb] in *.
  - assert (zd = 0%nat) by lia. subst zd.
    replace (clamp index 0 (Z.of_nat 0 - 1)) with 0 by (unfold clamp; lia).
    reflexivity.
  - assert (xd = 0%nat) by lia. subst xd.
    replace (clamp index 0 (Z.of_nat 0 - 1)) with 0 by (unfold clamp; lia).
    reflexivity.
  - assert (yd = 0%nat) by lia. subst yd.
    replace (clamp index 0 (Z.of_nat 0 - 1)) with 0 by (unfold clamp; lia).
    reflexivity.
Qed.

(** The three planes through a voxel show that voxel: the axial image at
    [z] has it at row [y], column [x]; the sagittal image at [x] has it at
    row [y], column [z]; the coronal image at [y] has it at row [x],
    column [z].  The rotation followed by the flip is a transposition of
    the slice. *)
Theorem extract_plane_voxel (v : ndarray3 A) (zd yd xd z y x : nat) :
  wf3 v -> shape3 v = (zd, yd, xd) ->
  (z < zd)%nat -> (y < yd)%nat -> (x < xd)%nat ->
  exists axial sagittal coronal,
    extract_plane d v "Axial" (Z.of_nat z) = Ok axial
    /\ extract_plane d v "Sagittal" (Z.of_nat x) = Ok sagittal
    /\ extract_plane d v "Coronal" (Z.of_nat y) = Ok coronal
    /\ get2 d axial y x = get3 d v z y x
    /\ get2 d sagittal y z = get3 d v z y x
    /\ get2 d coronal x z = get3 d v z y x.
Proof.
  intros Hwf Hs Hz Hy Hx.
  rewrite (extract_plane_sagittal_tabulate d v zd yd xd x Hwf Hs Hx).
  rewrite (extract_plane_coronal_tabulate d v zd yd xd y Hwf Hs Hy).
  unfold extract_plane, index_axis0. rewrite Hs.
  cbn [String.eqb Ascii.eqb Bool.eqb andb].
  rewrite clamp_id by lia. rewrite norm_index_in_range by exact Hz.
  cbn [bind]. do 3 eexists. repeat split; try reflexivity.
  - rewrite get2_tabulate2 by assumption. f_equal. lia.
  - rewrite get2_tabulate2 by assumption. f_equal. lia.
Qed.


End ResliceEdges.

Lemma extract_plane_empty_axis_witness :
  extract_plane 0 empty_volume "Axial" 7 = Raise IndexError.
Proof.
  apply extract_plane_empty_axis.
  - left. reflexivity.
  - cbn. lia.
Defined.

Lemma extract_plane_voxel_witness :
  exists axial sagittal coronal,
    extract_plane 0 gradient_1x2x3 "Axial" 0 = Ok axial
    /\ extract_plane 0 gradient_1x2x3 "Sagittal" 2 = Ok sagittal
    /\ extract_plane 0 gradient_1x2x3 "Coronal" 1 = Ok coronal
    /\ get2 0 axial 1 2 = 12
    /\ get2 0 sagittal 1 0 = 12
    /\ get2 0 coronal 2 0 = 12.
Proof.
  exact (extract_plane_voxel 0 gradient_1x2x3 1 2 3 0 1 2 gradient_1x2x3_wf
           eq_refl ltac:(lia) ltac:(lia) ltac:(lia)).
Defined.


Local Open Scope Z_scope.

(** * Volume assembly: errors, invariants and the order of the files *)

(** An empty list of files makes [load_dicom_series] raise
    [FileNotFoundError]; a list that is not empty and of which no file
    can be read makes it raise [RuntimeError]. *)
Theorem load_dicom_series_no_input (files : list (option Dataset)) :
  (files = [] -> load_dicom_series files = Raise FileNotFoundError)
  /\ (files <> [] -> readable files = [] ->
      load_dicom_series files = Raise RuntimeError).
Proof.
  split.
  - intros ->. reflexivity.
  - intros Hne Hnone. unfold load_dicom_series.
    destruct files as [|f files]; [now contradiction Hne|].
    rewrite Hnone. reflexivity.
Qed.

Lemma Forall_or_Exists {T : Type} (b : T -> bool) (l : list T) :
  Forall (fun x => b x = true) l \/ Exists (fun x => b x = false) l.
Proof.
  induction l as [|x l [IH|IH]].
  - left. constructor.
  - destruct (b x) eqn:Hx; [left; now constructor | right; now left].
  - right. now right.
Qed.

Lemma broadcast_rows_wf (dst : nat * nat) (a : ndarray2 spec_float) :
  wf_rows (fst dst) (snd dst) (broadcast_rows dst a).
Proof. unfold broadcast_rows. apply wf_rows_tabulate. Qed.

Lemma load_dicom_series_fill (files : list (option Dataset))
  (first : Dataset) (rest : list Dataset) :
  sort_by_key sort_key (readable files) = first :: rest ->
  Forall (fun ds => broadcastable (shape2 (rescaled_pixels ds))
                      (Rows first, Columns first) = true) (first :: rest) ->
  load_dicom_series files
  = Ok (mk3 (length (readable files), Rows first, Columns first)
          (map (fun ds => broadcast_rows (Rows first, Columns first)
                            (rescaled_pixels ds)) (first :: rest)),
        first :: rest).
Proof.
  intros Hsort Hbc.
  pose proof (fill_volume_ok (first :: rest) []
                (repeat (repeat (repeat (S754_zero false) (Columns first))
                           (Rows first)) (length (first :: rest)))
                (length (first :: rest)) (Rows first) (Columns first)
                (repeat_length _ _) (le_n _) Hbc) as Hfill.
  cbn [app length] in Hfill.
  rewrite (load_dicom_series_unfold _ _ _ Hsort). unfold np_zeros.
  cbn [length]. rewrite Hfill. cbn [bind].
  replace (length (readable files)) with (S (length rest)); [reflexivity|].
  rewrite <- (sort_by_key_length sort_key (readable files)), Hsort. reflexivity.
Qed.

(** Whenever [load_dicom_series] returns, the records it returns are the
    readable ones sorted by key, the volume has one plane per readable
    record and the rows and columns of the first sorted record, every
    plane has exactly that many rows and columns, and every frame could
    be broadcast to them: plane [i] is the rescaled frame of the [i]-th
    sorted record, repeated along an axis where the frame has length 1. *)
Theorem load_dicom_series_returns
  (files : list (option Dataset)) (volume : ndarray3 spec_float)
  (datasets : list Dataset) :
  load_dicom_series files = Ok (volume, datasets) ->
  exists first rest,
    datasets = first :: rest
    /\ datasets = sort_by_key sort_key (readable files)
    /\ shape3 volume = (length (readable files), Rows first, Columns first)
    /\ wf3 volume
    /\ Forall (fun ds => broadcastable (shape2 (pixel_array ds))
                           (Rows first, Columns first) = true) datasets
    /\ planes3 volume
       = map (fun ds => broadcast_rows (Rows first, Columns first)
                          (rescaled_pixels ds)) datasets.
Proof.
  intros Hload.
  destruct (sort_by_key sort_key (readable files)) as [|first rest] eqn:Hsort.
  { unfold load_dicom_series in Hload. rewrite Hsort in Hload.
    destruct files; discriminate. }
  destruct (Forall_or_Exists
              (fun ds => broadcastable (shape2 (rescaled_pixels ds))
                           (Rows first, Columns first)) (first :: rest))
    as [Hbc|Hex].
  - rewrite (load_dicom_series_fill files first rest Hsort Hbc) in Hload.
    injection Hload as <- <-.
    exists first, rest.
    split; [reflexivity|]. split; [reflexivity|]. split; [reflexivity|].
    split; [|split; [|reflexivity]].
    + unfold wf3. cbn [shape3 planes3]. split.
      * cbn [length]. rewrite length_map.
        rewrite <- (sort_by_key_length sort_key (readable files)), Hsort.
        reflexivity.
      * change (Forall (wf_rows (Rows first) (Columns first))
                  (map (fun ds => broadcast_rows (Rows first, Columns first)
                                    (rescaled_pixels ds)) (first :: rest))).
        apply Forall_map. apply Forall_forall. intros ds _.
        apply (broadcast_rows_wf (Rows first, Columns first)).
    + eapply Forall_impl; [|exact Hbc]. intros ds H. cbv beta in H.
      now rewrite rescaled_pixels_shape in H.
  - exfalso.
    rewrite (load_dicom_series_unfold _ _ _ Hsort) in Hload. unfold np_zeros in Hload.
    pose proof (fill_volume_mismatch (first :: rest) []
                  (repeat (repeat (repeat (S754_zero false) (Columns first))
                             (Rows first)) (length (first :: rest)))
                  (length (first :: rest)) (Rows first) (Columns first)
                  (repeat_length _ _) (le_n _) Hex) as Hfill.
    cbn [app length] in Hfill. cbn [length] in Hload.
    rewrite Hfill in Hload. discriminate.
Qed.

(** Files that cannot be read leave no trace: two listings with the same
    readable records, in the same order, give the same result. *)
Theorem load_dicom_series_skips_unreadable (files1 files2 : list (option Dataset)) :
  files1 <> [] -> files2 <> [] -> readable files1 = readable files2 ->
  load_dicom_series files1 = load_dicom_series files2.
Proof.
  intros H1 H2 Heq. unfold load_dicom_series. rewrite Heq.
  destruct files1; [contradiction|]. destruct files2; [contradiction|].
  reflexivity.
Qed.

Section SortedUnique.
Context {T : Type}.
Variable key : T -> Q.

Lemma sorted_perm_unique (l1 : list T) :
  forall l2,
  StronglySorted (fun a b => (key a <= key b)%Q) l1 ->
  StronglySorted (fun a b => (key a <= key b)%Q) l2 ->
  Permutation l1 l2 ->
  (forall a b, In a l1 -> In b l1 -> (key a == key b)%Q -> a = b) ->
  l1 = l2.
Proof.
  induction l1 as [|a l1 IH]; intros l2 Hs1 Hs2 Hperm Hinj.
  - apply Permutation_nil in Hperm. now subst.
  - destruct l2 as [|b l2].
    { apply Permutation_sym, Permutation_nil in Hperm. discriminate. }
    apply StronglySorted_inv in Hs1 as [Hs1 Ha].
    apply StronglySorted_inv in Hs2 as [Hs2 Hb].
    rewrite Forall_forall in Ha, Hb.
    assert (Hbin : In b (a :: l1)).
    { apply (Permutation_in b (Permutation_sym Hperm)). now left. }
    assert (Hain : In a (b :: l2)).
    { apply (Permutation_in a Hperm). now left. }
    assert (Hab : (key a <= key b)%Q).
    { destruct Hbin as [->|Hin]; [apply Qle_refl | now apply Ha]. }
    assert (Hba : (key b <= key a)%Q).
    { destruct Hain as [->|Hin]; [apply Qle_refl | now apply Hb]. }
    assert (a = b).
    { apply Hinj; [now left | exact Hbin | now apply Qle_antisym]. }
    subst b. f_equal. apply IH; try assumption.
    + now apply Permutation_cons_inv in Hperm.
    + intros x y Hx Hy. apply Hinj; now right.
Qed.

Lemma sort_by_key_perm_unique (l1 l2 : list T) :
  Permutation l1 l2 ->
  (forall a b, In a l1 -> In b l1 -> (key a == key b)%Q -> a = b) ->
  sort_by_key key l1 = sort_by_key key l2.
Proof.
  intros Hperm Hinj.
  pose proof (sort_by_key_perm key l1) as H1.
  pose proof (sort_by_key_perm key l2) as H2.
  apply sorted_perm_unique.
  - apply sort_by_key_sorted.
  - apply sort_by_key_sorted.
  - now rewrite <- H1, <- H2.
  - intros a b Ha Hb. apply Hinj.
    + apply (Permutation_in a (Permutation_sym H1) Ha).
    + apply (Permutation_in b (Permutation_sym H1) Hb).
Qed.

End SortedUnique.

(** When no two readable records have the same key, the order in which
    the folder lists the files does not matter: any two listings with the
    same readable records give the same volume and the same records. *)
Theorem load_dicom_series_order_independent
  (files1 files2 : list (option Dataset)) :
  files1 <> [] -> files2 <> [] ->
  Permutation (readable files1) (readable files2) ->
  (forall a b, In a (readable files1) -> In b (readable files1) ->
     (sort_key a == sort_key b)%Q -> a = b) ->
  load_dicom_series files1 = load_dicom_series files2.
Proof.
  intros H1 H2 Hperm Hinj. unfold load_dicom_series.
  rewrite (sort_by_key_perm_unique sort_key _ _ Hperm Hinj).
  destruct files1; [contradiction|]. destruct files2; [contradiction|].
  reflexivity.
Qed.

Lemma stored_value_integer (ds : Dataset) (s i v : Z) :
  RescaleSlope ds = Some (f64_lit s) ->
  RescaleIntercept ds = Some (f64_lit i) ->
  Z.abs v < 2 ^ 24 -> Z.abs s < 2 ^ 24 -> Z.abs i < 2 ^ 24 ->
  Z.abs (s * v) < 2 ^ 24 ->
  stored_value ds v = f32_of_int (s * v + i).
Proof.
  intros Hs Hi Hv Hs' Hi' Hsv. unfold stored_value. rewrite Hs, Hi.
  now apply rescale_int.
Qed.

(** With an integer slope [s] and an integer intercept [i], the rescaled
    frame holds exactly [s * v + i] for every sample [v], as long as the
    slope, the intercept, the samples, the products and the results stay
    below [2^24] in magnitude: each cell is the [float32] number of value
    [s * v + i], and the [float32] arithmetic loses nothing. *)
Theorem rescaled_pixels_integer (ds : Dataset) (s i : Z) :
  RescaleSlope ds = Some (f64_lit s) ->
  RescaleIntercept ds = Some (f64_lit i) ->
  Z.abs s < 2 ^ 24 -> Z.abs i < 2 ^ 24 ->
  Forall (Forall (fun v => Z.abs v < 2 ^ 24 /\ Z.abs (s * v) < 2 ^ 24
                           /\ Z.abs (s * v + i) < 2 ^ 24))
    (rows2 (pixel_array ds)) ->
  rescaled_pixels ds = map2d (fun v => f32_of_int (s * v + i)) (pixel_array ds)
  /\ Forall (Forall (fun v => SF2R (stored_value ds v) = IZR (s * v + i)))
       (rows2 (pixel_array ds))
  /\ rows2 (rescaled_pixels ds)
     = map (map (stored_value ds)) (rows2 (pixel_array ds)).
Proof.
  intros Hs Hi Hs' Hi' Hall.
  assert (Hshape : shape2 (rescaled_pixels ds) = shape2 (pixel_array ds))
    by apply rescaled_pixels_shape.
  pose proof (rescaled_pixels_rows ds) as Hrows.
  split; [|split; [|exact Hrows]].
  - destruct (rescaled_pixels ds) as [sh rows]. cbn [shape2 rows2] in *.
    unfold map2d. subst sh. f_equal. rewrite Hrows.
    apply map_ext_in. intros row Hrow. apply map_ext_in. intros v Hv.
    rewrite Forall_forall in Hall. specialize (Hall row Hrow).
    rewrite Forall_forall in Hall. destruct (Hall v Hv) as (Hv1 & Hv2 & _).
    now apply (stored_value_integer ds s i v).
  - eapply Forall_impl; [|exact Hall]. intros row Hrow.
    eapply Forall_impl; [|exact Hrow]. intros v (Hv1 & Hv2 & Hv3).
    cbv beta. rewrite (stored_value_integer ds s i v) by assumption.
    exact (proj1 (normalize_int prec32 emax32 prec32_pos prec32_lt_emax32
                    (s * v + i) Hv3)).
Qed.

Lemma load_dicom_series_returns_witness :
  exists first rest,
    [ds_2x2 1; ds_2x2 2] = first :: rest
    /\ [ds_2x2 1; ds_2x2 2]
       = sort_by_key sort_key (readable [Some (ds_2x2 2); Some (ds_2x2 1)]).
Proof.
  destruct (load_dicom_series_returns [Some (ds_2x2 2); Some (ds_2x2 1)]
              _ [ds_2x2 1; ds_2x2 2] eq_refl)
    as (first & rest & H1 & H2 & _).
  exists first, rest. split; assumption.
Defined.

Lemma load_dicom_series_skips_unreadable_witness :
  load_dicom_series [None; Some (ds_2x2 1); None]
  = load_dicom_series [Some (ds_2x2 1)].
Proof.
  apply load_dicom_series_skips_unreadable; [discriminate | discriminate | reflexivity].
Defined.

Lemma load_dicom_series_order_independent_witness :
  load_dicom_series [Some (ds_2x2 2); Some (ds_2x2 1)]
  = load_dicom_series [Some (ds_2x2 1); None; Some (ds_2x2 2)].
Proof.
  apply load_dicom_series_order_independent.
  - discriminate.
  - discriminate.
  - apply perm_swap.
  - intros a b [<-|[<-|[]]] [<-|[<-|[]]] H; try reflexivity;
      exfalso; revert H; unfold Qeq; cbn; lia.
Defined.

Lemma rescaled_pixels_integer_witness :
  rescaled_pixels (ds_2x2 1)
  = map2d (fun v => f32_of_int (2 * v + -1000)) (pixel_array (ds_2x2 1))
  /\ Forall (Forall (fun v => SF2R (stored_value (ds_2x2 1) v)
                             = IZR (2 * v + -1000)))
       (rows2 (pixel_array (ds_2x2 1)))
  /\ rows2 (rescaled_pixels (ds_2x2 1))
     = map (map (stored_value (ds_2x2 1))) (rows2 (pixel_array (ds_2x2 1))).
Proof.
  apply rescaled_pixels_integer; try reflexivity.
  repeat constructor.
Defined.

Local Open Scope Z_scope.

(** * The slider ranges, the presets and the handlers of [main] *)

Lemma f32_of_int_valid (q : Z) : valid_binary prec32 emax32 (f32_of_int q) = true.
Proof.
  apply (rounds_valid prec32 emax32 prec32_pos (IZR q * bpow 0)).
  apply binary_normalize_rounds.
Qed.

Lemma np_floor_valid (x : spec_float) :
  valid_binary prec32 emax32 x = true ->
  valid_binary prec32 emax32 (np_floor x) = true.
Proof.
  intros Hx. destruct x as [s|s| |s m [|p|k]]; try exact Hx.
  cbn [np_floor]. destruct (floor_float _ =? 0); [reflexivity|].
  apply f32_of_int_valid.
Qed.

Lemma np_ceil_valid (x : spec_float) :
  valid_binary prec32 emax32 x = true ->
  valid_binary prec32 emax32 (np_ceil x) = true.
Proof.
  intros Hx. destruct x as [s|s| |s m [|p|k]]; try exact Hx.
  cbn [np_ceil]. destruct (ceil_float _ =? 0); [reflexivity|].
  apply f32_of_int_valid.
Qed.

Lemma int_of_float_finite (x : spec_float) (n : Z) :
  int_of_float x = Ok n -> is_finite x = true /\ n = trunc_float x.
Proof. destruct x; try discriminate; intros [= <-]; split; reflexivity. Qed.

Lemma f32_lit_int (k : Z) :
  Z.abs k < 2 ^ 24 ->
  SF2R (f32_lit k) = IZR k /\ valid_binary prec32 emax32 (f32_lit k) = true
  /\ is_finite (f32_lit k) = true.
Proof.
  intros Hk.
  destruct (normalize_int prec32 emax32 prec32_pos prec32_lt_emax32 k Hk)
    as (H1 & H2 & H3 & _).
  repeat split; assumption.
Qed.

Lemma f64_lit_int (k : Z) :
  Z.abs k < 2 ^ 53 ->
  SF2R (f64_lit k) = IZR k /\ valid_binary prec64 emax64 (f64_lit k) = true
  /\ is_finite (f64_lit k) = true.
Proof.
  intros Hk.
  destruct (normalize_int prec64 emax64 prec64_pos prec64_lt_emax64 k Hk)
    as (H1 & H2 & H3 & _).
  repeat split; assumption.
Qed.

Lemma main_ww_slider_max_ge (default_ww : spec_float) (M : Z) :
  main_ww_slider_max default_ww = Ok M -> 2000 <= M.
Proof.
  unfold main_ww_slider_max.
  destruct (int_of_float _) as [n|e]; cbn [bind]; [|discriminate].
  intros [= <-]. lia.
Qed.

Lemma main_wl_min_le (volume_min : spec_float) (lo : Z) :
  valid_binary prec32 emax32 volume_min = true ->
  main_wl_min volume_min = Ok lo -> lo <= -1200.
Proof.
  intros Hv. unfold main_wl_min.
  destruct (SFltb (f32_lit (-1200)) (np_floor volume_min)) eqn:Hlt.
  - intros [= <-]. lia.
  - intros Hi. apply int_of_float_finite in Hi as [Hfin ->].
    destruct (f32_lit_int (-1200) ltac:(lia)) as (Lv & Lval & Lfin).
    pose proof (np_floor_valid volume_min Hv) as Hav.
    apply trunc_float_le; [exact Hfin | | lia].
    destruct (Rle_or_lt (SF2R (np_floor volume_min)) (IZR (-1200)))
      as [H|H]; [exact H|].
    rewrite <- Lv in H.
    apply (SFltb_lt prec32 emax32) in H; try assumption. congruence.
Qed.

Lemma main_wl_max_ge (volume_max : spec_float) (hi : Z) :
  valid_binary prec32 emax32 volume_max = true ->
  main_wl_max volume_max = Ok hi -> 1600 <= hi.
Proof.
  intros Hv. unfold main_wl_max.
  destruct (SFltb (np_ceil volume_max) (f32_lit 1600)) eqn:Hlt.
  - intros [= <-]. lia.
  - intros Hi. apply int_of_float_finite in Hi as [Hfin ->].
    destruct (f32_lit_int 1600 ltac:(lia)) as (Lv & Lval & Lfin).
    pose proof (np_ceil_valid volume_max Hv) as Hav.
    apply trunc_float_ge; [exact Hfin | | lia].
    destruct (Rle_or_lt (IZR 1600) (SF2R (np_ceil volume_max)))
      as [H|H]; [exact H|].
    rewrite <- Lv in H.
    apply (SFltb_lt prec32 emax32) in H; try assumption. congruence.
Qed.

(** Whenever [main] gets to build its sliders, the width slider reaches
    at least 2000 and the level slider spans at least -1200 to 1600,
    whatever the volume holds. *)
Theorem main_slider_ranges
  (default_ww volume_min volume_max : spec_float) (M lo hi : Z) :
  valid_binary prec32 emax32 volume_min = true ->
  valid_binary prec32 emax32 volume_max = true ->
  main_ww_slider_max default_ww = Ok M ->
  main_wl_min volume_min = Ok lo ->
  main_wl_max volume_max = Ok hi ->
  2000 <= M /\ lo <= -1200 /\ 1600 <= hi.
Proof.
  intros Hmin Hmax HM Hlo Hhi. split; [|split].
  - now apply (main_ww_slider_max_ge default_ww).
  - now apply (main_wl_min_le volume_min).
  - now apply (main_wl_max_ge volume_max).
Qed.

Section HandlerFacts.
Variable volume : ndarray3 spec_float.
Variables default_ww default_wl : spec_float.
Variables ww_slider_max wl_min wl_max : Z.

Local Notation "'parse'" :=
  (parse_values volume default_ww default_wl ww_slider_max wl_min wl_max).

(** What [parse_values] returns is inside the slider ranges: never below
    a lower bound, and not above an upper bound of a range that is not
    empty; the limit is that of the plane it returns. *)
Theorem parse_values_in_range (val_dict : Values)
  (plane : string) (axial_idx reform_idx ww wl reform_limit : Z) :
  parse val_dict = Ok (plane, axial_idx, reform_idx, ww, wl, reform_limit) ->
  plane = dict_get (v_PLANE val_dict) default_plane
  /\ reform_limit = plane_limit volume plane
  /\ 0 <= axial_idx /\ 0 <= reform_idx /\ 1 <= ww /\ wl_min <= wl
  /\ (0 < z_dim volume -> axial_idx < z_dim volume)
  /\ (0 <= reform_limit -> reform_idx <= reform_limit)
  /\ (1 <= ww_slider_max -> ww <= ww_slider_max)
  /\ (wl_min <= wl_max -> wl <= wl_max).
Proof.
  unfold parse_values.
  destruct (round_num (dict_get (v_AXIAL_SLICE val_dict) (PyInt 0)))
    as [a|e]; cbn [bind]; [|discriminate].
  destruct (round_num (dict_get (v_REFORM_SLICE val_dict) _))
    as [r|e]; cbn [bind]; [|discriminate].
  destruct (round_num (dict_get (v_WW val_dict) _))
    as [w|e]; cbn [bind]; [|discriminate].
  destruct (round_num (dict_get (v_WL val_dict) _))
    as [l|e]; cbn [bind]; [|discriminate].
  intros [= <- <- <- <- <- <-]. unfold clamp.
  repeat split; try reflexivity; intros; lia.
Qed.

(** [parse_values] returns unless one of the four numbers it rounds is a
    NaN or an infinity. *)
Theorem parse_values_total (val_dict : Values) :
  (exists parsed, parse val_dict = Ok parsed)
  <-> finite_num (dict_get (v_AXIAL_SLICE val_dict) (PyInt 0)) = true
      /\ finite_num (dict_get (v_REFORM_SLICE val_dict)
                       (PyInt (reformat_default volume))) = true
      /\ finite_num (dict_get (v_WW val_dict) (PyFloat default_ww)) = true
      /\ finite_num (dict_get (v_WL val_dict) (PyFloat default_wl)) = true.
Proof.
  assert (Hr : forall v, finite_num v = true <-> exists n, round_num v = Ok n).
  { intros [n|x]; cbn [finite_num round_num].
    - split; [intros _; now exists n | reflexivity].
    - split; [apply py_round_finite|].
      intros [n Hn]. destruct x; try discriminate; reflexivity. }
  unfold parse_values. rewrite !Hr. split.
  - intros [parsed H].
    destruct (round_num (dict_get (v_AXIAL_SLICE val_dict) (PyInt 0)))
      as [a|e]; cbn [bind] in H; [|discriminate].
    destruct (round_num (dict_get (v_REFORM_SLICE val_dict) _))
      as [r|e]; cbn [bind] in H; [|discriminate].
    destruct (round_num (dict_get (v_WW val_dict) _))
      as [w|e]; cbn [bind] in H; [|discriminate].
    destruct (round_num (dict_get (v_WL val_dict) _))
      as [l|e]; cbn [bind] in H; [|discriminate].
    repeat split; eexists; reflexivity.
  - intros ([a ->] & [r ->] & [w ->] & [l ->]). cbn [bind].
    eexists. reflexivity.
Qed.

(** After [apply_preset] the dictionary and the two sliders hold the same
    clamped width and level, and [parse_values] reads exactly these back;
    the other values are as before. *)
Theorem apply_preset_parse_values (val_dict : Values) (window : Window)
  (label plane : string) (ww_val wl_val axial_idx reform_idx ww wl reform_limit : Z) :
  parse val_dict = Ok (plane, axial_idx, reform_idx, ww, wl, reform_limit) ->
  let '(val_dict', label', window') :=
    apply_preset ww_slider_max wl_min wl_max (label, ww_val, wl_val)
      val_dict window in
  parse val_dict'
  = Ok (plane, axial_idx, reform_idx, clamp ww_val 1 ww_slider_max,
        clamp wl_val wl_min wl_max, reform_limit)
  /\ label' = label
  /\ w_WW window' = clamp ww_val 1 ww_slider_max
  /\ w_WL window' = clamp wl_val wl_min wl_max.
Proof.
  unfold parse_values, apply_preset. cbn [v_PLANE v_AXIAL_SLICE v_REFORM_SLICE
    v_WW v_WL dict_get w_WW w_WL].
  destruct (round_num (dict_get (v_AXIAL_SLICE val_dict) (PyInt 0)))
    as [a|e]; cbn [bind]; [|discriminate].
  destruct (round_num (dict_get (v_REFORM_SLICE val_dict) _))
    as [r|e]; cbn [bind]; [|discriminate].
  destruct (round_num (dict_get (v_WW val_dict) _))
    as [w|e]; cbn [bind]; [|discriminate].
  destruct (round_num (dict_get (v_WL val_dict) _))
    as [l|e]; cbn [bind]; [|discriminate].
  intros [= <- <- <- <- <- <-]. cbn [round_num bind].
  rewrite !clamp_clamp. repeat split; reflexivity.
Qed.

(** After [reset_plane_state] on a volume with at least one column,
    [parse_values] reads the sagittal plane and the middle position
    [(X - 1) // 2], which lies in the range the slider was given. *)
Theorem reset_plane_state_parse_values (val_dict : Values) (window : Window)
  (plane : string) (axial_idx reform_idx ww wl reform_limit : Z) :
  0 <= plane_limit volume "Sagittal" ->
  parse val_dict = Ok (plane, axial_idx, reform_idx, ww, wl, reform_limit) ->
  let '(val_dict', window') := reset_plane_state volume val_dict window in
  parse val_dict'
  = Ok ("Sagittal"%string, axial_idx, reformat_default volume, ww, wl,
        plane_limit volume "Sagittal")
  /\ w_PLANE window' = "Sagittal"%string
  /\ w_REFORM_SLICE_range window' = (0, plane_limit volume "Sagittal")
  /\ w_REFORM_SLICE window' = reformat_default volume
  /\ 0 <= reformat_default volume <= plane_limit volume "Sagittal".
Proof.
  intros Hlim. unfold parse_values, reset_plane_state.
  cbn [v_PLANE v_AXIAL_SLICE v_REFORM_SLICE v_WW v_WL dict_get
       w_PLANE w_REFORM_SLICE_range w_REFORM_SLICE].
  destruct (round_num (dict_get (v_AXIAL_SLICE val_dict) (PyInt 0)))
    as [a|e]; cbn [bind]; [|discriminate].
  destruct (round_num (dict_get (v_REFORM_SLICE val_dict) _))
    as [r|e]; cbn [bind]; [|discriminate].
  destruct (round_num (dict_get (v_WW val_dict) _))
    as [w|e]; cbn [bind]; [|discriminate].
  destruct (round_num (dict_get (v_WL val_dict) _))
    as [l|e]; cbn [bind]; [|discriminate].
  intros [= <- <- <- <- <- <-]. cbn [round_num bind].
  assert (Hd : 0 <= reformat_default volume <= plane_limit volume "Sagittal").
  { unfold reformat_default, main_reformat_default, default_plane.
    pose proof (Z.div_pos (plane_limit volume "Sagittal") 2 Hlim ltac:(lia)).
    pose proof (Z.div_le_upper_bound (plane_limit volume "Sagittal") 2
                  (plane_limit volume "Sagittal") ltac:(lia) ltac:(lia)).
    lia. }
  unfold default_plane in *.
  rewrite (clamp_id (reformat_default volume)) by exact Hd.
  repeat split; try reflexivity; lia.
Qed.

End HandlerFacts.

(** With the slider ranges that [main] computes, the Lung and the Head
    presets are applied as they are written: no clamping changes 1500,
    -600, 120 or 40. *)
Theorem apply_preset_fixed_presets
  (default_ww volume_min volume_max : spec_float) (M lo hi : Z)
  (val_dict : Values) (window : Window) :
  valid_binary prec32 emax32 volume_min = true ->
  valid_binary prec32 emax32 volume_max = true ->
  main_ww_slider_max default_ww = Ok M ->
  main_wl_min volume_min = Ok lo ->
  main_wl_max volume_max = Ok hi ->
  (let '(val_dict', _, window') :=
     apply_preset M lo hi ("Lung"%string, 1500, -600) val_dict window in
   v_WW val_dict' = Some (PyInt 1500) /\ v_WL val_dict' = Some (PyInt (-600))
   /\ w_WW window' = 1500 /\ w_WL window' = -600)
  /\
  (let '(val_dict', _, window') :=
     apply_preset M lo hi ("Head"%string, 120, 40) val_dict window in
   v_WW val_dict' = Some (PyInt 120) /\ v_WL val_dict' = Some (PyInt 40)
   /\ w_WW window' = 120 /\ w_WL window' = 40).
Proof.
  intros Hmin Hmax HM Hlo Hhi.
  pose proof (main_ww_slider_max_ge _ _ HM).
  pose proof (main_wl_min_le _ _ Hmin Hlo).
  pose proof (main_wl_max_ge _ _ Hmax Hhi).
  unfold apply_preset. cbn [v_WW v_WL w_WW w_WL].
  rewrite !clamp_inside by lia.
  repeat split; reflexivity.
Qed.

Lemma py_round_ge (x : spec_float) (n lo : Z) :
  py_round x = Ok n -> (IZR lo <= SF2R x)%R -> lo <= n.
Proof.
  intros Hr Hlo. apply py_round_bounds in Hr.
  assert (H1 : (IZR lo < IZR n + 1)%R) by lra.
  rewrite <- plus_IZR in H1. apply lt_IZR in H1. lia.
Qed.

Lemma lit_0_45_valid :
  valid_binary prec64 emax64 lit_0_45 = true /\ is_finite lit_0_45 = true.
Proof. split; reflexivity. Qed.

Lemma bone_width_ge (default_ww : spec_float) (w : Z) :
  valid_binary prec64 emax64 default_ww = true ->
  round_num (bone_width default_ww) = Ok w -> 250 <= w.
Proof.
  intros Hv. unfold bone_width.
  destruct (SFltb (SFmul prec64 emax64 default_ww lit_0_45) (f64_lit 250)) eqn:Hlt.
  - cbn [round_num]. intros [= <-]. lia.
  - cbn [round_num]. intros Hr.
    assert (Hfa : is_finite (SFmul prec64 emax64 default_ww lit_0_45) = true).
    { destruct (SFmul prec64 emax64 default_ww lit_0_45); try discriminate;
        reflexivity. }
    assert (Hfd : is_finite default_ww = true).
    { destruct default_ww; try reflexivity; discriminate. }
    destruct lit_0_45_valid as [Lv Lf].
    pose proof (SFmul_rounds prec64 emax64 prec64_pos prec64_lt_emax64
                  _ _ Hv Hfd Lv Lf) as Hm.
    destruct (rounds_valid prec64 emax64 prec64_pos _ _ Hm) as [_ Hva].
    destruct (f64_lit_int 250 ltac:(lia)) as (Bv & Bval & Bfin).
    apply (py_round_ge _ _ 250 Hr).
    destruct (Rle_or_lt (IZR 250) (SF2R (SFmul prec64 emax64 default_ww lit_0_45)))
      as [H|H]; [exact H|].
    rewrite <- Bv in H.
    apply (SFltb_lt prec64 emax64) in H; try assumption. congruence.
Qed.

(** Whenever [main] gets to build [preset_map], it holds exactly the four
    keys; Soft Tissue carries the rounded default window, the width of
    Bone is at least 250, and Lung and Head are the fixed pairs. *)
Theorem main_preset_map_spec (default_ww default_wl : spec_float)
  (preset_map : list (string * (string * Z * Z))) :
  valid_binary prec64 emax64 default_ww = true ->
  main_preset_map default_ww default_wl = Ok preset_map ->
  map fst preset_map
  = ["-PRESET_SOFT-"; "-PRESET_BONE-"; "-PRESET_LUNG-"; "-PRESET_HEAD-"]%string
  /\ (exists w l, preset_lookup preset_map "-PRESET_SOFT-" = Some ("Soft Tissue"%string, w, l)
                 /\ py_round default_ww = Ok w /\ py_round default_wl = Ok l)
  /\ (exists w l, preset_lookup preset_map "-PRESET_BONE-" = Some ("Bone"%string, w, l)
                 /\ 250 <= w)
  /\ preset_lookup preset_map "-PRESET_LUNG-" = Some ("Lung"%string, 1500, -600)
  /\ preset_lookup preset_map "-PRESET_HEAD-" = Some ("Head"%string, 120, 40)
  /\ (forall key, ~ In key (map fst preset_map) -> preset_lookup preset_map key = None).
Proof.
  intros Hv. unfold main_preset_map.
  destruct (py_round default_ww) as [sw|e] eqn:Hsw; cbn [bind]; [|discriminate].
  destruct (py_round default_wl) as [sl|e] eqn:Hsl; cbn [bind]; [|discriminate].
  destruct (round_num (bone_width default_ww)) as [bw|e] eqn:Hbw; cbn [bind];
    [|discriminate].
  destruct (py_round (SFadd _ _ _ _)) as [bl|e]; cbn [bind]; [|discriminate].
  intros H. injection H as H. subst preset_map. split; [reflexivity|].
  split; [exists sw, sl; repeat split; reflexivity|].
  split; [exists bw, bl; split; [reflexivity | now apply (bone_width_ge default_ww)]|].
  split; [reflexivity|]. split; [reflexivity|].
  intros key Hkey. cbn [map fst In] in Hkey. cbn [preset_lookup].
  destruct (String.eqb_spec "-PRESET_SOFT-" key) as [H|_]; [tauto|].
  destruct (String.eqb_spec "-PRESET_BONE-" key) as [H|_]; [tauto|].
  destruct (String.eqb_spec "-PRESET_LUNG-" key) as [H|_]; [tauto|].
  destruct (String.eqb_spec "-PRESET_HEAD-" key) as [H|_]; [tauto|].
  reflexivity.
Qed.

Lemma main_slider_ranges_witness :
  main_ww_slider_max (f64_lit 400) = Ok 2000
  /\ main_wl_min (f32_lit (-2048)) = Ok (-2048)
  /\ main_wl_max (f32_lit 3000) = Ok 3000
  /\ 2000 <= 2000 /\ -2048 <= -1200 /\ 1600 <= 3000.
Proof.
  split; [reflexivity|]. split; [reflexivity|]. split; [reflexivity|].
  apply (main_slider_ranges (f64_lit 400) (f32_lit (-2048)) (f32_lit 3000));
    reflexivity.
Defined.

Lemma parse_values_in_range_witness :
  "Coronal"%string = dict_get (v_PLANE sample_values) default_plane
  /\ 1 = plane_limit volume_1x2x3 "Coronal".
Proof.
  destruct (parse_values_in_range volume_1x2x3 (f64_lit 400) (f64_lit 40)
              2000 (-1200) 1600 sample_values "Coronal" 0 1 400 40 1 eq_refl)
    as (H1 & H2 & _).
  split; assumption.
Defined.

Lemma apply_preset_parse_values_witness :
  parse_values volume_1x2x3 (f64_lit 400) (f64_lit 40) 2000 (-1200) 1600
    (fst (fst (apply_preset 2000 (-1200) 1600 ("Wide"%string, 5000, -3000)
                 sample_values sample_window)))
  = Ok ("Coronal"%string, 0, 1, 2000, -1200, 1).
Proof.
  exact (proj1 (apply_preset_parse_values volume_1x2x3 (f64_lit 400) (f64_lit 40)
                  2000 (-1200) 1600 sample_values sample_window
                  "Wide" "Coronal" 5000 (-3000) 0 1 400 40 1 eq_refl)).
Defined.

Lemma reset_plane_state_parse_values_witness :
  parse_values volume_1x2x3 (f64_lit 400) (f64_lit 40) 2000 (-1200) 1600
    (fst (reset_plane_state volume_1x2x3 sample_values sample_window))
  = Ok ("Sagittal"%string, 0, 1, 400, 40, 2).
Proof.
  refine (proj1 (reset_plane_state_parse_values volume_1x2x3 (f64_lit 400)
                   (f64_lit 40) 2000 (-1200) 1600 sample_values sample_window
                   "Coronal" 0 1 400 40 1 _ eq_refl)).
  cbn. lia.
Defined.

Lemma apply_preset_fixed_presets_witness :
  v_WW (fst (fst (apply_preset 2000 (-2048) 3000 ("Lung"%string, 1500, -600)
                    sample_values sample_window)))
  = Some (PyInt 1500).
Proof.
  refine (proj1 (proj1 (apply_preset_fixed_presets (f64_lit 400) (f32_lit (-2048))
                   (f32_lit 3000) 2000 (-2048) 3000 sample_values sample_window
                   _ _ _ _ _))); reflexivity.
Defined.

Lemma main_preset_map_spec_witness :
  preset_lookup
    [("-PRESET_SOFT-", ("Soft Tissue", 400, 40));
     ("-PRESET_BONE-", ("Bone", 250, 280));
     ("-PRESET_LUNG-", ("Lung", 1500, -600));
     ("-PRESET_HEAD-", ("Head", 120, 40))]%string "-PRESET_LUNG-"
  = Some ("Lung"%string, 1500, -600).
Proof.
  refine (proj1 (proj2 (proj2 (proj2 (main_preset_map_spec (f64_lit 400)
                   (f64_lit 40) _ _ _))))); reflexivity.
Defined.

Local Open Scope Z_scope.

(** * The overlay line and [refresh_images] *)

(** The position [round((reform_idx / reform_limit) * (extent - 1))] for
    an index between 0 and the limit lies between 0 and [extent - 1]; it
    is 0 at index 0 and [extent - 1] at the limit. *)
Lemma overlay_position_inside (reform_idx reform_limit extent : Z) :
  0 <= reform_idx <= reform_limit -> 0 < reform_limit ->
  1 <= extent < 2 ^ 53 ->
  exists ratio e1 n,
    int_truediv reform_idx reform_limit = Ok ratio
    /\ float_of_int (extent - 1) = Ok e1
    /\ py_round (SFmul prec64 emax64 ratio e1) = Ok n
    /\ 0 <= n <= extent - 1
    /\ (reform_idx = 0 -> n = 0)
    /\ (reform_idx = reform_limit -> n = extent - 1).
Proof.
  intros Hidx Hlim Hext.
  destruct (int_truediv_unit reform_idx reform_limit Hidx Hlim)
    as (ratio & Hdiv & Rfin & Rval & Rbd).
  destruct (float_of_int_exact (extent - 1) ltac:(lia))
    as (e1 & He1 & Efin & Eval & Ev).
  pose proof (SFmul_rounds prec64 emax64 prec64_pos prec64_lt_emax64
                _ _ Rval Rfin Eval Efin) as Hm.
  rewrite Ev in Hm.
  assert (He0 : (0 <= IZR (extent - 1))%R) by (apply IZR_le; lia).
  destruct (rounds_between prec64 emax64 prec64_pos prec64_lt_emax64
              _ _ 0 (extent - 1) Hm) as (Pfin & Pval & Pbd).
  { split; nra. }
  { reflexivity. }
  { change (2 ^ prec64) with (2 ^ 53). lia. }
  destruct (py_round_finite _ Pfin) as [n Hn].
  exists ratio, e1, n. repeat split; try assumption.
  - apply (py_round_between _ n 0 (extent - 1) Hn Pbd).
  - apply (py_round_between _ n 0 (extent - 1) Hn Pbd).
  - intros ->.
    assert (Hz : is_zero ratio = true).
    { unfold int_truediv in Hdiv.
      replace (reform_limit =? 0) with false in Hdiv
        by (symmetry; apply Z.eqb_neq; lia).
      cbn [int_exact] in Hdiv. destruct reform_limit; try lia.
      cbn in Hdiv. injection Hdiv as <-. reflexivity. }
    destruct ratio; try discriminate.
    destruct e1; try discriminate; cbn in Hn; congruence.
  - intros ->.
    assert (Hr1 : SF2R ratio = 1%R).
    { unfold int_truediv in Hdiv.
      replace (reform_limit =? 0) with false in Hdiv
        by (symmetry; apply Z.eqb_neq; lia).
      pose proof (int_truediv_rounds reform_limit reform_limit ltac:(lia)) as Hr.
      replace (IZR reform_limit / IZR reform_limit)%R with (IZR 1) in Hr.
      2:{ assert (0 < IZR reform_limit)%R by (apply IZR_lt; lia).
          unfold Rdiv. rewrite Rinv_r by lra. reflexivity. }
      destruct (rounds_int prec64 emax64 prec64_pos prec64_lt_emax64 1 _ Hr)
        as (Hv & _); [reflexivity|].
      destruct (SFdiv prec64 emax64 (int_exact reform_limit)
                  (int_exact reform_limit)); try discriminate;
        injection Hdiv as <-; exact Hv. }
    rewrite Hr1, Rmult_1_l in Hm.
    destruct (rounds_int prec64 emax64 prec64_pos prec64_lt_emax64
                (extent - 1) _ Hm) as (Hv & _).
    { change (2 ^ prec64) with (2 ^ 53). lia. }
    assert (extent - 1 <= n <= extent - 1); [|lia].
    apply (py_round_between _ n _ _ Hn). rewrite Hv. lra.
Qed.

(** Two floats to which the same real rounds have the same value. *)
Lemma rounds_same_value (x : R) (f g : spec_float) :
  rounds prec64 emax64 x f -> rounds prec64 emax64 x g -> SF2R f = SF2R g.
Proof.
  intros Hf Hg. destruct (Req_dec x 0) as [Hx|Hx].
  - assert (Hz : forall h, rounds prec64 emax64 x h -> SF2R h = 0%R).
    { intros h [[_ Hh]|[[Hh _]|[Hh _]]]; try lra.
      destruct h; try discriminate; reflexivity. }
    rewrite (Hz f Hf), (Hz g Hg). reflexivity.
  - f_equal. exact (rounds_unique prec64 emax64 prec64_pos x f g Hf Hg Hx).
Qed.

(** The specification's position is one integer at most. *)
Lemma overlay_position_spec_unique (reform_idx reform_limit extent n n' : Z) :
  overlay_position_spec reform_idx reform_limit extent n ->
  overlay_position_spec reform_idx reform_limit extent n' -> n = n'.
Proof.
  intros (r & p & Hr & Hp & Hn) (r' & p' & Hr' & Hp' & Hn').
  pose proof (rounds_same_value _ _ _ Hr Hr') as Er. rewrite <- Er in Hp'.
  pose proof (rounds_same_value _ _ _ Hp Hp') as Ep. rewrite <- Ep in Hn'.
  exact (nearest_even_unique _ _ _ Hn Hn').
Qed.

(** For an index between 0 and the limit, the three operations of the
    code return the position of the specification. *)
Lemma overlay_position_meets_spec (reform_idx reform_limit extent : Z) :
  0 <= reform_idx <= reform_limit -> 0 < reform_limit ->
  1 <= extent < 2 ^ 53 ->
  exists ratio e1 n,
    int_truediv reform_idx reform_limit = Ok ratio
    /\ float_of_int (extent - 1) = Ok e1
    /\ py_round (SFmul prec64 emax64 ratio e1) = Ok n
    /\ overlay_position_spec reform_idx reform_limit extent n
    /\ 0 <= n <= extent - 1.
Proof.
  intros Hidx Hlim Hext.
  destruct (overlay_position_inside _ _ _ Hidx Hlim Hext)
    as (ratio & e1 & n & Hdiv & He1 & Hn & Hbd & _).
  exists ratio, e1, n. repeat split; try assumption; try lia.
  destruct (int_truediv_unit reform_idx reform_limit Hidx Hlim)
    as (ratio' & Hdiv' & Rfin & Rval & _).
  rewrite Hdiv in Hdiv'. injection Hdiv' as <-.
  destruct (float_of_int_exact (extent - 1) ltac:(lia))
    as (e1' & He1' & Efin & Eval & Ev).
  rewrite He1 in He1'. injection He1' as <-.
  exists ratio, (SFmul prec64 emax64 ratio e1). repeat split.
  - pose proof (int_truediv_rounds reform_idx reform_limit ltac:(lia)) as Hr.
    unfold int_truediv in Hdiv.
    replace (reform_limit =? 0) with false in Hdiv
      by (symmetry; apply Z.eqb_neq; lia).
    destruct (SFdiv prec64 emax64 (int_exact reform_idx)
                (int_exact reform_limit)); try discriminate;
      injection Hdiv as <-; exact Hr.
  - rewrite <- Ev.
    exact (SFmul_rounds prec64 emax64 prec64_pos prec64_lt_emax64
             _ _ Rval Rfin Eval Efin).
  - apply (proj1 (py_round_nearest _ _ Hn)).
  - apply (proj2 (py_round_nearest _ _ Hn)).
Qed.

Lemma update_overlay_coords_ok (plane : string)
  (reform_idx reform_limit height width : Z) :
  0 <= reform_idx -> (0 < reform_limit -> reform_idx <= reform_limit) ->
  1 <= height < 2 ^ 53 -> 1 <= width < 2 ^ 53 ->
  exists x1 y1 x2 y2,
    update_overlay_coords plane reform_idx reform_limit (height, width)
    = Ok (x1, y1, x2, y2, 255)
    /\ 0 <= x1 <= width - 1 /\ 0 <= x2 <= width - 1
    /\ 0 <= y1 <= height - 1 /\ 0 <= y2 <= height - 1
    /\ (plane = "Sagittal"%string -> x1 = x2 /\ y1 = 0 /\ y2 = height - 1)
    /\ (plane <> "Sagittal"%string -> y1 = y2 /\ x1 = 0 /\ x2 = width - 1).
Proof.
  intros Hidx Hle Hh Hw. unfold update_overlay_coords.
  assert (Hdw : 0 <= width / 2 <= width - 1).
  { pose proof (Z.div_pos width 2 ltac:(lia) ltac:(lia)).
    pose proof (Z.div_lt width 2 ltac:(lia) ltac:(lia)). lia. }
  assert (Hdh : 0 <= height / 2 <= height - 1).
  { pose proof (Z.div_pos height 2 ltac:(lia) ltac:(lia)).
    pose proof (Z.div_lt height 2 ltac:(lia) ltac:(lia)). lia. }
  destruct (Z.leb_spec reform_limit 0) as [Hl|Hl].
  - destruct (String.eqb_spec plane "Sagittal") as [->|Hp].
    + do 4 eexists. split; [reflexivity|].
      repeat split; try lia; congruence.
    + do 4 eexists. split; [reflexivity|].
      repeat split; try lia; congruence.
  - replace (reform_limit =? 0) with false by (symmetry; apply Z.eqb_neq; lia).
    destruct (String.eqb_spec plane "Sagittal") as [->|Hp].
    + destruct (overlay_position_inside reform_idx reform_limit width
                  ltac:(split; [lia | now apply Hle]) Hl Hw)
        as (ratio & e1 & n & -> & -> & Hn & Hbd & _).
      cbn [bind]. rewrite Hn. cbn [bind].
      do 4 eexists. split; [reflexivity|].
      repeat split; try lia; congruence.
    + destruct (overlay_position_inside reform_idx reform_limit height
                  ltac:(split; [lia | now apply Hle]) Hl Hh)
        as (ratio & e1 & n & -> & -> & Hn & Hbd & _).
      cbn [bind]. rewrite Hn. cbn [bind].
      do 4 eexists. split; [reflexivity|].
      repeat split; try lia; congruence.
Qed.

(** The overlay line never leaves the axial image: for an index between 0
    and the limit (any index when the limit is not positive) and an image
    of at least one row and one column, [update_overlay_coords] returns a
    segment whose four coordinates are inside the image, vertical and of
    full height for the sagittal plane, horizontal and of full width
    otherwise. *)
Theorem update_overlay_coords_inside (plane : string)
  (reform_idx reform_limit height width : Z) :
  0 <= reform_idx -> (0 < reform_limit -> reform_idx <= reform_limit) ->
  1 <= height < 2 ^ 53 -> 1 <= width < 2 ^ 53 ->
  exists x1 y1 x2 y2,
    update_overlay_coords plane reform_idx reform_limit (height, width)
    = Ok (x1, y1, x2, y2, 255)
    /\ 0 <= x1 <= width - 1 /\ 0 <= x2 <= width - 1
    /\ 0 <= y1 <= height - 1 /\ 0 <= y2 <= height - 1
    /\ (plane = "Sagittal"%string -> x1 = x2 /\ y1 = 0 /\ y2 = height - 1)
    /\ (plane <> "Sagittal"%string -> y1 = y2 /\ x1 = 0 /\ x2 = width - 1).
Proof. apply update_overlay_coords_ok. Qed.

(** At the first position the line is on the first column or row, and at
    the last position on the last one: the two ends of the slider reach
    the two edges of the image exactly. *)
Theorem update_overlay_coords_endpoints (reform_limit height width : Z) :
  0 < reform_limit -> 1 <= height < 2 ^ 53 -> 1 <= width < 2 ^ 53 ->
  update_overlay_coords "Sagittal" 0 reform_limit (height, width)
  = Ok (0, 0, 0, height - 1, 255)
  /\ update_overlay_coords "Sagittal" reform_limit reform_limit (height, width)
     = Ok (width - 1, 0, width - 1, height - 1, 255)
  /\ update_overlay_coords "Coronal" 0 reform_limit (height, width)
     = Ok (0, 0, width - 1, 0, 255)
  /\ update_overlay_coords "Coronal" reform_limit reform_limit (height, width)
     = Ok (0, height - 1, width - 1, height - 1, 255).
Proof.
  intros Hl Hh Hw. unfold update_overlay_coords.
  replace (reform_limit <=? 0) with false by (symmetry; apply Z.leb_gt; lia).
  replace (reform_limit =? 0) with false by (symmetry; apply Z.eqb_neq; lia).
  cbn [String.eqb Ascii.eqb Bool.eqb andb].
  repeat split.
  - destruct (overlay_position_inside 0 reform_limit width ltac:(lia) Hl Hw)
      as (ratio & e1 & n & -> & -> & Hn & _ & H0 & _).
    cbn [bind]. rewrite Hn. cbn [bind]. now rewrite H0.
  - destruct (overlay_position_inside reform_limit reform_limit width
                ltac:(lia) Hl Hw)
      as (ratio & e1 & n & -> & -> & Hn & _ & _ & H1).
    cbn [bind]. rewrite Hn. cbn [bind]. now rewrite H1.
  - destruct (overlay_position_inside 0 reform_limit height ltac:(lia) Hl Hh)
      as (ratio & e1 & n & -> & -> & Hn & _ & H0 & _).
    cbn [bind]. rewrite Hn. cbn [bind]. now rewrite H0.
  - destruct (overlay_position_inside reform_limit reform_limit height
                ltac:(lia) Hl Hh)
      as (ratio & e1 & n & -> & -> & Hn & _ & _ & H1).
    cbn [bind]. rewrite Hn. cbn [bind]. now rewrite H1.
Qed.

Lemma update_overlay_coords_inside_witness :
  exists x1 y1 x2 y2,
    update_overlay_coords "Sagittal" 1 2 (2, 3) = Ok (x1, y1, x2, y2, 255)
    /\ 0 <= x1 <= 3 - 1.
Proof.
  destruct (update_overlay_coords_inside "Sagittal" 1 2 2 3
              ltac:(lia) ltac:(lia) ltac:(lia) ltac:(lia))
    as (x1 & y1 & x2 & y2 & H & Hx & _).
  exists x1, y1, x2, y2. split; assumption.
Defined.

Lemma update_overlay_coords_endpoints_witness :
  update_overlay_coords "Sagittal" 511 511 (512, 512)
  = Ok (511, 0, 511, 511, 255).
Proof.
  exact (proj1 (proj2 (update_overlay_coords_endpoints 511 512 512
                         ltac:(lia) ltac:(lia) ltac:(lia)))).
Defined.

Lemma extract_plane_some {A : Type} (d : A) (v : ndarray3 A) (plane : string)
  (index : Z) :
  In plane ["Axial"; "Sagittal"; "Coronal"]%string ->
  0 <= index_limit v plane ->
  exists img, extract_plane d v plane index = Ok img
              /\ (plane = "Axial"%string ->
                  shape2 img = (snd (fst (shape3 v)), snd (shape3 v))).
Proof.
  intros Hplane Hlim.
  unfold extract_plane, index_limit, plane_limit, index_axis0, index_axis1,
    index_axis2 in *.
  destruct (shape3 v) as [[zd yd] xd].
  destruct Hplane as [<- | [<- | [<- | []]]];
    cbn [String.eqb Ascii.eqb Bool.eqb andb] in *;
    rewrite norm_index_clamp by lia; cbn [bind]; eexists;
    (split; [reflexivity|]); try discriminate.
  intros _. reflexivity.
Qed.

Lemma window_level_image_shape (img : ndarray2 spec_float) (ww wl : spec_float) :
  shape2 (window_level_image img ww wl) = shape2 img.
Proof. unfold window_level_image. destruct (SFeqb _ _); reflexivity. Qed.

Lemma round_num_finite (v : pynum) :
  finite_num v = true -> exists n, round_num v = Ok n.
Proof.
  destruct v as [n|x]; cbn [finite_num round_num].
  - intros _. now exists n.
  - apply py_round_finite.
Qed.

(** [refresh_images] does not raise on a volume with no empty axis, one
    of the two planes of the window and slider values that are numbers:
    the indices it uses are inside the volume and the overlay line is
    inside the axial image.  It returns an axial image of the shape
    [(Y, X)] of a plane of the volume, stores the clamped position in the
    dictionary and in the slider, whose range it sets to the limit of the
    plane, and draws the line inside the image. *)
Theorem refresh_images_returns
  (volume : ndarray3 spec_float) (default_ww default_wl : spec_float)
  (ww_slider_max wl_min wl_max : Z) (val_dict : Values) (window : Window)
  (zd yd xd : nat) :
  shape3 volume = (zd, yd, xd) ->
  (0 < zd)%nat -> 0 < Z.of_nat yd < 2 ^ 53 -> 0 < Z.of_nat xd < 2 ^ 53 ->
  In (dict_get (v_PLANE val_dict) default_plane) ["Sagittal"; "Coronal"]%string ->
  finite_num (dict_get (v_AXIAL_SLICE val_dict) (PyInt 0)) = true ->
  finite_num (dict_get (v_REFORM_SLICE val_dict)
                (PyInt (reformat_default volume))) = true ->
  finite_num (dict_get (v_WW val_dict) (PyFloat default_ww)) = true ->
  finite_num (dict_get (v_WL val_dict) (PyFloat default_wl)) = true ->
  1 <= ww_slider_max < 2 ^ 53 ->
  - 2 ^ 53 < wl_min -> wl_min <= wl_max -> wl_max < 2 ^ 53 ->
  exists val_dict' window' display reform_idx x1 y1 x2 y2,
    refresh_images volume default_ww default_wl ww_slider_max wl_min wl_max
      val_dict window
    = Ok (val_dict', window', display)
    /\ shape2 (axial_img display) = (yd, xd)
    /\ v_REFORM_SLICE val_dict' = Some (PyInt reform_idx)
    /\ w_REFORM_SLICE window' = reform_idx
    /\ w_REFORM_SLICE_range window'
       = (0, plane_limit volume (dict_get (v_PLANE val_dict) default_plane))
    /\ 0 <= reform_idx
       <= plane_limit volume (dict_get (v_PLANE val_dict) default_plane)
    /\ overlay display = (x1, y1, x2, y2, 255)
    /\ 0 <= x1 < Z.of_nat xd /\ 0 <= x2 < Z.of_nat xd
    /\ 0 <= y1 < Z.of_nat yd /\ 0 <= y2 < Z.of_nat yd.
Proof.
  intros Hs Hz Hy Hx Hplane Ha Hr Hw Hl HM Hlo Hlohi Hhi.
  unfold refresh_images, parse_values.
  destruct (round_num_finite _ Ha) as [a ->].
  destruct (round_num_finite _ Hr) as [r ->].
  destruct (round_num_finite _ Hw) as [w ->].
  destruct (round_num_finite _ Hl) as [l ->].
  cbn [bind]. unfold update_reformat_slider.
  set (plane := dict_get (v_PLANE val_dict) default_plane) in *.
  set (limit := plane_limit volume plane).
  assert (Hlimit : 0 <= limit).
  { unfold limit, plane_limit. rewrite Hs.
    destruct (plane =? "Sagittal")%string; lia. }
  rewrite clamp_clamp.
  pose proof (clamp_in_range r limit Hlimit) as Hrc.
  set (ridx := clamp r 0 limit) in *.
  assert (Hzl : 0 <= index_limit volume "Axial").
  { unfold index_limit. rewrite Hs. cbn. lia. }
  destruct (extract_plane_some (S754_zero false) volume "Axial"
              (clamp a 0 (z_dim volume - 1)) ltac:(now left) Hzl)
    as (aimg & -> & Hashape).
  specialize (Hashape eq_refl). rewrite Hs in Hashape. cbn [fst snd] in Hashape.
  assert (Hpl : 0 <= index_limit volume plane).
  { unfold index_limit, plane_limit in *. rewrite Hs in *.
    destruct Hplane as [<- | [<- | []]]; cbn; lia. }
  destruct (extract_plane_some (S754_zero false) volume plane ridx
              ltac:(destruct Hplane as [<- | [<- | []]]; cbn; tauto) Hpl)
    as (rimg & -> & _).
  cbn [bind].
  destruct (float_of_int_exact (clamp w 1 ww_slider_max)
              ltac:(unfold clamp; lia)) as (wf & -> & _).
  destruct (float_of_int_exact (clamp l wl_min wl_max)
              ltac:(unfold clamp; lia)) as (lf & -> & _).
  cbn [bind]. rewrite window_level_image_shape, Hashape. cbn [fst snd].
  destruct (update_overlay_coords_ok plane ridx limit (Z.of_nat yd) (Z.of_nat xd)
              ltac:(lia) ltac:(lia) ltac:(lia) ltac:(lia))
    as (x1 & y1 & x2 & y2 & -> & Hx1 & Hx2 & Hy1 & Hy2 & _).
  cbn [bind].
  do 3 eexists. exists ridx, x1, y1, x2, y2.
  split; [reflexivity|]. cbn [axial_img overlay v_REFORM_SLICE w_REFORM_SLICE
    w_REFORM_SLICE_range].
  rewrite window_level_image_shape.
  repeat split; try assumption; try reflexivity; lia.
Qed.

Lemma refresh_images_returns_witness :
  exists val_dict' window' display reform_idx x1 y1 x2 y2,
    refresh_images volume_1x2x3 (f64_lit 400) (f64_lit 40) 2000 (-1200) 1600
      sample_values sample_window
    = Ok (val_dict', window', display)
    /\ shape2 (axial_img display) = (2, 3)%nat
    /\ v_REFORM_SLICE val_dict' = Some (PyInt reform_idx)
    /\ w_REFORM_SLICE window' = reform_idx
    /\ w_REFORM_SLICE_range window'
       = (0, plane_limit volume_1x2x3
               (dict_get (v_PLANE sample_values) default_plane))
    /\ 0 <= reform_idx
       <= plane_limit volume_1x2x3
            (dict_get (v_PLANE sample_values) default_plane)
    /\ overlay display = (x1, y1, x2, y2, 255)
    /\ 0 <= x1 < Z.of_nat 3 /\ 0 <= x2 < Z.of_nat 3
    /\ 0 <= y1 < Z.of_nat 2 /\ 0 <= y2 < Z.of_nat 2.
Proof.
  apply (refresh_images_returns volume_1x2x3 (f64_lit 400) (f64_lit 40)
           2000 (-1200) 1600 sample_values sample_window 1 2 3);
    try reflexivity; try (cbn; lia).
  right. left. reflexivity.
Defined.

(** C9. For an index between 0 and a positive limit and an axial image of
    at least one row and one column (fewer than [2^53] of each), the line
    is the vertical segment [(x, 0, x, height-1)] for the sagittal plane
    and the horizontal segment [(0, y, width-1, y)] for the coronal plane,
    where [x] and [y] are the one integer that the specification's
    [round((reform_idx / reform_limit) * (extent - 1))] denotes, for the
    width and the height: the quotient and the product rounded to
    binary64, then the nearest integer, the even one at a tie; [x] and
    [y] lie inside the image.  When the limit is zero or negative the line
    is the centred vertical, respectively horizontal, one, whatever the
    index and the shape. *)
Theorem update_overlay_coords_spec (reform_idx reform_limit height width : Z) :
  (0 < reform_limit -> 0 <= reform_idx <= reform_limit ->
   1 <= height < 2 ^ 53 -> 1 <= width < 2 ^ 53 ->
   exists x y,
     update_overlay_coords "Sagittal" reform_idx reform_limit (height, width)
     = Ok (x, 0, x, height - 1, 255)
     /\ update_overlay_coords "Coronal" reform_idx reform_limit (height, width)
        = Ok (0, y, width - 1, y, 255)
     /\ overlay_position_spec reform_idx reform_limit width x
     /\ overlay_position_spec reform_idx reform_limit height y
     /\ (forall n, overlay_position_spec reform_idx reform_limit width n
                   -> n = x)
     /\ (forall n, overlay_position_spec reform_idx reform_limit height n
                   -> n = y)
     /\ 0 <= x <= width - 1 /\ 0 <= y <= height - 1)
  /\ (reform_limit <= 0 ->
      update_overlay_coords "Sagittal" reform_idx reform_limit (height, width)
      = Ok (width / 2, 0, width / 2, height - 1, 255)
      /\ update_overlay_coords "Coronal" reform_idx reform_limit (height, width)
         = Ok (0, height / 2, width - 1, height / 2, 255)).
Proof.
  split.
  - intros Hlim Hidx Hh Hw.
    destruct (overlay_position_meets_spec _ _ _ Hidx Hlim Hw)
      as (ratio & w1 & x & Hdiv & Hw1 & Hx & Sx & Bx).
    destruct (overlay_position_meets_spec _ _ _ Hidx Hlim Hh)
      as (ratio' & h1 & y & Hdiv' & Hh1 & Hy & Sy & By).
    rewrite Hdiv in Hdiv'. injection Hdiv' as <-.
    exists x, y. unfold update_overlay_coords.
    replace (reform_limit <=? 0) with false by (symmetry; apply Z.leb_gt; lia).
    replace (reform_limit =? 0) with false by (symmetry; apply Z.eqb_neq; lia).
    cbn [String.eqb Ascii.eqb Bool.eqb andb].
    rewrite Hdiv. cbn [bind]. rewrite Hw1, Hh1. cbn [bind].
    rewrite Hx, Hy. cbn [bind].
    split; [reflexivity|]. split; [reflexivity|].
    split; [exact Sx|]. split; [exact Sy|].
    split; [intros n Hn; exact (overlay_position_spec_unique _ _ _ _ _ Hn Sx)|].
    split; [intros n Hn; exact (overlay_position_spec_unique _ _ _ _ _ Hn Sy)|].
    split; assumption.
  - intros Hneg. unfold update_overlay_coords.
    replace (reform_limit <=? 0) with true by (symmetry; apply Z.leb_le; lia).
    split; reflexivity.
Qed.

(** The index 1 of limit 2 on an image of 5 rows and 4 columns. *)
Lemma update_overlay_coords_spec_witness :
  exists x y,
    update_overlay_coords "Sagittal" 1 2 (5, 4) = Ok (x, 0, x, 5 - 1, 255)
    /\ update_overlay_coords "Coronal" 1 2 (5, 4) = Ok (0, y, 4 - 1, y, 255)
    /\ overlay_position_spec 1 2 4 x
    /\ overlay_position_spec 1 2 5 y
    /\ (forall n, overlay_position_spec 1 2 4 n -> n = x)
    /\ (forall n, overlay_position_spec 1 2 5 n -> n = y)
    /\ 0 <= x <= 4 - 1 /\ 0 <= y <= 5 - 1.
Proof.
  apply (proj1 (update_overlay_coords_spec 1 2 5 4)); lia.
Defined.

(** An index far beyond the limit: the quotient of the two integers is
    beyond the binary64 range and the division raises, where the
    specification's formula denotes an integer. *)
Lemma update_overlay_coords_spec_counterexample :
  0 < 3
  /\ update_overlay_coords "Sagittal" (2 ^ 1100) 3 (4, 2) = Raise OverflowError
  /\ update_overlay_coords "Coronal" (2 ^ 1100) 3 (4, 2) = Raise OverflowError.
Proof. repeat split; vm_compute; reflexivity. Qed.

Local Open Scope Z_scope.

(** * Window/level at the values of the sliders *)

(** A width below 1, negative or minus infinity is replaced by 1. *)
Theorem window_level_image_floor (img : ndarray2 spec_float) (ww wl : spec_float) :
  SFltb ww (f64_lit 1) = true ->
  window_level_image img ww wl = window_level_image img (f64_lit 1) wl.
Proof.
  intros H. unfold window_level_image, py_max. rewrite H. reflexivity.
Qed.

Lemma window_level_image_floor_witness :
  window_level_image image_1x2 (f64_lit (-7)) (f64_lit 3)
  = window_level_image image_1x2 (f64_lit 1) (f64_lit 3).
Proof. apply window_level_image_floor. reflexivity. Defined.

Section Dyadic.
Variables prec emax : Z.
Hypothesis Hprec : 0 < prec.
Hypothesis Hmax : prec < emax.

Local Open Scope R_scope.

(** A rounding of [k * 2^e0], [k] with fewer than [prec] digits, is
    exact, zero included. *)
Lemma rounds_dyadic (x : R) (f : spec_float) (k e0 : Z) :
  rounds prec emax x f -> x = IZR k * bpow e0 ->
  (Z.abs k < 2 ^ prec)%Z -> (emin prec emax <= e0 <= emax - prec)%Z ->
  SF2R f = x /\ valid_binary prec emax f = true /\ is_finite f = true.
Proof.
  intros Hr Hx Hk He. destruct (Z.eq_dec k 0) as [->|Hne].
  - rewrite Rmult_0_l in Hx. subst x. apply rounds_zero in Hr.
    destruct f; try discriminate. repeat split; reflexivity.
  - destruct (rounds_exact prec emax Hprec Hmax x f k e0 Hr Hx Hne Hk He)
      as (H1 & H2 & H3 & _).
    repeat split; assumption.
Qed.

(** Two roundings of ordered reals between two integers are ordered
    floats between these integers. *)
Lemma rounds_step (x y : R) (f g : spec_float) (lo hi : Z) :
  rounds prec emax x f -> rounds prec emax y g ->
  IZR lo <= x -> x <= y -> y <= IZR hi ->
  (Z.abs lo < 2 ^ prec)%Z -> (Z.abs hi < 2 ^ prec)%Z ->
  SF2R f <= SF2R g
  /\ (is_finite f = true /\ valid_binary prec emax f = true
      /\ IZR lo <= SF2R f <= IZR hi)
  /\ (is_finite g = true /\ valid_binary prec emax g = true
      /\ IZR lo <= SF2R g <= IZR hi).
Proof.
  intros Hf Hg H1 H2 H3 Hl Hh.
  pose proof (rounds_between prec emax Hprec Hmax x f lo hi Hf
                ltac:(lra) Hl Hh) as (Ff & Fv & Fb).
  pose proof (rounds_between prec emax Hprec Hmax y g lo hi Hg
                ltac:(lra) Hl Hh) as (Gf & Gv & Gb).
  split; [|split; repeat split; try assumption; lra].
  apply (SFleb_le prec emax); try assumption.
  now apply (rounds_mono prec emax Hprec x y).
Qed.

End Dyadic.

Lemma f32_of_f64_dyadic (x : spec_float) (k e0 : Z) :
  is_finite x = true -> SF2R x = (IZR k * bpow e0)%R ->
  Z.abs k < 2 ^ 24 -> -149 <= e0 <= 104 ->
  SF2R (f32_of_f64 x) = SF2R x
  /\ valid_binary prec32 emax32 (f32_of_f64 x) = true
  /\ is_finite (f32_of_f64 x) = true.
Proof.
  intros Hf Hx Hk He.
  destruct x as [s|s| |s m e]; try discriminate.
  - repeat split; reflexivity.
  - cbn [f32_of_f64].
    apply (rounds_dyadic prec32 emax32 prec32_pos prec32_lt_emax32 _ _ k e0);
      try assumption.
    apply binary_round_rounds.
Qed.

Section SliderWindow.
(** The width and the level that the sliders give: integers, the width
    at least 1, both small enough for the bounds of the window to be
    [float32] numbers. *)
Variables W L : Z.
Hypothesis HW : 1 <= W.
Hypothesis HWL : 2 * Z.abs L + W < 2 ^ 24.

Local Notation "'low'" := (window_low (f64_lit W) (f64_lit L)).
Local Notation "'high'" := (window_high (f64_lit W) (f64_lit L)).
Local Notation "'lo32'" := (f32_of_f64 (window_low (f64_lit W) (f64_lit L))).
Local Notation "'hi32'" := (f32_of_f64 (window_high (f64_lit W) (f64_lit L))).
Local Notation "'d32'" :=
  (f32_of_f64 (SFsub prec64 emax64 (window_high (f64_lit W) (f64_lit L))
                 (window_low (f64_lit W) (f64_lit L)))).

Local Open Scope R_scope.

Lemma py_max_width : py_max (f64_lit W) (f64_lit 1) = f64_lit W.
Proof.
  unfold py_max.
  destruct (f64_lit_int W ltac:(lia)) as (Wv & Wval & Wfin).
  destruct (f64_lit_int 1 ltac:(lia)) as (Ov & Oval & Ofin).
  destruct (SFltb (f64_lit W) (f64_lit 1)) eqn:H; [|reflexivity].
  apply (SFltb_lt prec64 emax64) in H; try assumption.
  rewrite Wv, Ov in H. apply lt_IZR in H. lia.
Qed.

Lemma half_bpow (k : Z) : IZR k / 2 = IZR k * bpow (-1).
Proof. rewrite bpow_m1. reflexivity. Qed.

Lemma half_width_spec :
  SF2R (SFdiv prec64 emax64 (f64_lit W) (f64_lit 2)) = IZR W / 2
  /\ valid_binary prec64 emax64 (SFdiv prec64 emax64 (f64_lit W) (f64_lit 2)) = true
  /\ is_finite (SFdiv prec64 emax64 (f64_lit W) (f64_lit 2)) = true.
Proof.
  destruct (f64_lit_int W ltac:(lia)) as (Wv & Wval & Wfin).
  pose proof (SFdiv_rounds prec64 emax64 prec64_pos (f64_lit W) (f64_lit 2)
                Wfin eq_refl eq_refl) as Hr.
  rewrite Wv in Hr. replace (SF2R (f64_lit 2)) with 2 in Hr
    by (symmetry; apply (f64_lit_int 2); reflexivity).
  apply (rounds_dyadic prec64 emax64 prec64_pos prec64_lt_emax64 _ _ W (-1));
    try assumption.
  - apply half_bpow.
  - change (2 ^ prec64)%Z with (2 ^ 53)%Z. lia.
  - cbv. split; discriminate.
Qed.

Lemma window_low_spec :
  SF2R low = IZR (2 * L - W) / 2
  /\ valid_binary prec64 emax64 low = true /\ is_finite low = true.
Proof.
  unfold window_low. rewrite py_max_width.
  destruct (f64_lit_int L ltac:(lia)) as (Lv & Lval & Lfin).
  destruct half_width_spec as (Hv & Hval & Hfin).
  pose proof (SFsub_rounds prec64 emax64 _ _ Lval Lfin Hval Hfin) as Hr.
  rewrite Lv, Hv in Hr.
  assert (Hx : IZR L - IZR W / 2 = IZR (2 * L - W) / 2).
  { rewrite minus_IZR, mult_IZR. lra. }
  rewrite Hx in Hr.
  apply (rounds_dyadic prec64 emax64 prec64_pos prec64_lt_emax64 _ _
           (2 * L - W) (-1)); try assumption.
  - apply half_bpow.
  - change (2 ^ prec64)%Z with (2 ^ 53)%Z. lia.
  - cbv. split; discriminate.
Qed.

Lemma window_high_spec :
  SF2R high = IZR (2 * L + W) / 2
  /\ valid_binary prec64 emax64 high = true /\ is_finite high = true.
Proof.
  unfold window_high. rewrite py_max_width.
  destruct (f64_lit_int L ltac:(lia)) as (Lv & Lval & Lfin).
  destruct half_width_spec as (Hv & Hval & Hfin).
  pose proof (SFadd_rounds prec64 emax64 _ _ Lval Lfin Hval Hfin) as Hr.
  rewrite Lv, Hv in Hr.
  assert (Hx : IZR L + IZR W / 2 = IZR (2 * L + W) / 2).
  { rewrite plus_IZR, mult_IZR. lra. }
  rewrite Hx in Hr.
  apply (rounds_dyadic prec64 emax64 prec64_pos prec64_lt_emax64 _ _
           (2 * L + W) (-1)); try assumption.
  - apply half_bpow.
  - change (2 ^ prec64)%Z with (2 ^ 53)%Z. lia.
  - cbv. split; discriminate.
Qed.

Lemma lo32_spec :
  SF2R lo32 = IZR (2 * L - W) / 2
  /\ valid_binary prec32 emax32 lo32 = true /\ is_finite lo32 = true.
Proof.
  destruct window_low_spec as (Hv & Hval & Hfin).
  destruct (f32_of_f64_dyadic low (2 * L - W) (-1) Hfin) as (H1 & H2 & H3).
  - rewrite Hv. apply half_bpow.
  - lia.
  - lia.
  - rewrite H1, Hv. repeat split; assumption.
Qed.

Lemma hi32_spec :
  SF2R hi32 = IZR (2 * L + W) / 2
  /\ valid_binary prec32 emax32 hi32 = true /\ is_finite hi32 = true.
Proof.
  destruct window_high_spec as (Hv & Hval & Hfin).
  destruct (f32_of_f64_dyadic high (2 * L + W) (-1) Hfin) as (H1 & H2 & H3).
  - rewrite Hv. apply half_bpow.
  - lia.
  - lia.
  - rewrite H1, Hv. repeat split; assumption.
Qed.

Lemma d32_spec :
  SF2R d32 = IZR W
  /\ valid_binary prec32 emax32 d32 = true /\ is_finite d32 = true
  /\ is_zero d32 = false.
Proof.
  destruct window_low_spec as (Lv & Lval & Lfin).
  destruct window_high_spec as (Hv & Hval & Hfin).
  pose proof (SFsub_rounds prec64 emax64 _ _ Hval Hfin Lval Lfin) as Hr.
  rewrite Lv, Hv in Hr.
  assert (Hx : IZR (2 * L + W) / 2 - IZR (2 * L - W) / 2 = IZR W).
  { rewrite plus_IZR, minus_IZR, mult_IZR. lra. }
  rewrite Hx in Hr.
  destruct (rounds_int prec64 emax64 prec64_pos prec64_lt_emax64 W _ Hr)
    as (Dv & Dval & Dfin & _).
  { change (2 ^ prec64)%Z with (2 ^ 53)%Z. lia. }
  destruct (f32_of_f64_dyadic _ W 0 Dfin) as (H1 & H2 & H3).
  - rewrite Dv, bpow_0. lra.
  - lia.
  - lia.
  - rewrite H1, Dv. repeat split; try assumption.
    destruct d32; try discriminate; try reflexivity.
    cbn [SF2R] in H1. rewrite Dv in H1. apply eq_IZR in H1. lia.
Qed.

Lemma window_bounds_differ : SFeqb high low = false.
Proof.
  destruct window_low_spec as (Lv & Lval & Lfin).
  destruct window_high_spec as (Hv & Hval & Hfin).
  destruct (SFeqb high low) eqn:H; [|reflexivity].
  apply (SFeqb_eq prec64 emax64) in H; try assumption.
  rewrite Lv, Hv, plus_IZR, minus_IZR in H.
  assert (1 <= IZR W) by (apply IZR_le; lia). lra.
Qed.

End SliderWindow.

Section SliderPixels.
Variables W L : Z.
Hypothesis HW : 1 <= W.
Hypothesis HWL : 2 * Z.abs L + W < 2 ^ 24.

Local Notation "'low'" := (window_low (f64_lit W) (f64_lit L)).
Local Notation "'high'" := (window_high (f64_lit W) (f64_lit L)).
Local Notation "'lo32'" := (f32_of_f64 (window_low (f64_lit W) (f64_lit L))).
Local Notation "'hi32'" := (f32_of_f64 (window_high (f64_lit W) (f64_lit L))).
Local Notation "'d32'" :=
  (f32_of_f64 (SFsub prec64 emax64 (window_high (f64_lit W) (f64_lit L))
                 (window_low (f64_lit W) (f64_lit L)))).
Local Notation "'scale' c" :=
  (SFmul prec32 emax32
     (SFdiv prec32 emax32 (SFsub prec32 emax32 c lo32) d32) (f32_lit 255))
  (at level 10).
Local Notation "'lo'" := (IZR (2 * L - W) / 2)%R.
Local Notation "'hi'" := (IZR (2 * L + W) / 2)%R.

Local Open Scope R_scope.

Lemma lo_hi_width : hi - lo = IZR W.
Proof. rewrite plus_IZR, minus_IZR, mult_IZR. lra. Qed.

Lemma width_pos : 1 <= IZR W.
Proof. apply IZR_le. lia. Qed.

Lemma window_level_pixel_unfold (v : spec_float) :
  window_level_pixel low high v = astype_uint8 (scale (np_clip v lo32 hi32)).
Proof. reflexivity. Qed.

(** The three roundings after the clip keep the order of two clipped
    cells and stay between 0 and 255. *)
Lemma scale_spec (c1 c2 : spec_float) :
  is_finite c1 = true -> valid_binary prec32 emax32 c1 = true ->
  is_finite c2 = true -> valid_binary prec32 emax32 c2 = true ->
  lo <= SF2R c1 -> SF2R c1 <= SF2R c2 -> SF2R c2 <= hi ->
  is_finite (scale c1) = true /\ is_finite (scale c2) = true
  /\ 0 <= SF2R (scale c1) /\ SF2R (scale c1) <= SF2R (scale c2)
  /\ SF2R (scale c2) <= 255.
Proof.
  intros F1 V1 F2 V2 H1 H12 H2.
  destruct (lo32_spec W L HW HWL) as (Lv & Lval & Lfin).
  destruct (d32_spec W L HW HWL) as (Dv & Dval & Dfin & Dz).
  destruct (f32_lit_int 255 ltac:(lia)) as (Cv & Cval & Cfin).
  pose proof lo_hi_width as Hw. pose proof width_pos as Hpos.
  (* the subtraction *)
  pose proof (SFsub_rounds prec32 emax32 _ _ V1 F1 Lval Lfin) as S1.
  pose proof (SFsub_rounds prec32 emax32 _ _ V2 F2 Lval Lfin) as S2.
  rewrite Lv in S1, S2.
  destruct (rounds_step prec32 emax32 prec32_pos prec32_lt_emax32
              _ _ _ _ 0 W S1 S2) as (Hs & (Sf1 & Sv1 & Sb1) & (Sf2 & Sv2 & Sb2));
    try lra; try (change (2 ^ prec32)%Z with (2 ^ 24)%Z; lia).
  (* the division *)
  pose proof (SFdiv_rounds prec32 emax32 prec32_pos _ _ Sf1 Dfin Dz) as Q1.
  pose proof (SFdiv_rounds prec32 emax32 prec32_pos _ _ Sf2 Dfin Dz) as Q2.
  rewrite Dv in Q1, Q2.
  assert (Hdiv : forall a b, a <= b -> a / IZR W <= b / IZR W).
  { intros a b Hab. unfold Rdiv. apply Rmult_le_compat_r; [|exact Hab].
    apply Rlt_le, Rinv_0_lt_compat. lra. }
  assert (Hone : IZR W / IZR W = 1) by (field; lra).
  assert (Hzero : 0 / IZR W = 0) by (unfold Rdiv; lra).
  destruct (rounds_step prec32 emax32 prec32_pos prec32_lt_emax32
              _ _ _ _ 0 1 Q1 Q2) as (Hq & (Qf1 & Qv1 & Qb1) & (Qf2 & Qv2 & Qb2)).
  { rewrite <- Hzero. apply Hdiv. lra. }
  { apply Hdiv. lra. }
  { rewrite <- Hone. apply Hdiv. lra. }
  { reflexivity. }
  { reflexivity. }
  (* the multiplication *)
  pose proof (SFmul_rounds prec32 emax32 prec32_pos prec32_lt_emax32
                _ _ Qv1 Qf1 Cval Cfin) as P1.
  pose proof (SFmul_rounds prec32 emax32 prec32_pos prec32_lt_emax32
                _ _ Qv2 Qf2 Cval Cfin) as P2.
  rewrite Cv in P1, P2.
  destruct (rounds_step prec32 emax32 prec32_pos prec32_lt_emax32
              _ _ _ _ 0 255 P1 P2) as (Hp & (Pf1 & Pv1 & Pb1) & (Pf2 & Pv2 & Pb2));
    try lra; try reflexivity.
  repeat split; try assumption; lra.
Qed.

Lemma trunc_byte (p : spec_float) :
  is_finite p = true -> 0 <= SF2R p <= 255 ->
  astype_uint8 p = trunc_float p /\ (0 <= trunc_float p <= 255)%Z.
Proof.
  intros Hf [H0 H1].
  pose proof (trunc_float_ge p 0 Hf H0 ltac:(lia)) as Hge.
  destruct (trunc_float_bounds p Hf) as [Hb _]. specialize (Hb H0).
  assert (Hle : (trunc_float p <= 255)%Z).
  { apply le_IZR. lra. }
  split; [|lia]. unfold astype_uint8. apply Z.mod_small. lia.
Qed.

Lemma scale_at_low (c : spec_float) :
  is_finite c = true -> valid_binary prec32 emax32 c = true ->
  SF2R c = lo -> astype_uint8 (scale c) = 0%Z.
Proof.
  intros Fc Vc Hc.
  destruct (lo32_spec W L HW HWL) as (Lv & Lval & Lfin).
  destruct (hi32_spec W L HW HWL) as (Hv & Hval & Hfin).
  pose proof lo_hi_width as Hw. pose proof width_pos as Hpos.
  destruct (scale_spec c c Fc Vc Fc Vc) as (Pf & _ & P0 & _ & _); try lra.
  destruct (scale_spec c lo32 Fc Vc Lfin Lval) as (_ & _ & _ & Hle & _); try lra.
  assert (Hz : SF2R (scale lo32) = 0).
  { pose proof (SFsub_rounds prec32 emax32 _ _ Lval Lfin Lval Lfin) as S.
    rewrite Rminus_diag in S. apply rounds_zero in S.
    destruct (SFsub prec32 emax32 lo32 lo32) as [s| | |]; try discriminate.
    destruct (d32_spec W L HW HWL) as (_ & _ & Dfin & Dz).
    destruct d32 as [|s'| |s' m e]; try discriminate. reflexivity. }
  destruct (trunc_float_bounds (scale c) Pf) as [Hb _].
  destruct (trunc_byte (scale c) Pf ltac:(lra)) as [-> Hr].
  specialize (Hb P0). apply Z.le_antisymm; [|lia]. apply le_IZR. lra.
Qed.

Lemma scale_at_high (c : spec_float) :
  is_finite c = true -> valid_binary prec32 emax32 c = true ->
  SF2R c = hi -> astype_uint8 (scale c) = 255%Z.
Proof.
  intros Fc Vc Hc.
  destruct (lo32_spec W L HW HWL) as (Lv & Lval & Lfin).
  destruct (d32_spec W L HW HWL) as (Dv & Dval & Dfin & Dz).
  destruct (f32_lit_int 255 ltac:(lia)) as (Cv & Cval & Cfin).
  pose proof lo_hi_width as Hw. pose proof width_pos as Hpos.
  pose proof (SFsub_rounds prec32 emax32 _ _ Vc Fc Lval Lfin) as S.
  rewrite Lv, Hc, Hw in S.
  destruct (rounds_int prec32 emax32 prec32_pos prec32_lt_emax32 W _ S)
    as (Sv & Sval & Sfin & _).
  { change (2 ^ prec32)%Z with (2 ^ 24)%Z. lia. }
  pose proof (SFdiv_rounds prec32 emax32 prec32_pos _ _ Sfin Dfin Dz) as Q.
  rewrite Sv, Dv in Q.
  replace (IZR W / IZR W) with (IZR 1) in Q by (field; lra).
  destruct (rounds_int prec32 emax32 prec32_pos prec32_lt_emax32 1 _ Q)
    as (Qv & Qval & Qfin & _); [reflexivity|].
  pose proof (SFmul_rounds prec32 emax32 prec32_pos prec32_lt_emax32
                _ _ Qval Qfin Cval Cfin) as P.
  rewrite Qv, Cv, Rmult_1_l in P.
  destruct (rounds_int prec32 emax32 prec32_pos prec32_lt_emax32 255 _ P)
    as (Pv & Pval & Pfin & _); [reflexivity|].
  destruct (trunc_byte _ Pfin ltac:(rewrite Pv; lra)) as [-> Hr].
  destruct (trunc_float_bounds _ Pfin) as [Hb _].
  rewrite Pv in Hb. specialize (Hb ltac:(lra)).
  assert (IZR 255 < IZR (trunc_float (scale c)) + 1) by lra.
  rewrite <- plus_IZR in H. apply lt_IZR in H. lia.
Qed.

Lemma np_clip_value (v : spec_float) :
  valid_binary prec32 emax32 v = true -> is_nan v = false ->
  is_finite (np_clip v lo32 hi32) = true
  /\ valid_binary prec32 emax32 (np_clip v lo32 hi32) = true
  /\ SF2R (np_clip v lo32 hi32) = clipR lo hi v.
Proof.
  intros Vv Nv.
  destruct (lo32_spec W L HW HWL) as (Lv & Lval & Lfin).
  destruct (hi32_spec W L HW HWL) as (Hv & Hval & Hfin).
  pose proof lo_hi_width as Hw. pose proof width_pos as Hpos.
  assert (Hhl : SFltb hi32 lo32 = false).
  { destruct (SFltb hi32 lo32) eqn:H; [|reflexivity].
    apply (SFltb_lt prec32 emax32) in H; try assumption. lra. }
  unfold np_clip.
  replace (is_nan lo32) with false by (destruct lo32; try discriminate; reflexivity).
  replace (is_nan hi32) with false by (destruct hi32; try discriminate; reflexivity).
  destruct (is_finite v) eqn:Fv.
  - assert (HclipR : clipR lo hi v = Rmax lo (Rmin (SF2R v) hi)).
    { destruct v; try discriminate; reflexivity. }
    rewrite HclipR.
    destruct (SFltb v lo32) eqn:H1.
    + rewrite Hhl. apply (SFltb_lt prec32 emax32) in H1; try assumption.
      repeat split; try assumption. rewrite Lv.
      unfold Rmax, Rmin. repeat destruct (Rle_dec _ _); lra.
    + assert (Hge : lo <= SF2R v).
      { destruct (Rle_or_lt lo (SF2R v)) as [H|H]; [exact H|].
        rewrite <- Lv in H. apply (SFltb_lt prec32 emax32) in H; try assumption.
        congruence. }
      destruct (SFltb hi32 v) eqn:H2.
      * apply (SFltb_lt prec32 emax32) in H2; try assumption.
        repeat split; try assumption. rewrite Hv.
        unfold Rmax, Rmin. repeat destruct (Rle_dec _ _); lra.
      * assert (Hle : SF2R v <= hi).
        { destruct (Rle_or_lt (SF2R v) hi) as [H|H]; [exact H|].
          rewrite <- Hv in H. apply (SFltb_lt prec32 emax32) in H; try assumption.
          congruence. }
        repeat split; try assumption.
        unfold Rmax, Rmin. repeat destruct (Rle_dec _ _); lra.
  - destruct v as [s|[|]| |s m e]; try discriminate.
    + (* minus infinity *)
      assert (H1 : SFltb (S754_infinity true) lo32 = true).
      { destruct lo32; try discriminate; reflexivity. }
      rewrite H1, Hhl. repeat split; assumption.
    + (* plus infinity *)
      assert (H1 : SFltb (S754_infinity false) lo32 = false).
      { destruct lo32; try discriminate; reflexivity. }
      assert (H2 : SFltb hi32 (S754_infinity false) = true).
      { destruct hi32; try discriminate; reflexivity. }
      rewrite H1, H2. repeat split; assumption.
Qed.

Lemma clipR_bounds (v : spec_float) : lo <= clipR lo hi v <= hi.
Proof.
  pose proof lo_hi_width as Hw. pose proof width_pos as Hpos.
  unfold clipR, Rmax, Rmin.
  destruct v as [s|[|]| |s m e]; repeat destruct (Rle_dec _ _); lra.
Qed.

Lemma clipR_mono (a b : spec_float) :
  valid_binary prec32 emax32 a = true -> is_nan a = false ->
  valid_binary prec32 emax32 b = true -> is_nan b = false ->
  SFleb a b = true -> clipR lo hi a <= clipR lo hi b.
Proof.
  intros Va Na Vb Nb Hab.
  pose proof (clipR_bounds a) as Ba. pose proof (clipR_bounds b) as Bb.
  destruct (is_finite a) eqn:Fa; destruct (is_finite b) eqn:Fb.
  - apply (SFleb_le prec32 emax32) in Hab; try assumption.
    replace (clipR lo hi a) with (Rmax lo (Rmin (SF2R a) hi))
      by (destruct a; try discriminate; reflexivity).
    replace (clipR lo hi b) with (Rmax lo (Rmin (SF2R b) hi))
      by (destruct b; try discriminate; reflexivity).
    unfold Rmax, Rmin. repeat destruct (Rle_dec _ _); lra.
  - destruct b as [s|[|]| |s m e]; try discriminate.
    + destruct a; try discriminate; cbn in Hab; discriminate.
    + cbn [clipR]. lra.
  - destruct a as [s|[|]| |s m e]; try discriminate.
    + cbn [clipR]. lra.
    + destruct b; try discriminate; cbn in Hab; discriminate.
  - destruct a as [s|[|]| |s m e]; try discriminate;
    destruct b as [s'|[|]| |s' m' e']; try discriminate; cbn [clipR]; lra.
Qed.

Lemma window_level_pixel_mono (a b : spec_float) :
  valid_binary prec32 emax32 a = true -> is_nan a = false ->
  valid_binary prec32 emax32 b = true -> is_nan b = false ->
  SFleb a b = true ->
  (0 <= window_level_pixel low high a <= window_level_pixel low high b)%Z
  /\ (window_level_pixel low high b <= 255)%Z.
Proof.
  intros Va Na Vb Nb Hab. rewrite !window_level_pixel_unfold.
  destruct (np_clip_value a Va Na) as (Fa & Ca & Ea).
  destruct (np_clip_value b Vb Nb) as (Fb & Cb & Eb).
  pose proof (clipR_bounds a) as Ba. pose proof (clipR_bounds b) as Bb.
  pose proof (clipR_mono a b Va Na Vb Nb Hab) as Hm.
  destruct (scale_spec _ _ Fa Ca Fb Cb) as (P1 & P2 & H0 & H12 & H255);
    try (rewrite ?Ea, ?Eb; lra).
  destruct (trunc_byte _ P1 ltac:(lra)) as [-> R1].
  destruct (trunc_byte _ P2 ltac:(lra)) as [-> R2].
  pose proof (trunc_float_mono _ _ P1 P2 ltac:(lra)). lia.
Qed.

Lemma window_level_pixel_below (v : spec_float) :
  valid_binary prec32 emax32 v = true -> is_nan v = false ->
  SFleb v lo32 = true -> window_level_pixel low high v = 0%Z.
Proof.
  intros Vv Nv Hv. rewrite window_level_pixel_unfold.
  destruct (lo32_spec W L HW HWL) as (Lv & Lval & Lfin).
  destruct (np_clip_value v Vv Nv) as (Fc & Cc & Ec).
  apply scale_at_low; try assumption. rewrite Ec.
  pose proof (clipR_bounds v) as Bv.
  assert (Nl : is_nan lo32 = false) by (destruct lo32; try discriminate; reflexivity).
  pose proof (clipR_mono v lo32 Vv Nv Lval Nl Hv) as Hm.
  assert (Hl : clipR lo hi lo32 = lo).
  { replace (clipR lo hi lo32) with (Rmax lo (Rmin (SF2R lo32) hi))
      by (destruct lo32; try discriminate; reflexivity).
    rewrite Lv. unfold Rmax, Rmin. repeat destruct (Rle_dec _ _); lra. }
  lra.
Qed.

Lemma window_level_pixel_above (v : spec_float) :
  valid_binary prec32 emax32 v = true -> is_nan v = false ->
  SFleb hi32 v = true -> window_level_pixel low high v = 255%Z.
Proof.
  intros Vv Nv Hv. rewrite window_level_pixel_unfold.
  destruct (hi32_spec W L HW HWL) as (Hhv & Hval & Hfin).
  destruct (np_clip_value v Vv Nv) as (Fc & Cc & Ec).
  apply scale_at_high; try assumption. rewrite Ec.
  pose proof (clipR_bounds v) as Bv.
  assert (Nh : is_nan hi32 = false) by (destruct hi32; try discriminate; reflexivity).
  pose proof (clipR_mono hi32 v Hval Nh Vv Nv Hv) as Hm.
  pose proof lo_hi_width as Hw. pose proof width_pos as Hpos.
  assert (Hl : clipR lo hi hi32 = hi).
  { replace (clipR lo hi hi32) with (Rmax lo (Rmin (SF2R hi32) hi))
      by (destruct hi32; try discriminate; reflexivity).
    rewrite Hhv. unfold Rmax, Rmin. repeat destruct (Rle_dec _ _); lra. }
  lra.
Qed.

End SliderPixels.

(** With an integer width of at least 1 and an integer level, as the
    sliders give them, and [2 |level| + width < 2^24], the upper bound of
    the window is strictly above the lower one: the all-zero branch is
    not taken and every cell goes through the clip and the rescaling. *)
Theorem window_level_slider_window (img : ndarray2 spec_float) (W L : Z) :
  1 <= W -> 2 * Z.abs L + W < 2 ^ 24 ->
  window_level_image img (f64_lit W) (f64_lit L)
  = map2d (window_level_pixel (window_low (f64_lit W) (f64_lit L))
             (window_high (f64_lit W) (f64_lit L))) img
  /\ SFltb (window_low (f64_lit W) (f64_lit L))
       (window_high (f64_lit W) (f64_lit L)) = true.
Proof.
  intros HW HWL. split.
  - unfold window_level_image.
    change (SFsub prec64 emax64 (f64_lit L)
              (SFdiv prec64 emax64 (py_max (f64_lit W) (f64_lit 1)) (f64_lit 2)))
      with (window_low (f64_lit W) (f64_lit L)).
    change (SFadd prec64 emax64 (f64_lit L)
              (SFdiv prec64 emax64 (py_max (f64_lit W) (f64_lit 1)) (f64_lit 2)))
      with (window_high (f64_lit W) (f64_lit L)).
    now rewrite (window_bounds_differ W L HW HWL).
  - destruct (window_low_spec W L HW HWL) as (Lv & Lval & Lfin).
    destruct (window_high_spec W L HW HWL) as (Hv & Hval & Hfin).
    apply (SFltb_lt prec64 emax64); try assumption.
    rewrite Lv, Hv, plus_IZR, minus_IZR.
    assert (1 <= IZR W)%R by (apply IZR_le; lia). lra.
Qed.

(** At such a window a cell at or below the lower bound is shown as 0, a
    cell at or above the upper bound as 255, the infinities included, and
    every cell that is not a NaN as a value from 0 to 255. *)
Theorem window_level_saturates (W L : Z) (v : spec_float) :
  1 <= W -> 2 * Z.abs L + W < 2 ^ 24 ->
  valid_binary prec32 emax32 v = true -> is_nan v = false ->
  let pixel := window_level_pixel (window_low (f64_lit W) (f64_lit L))
                 (window_high (f64_lit W) (f64_lit L)) v in
  0 <= pixel <= 255
  /\ (SFleb v (f32_of_f64 (window_low (f64_lit W) (f64_lit L))) = true ->
      pixel = 0)
  /\ (SFleb (f32_of_f64 (window_high (f64_lit W) (f64_lit L))) v = true ->
      pixel = 255).
Proof.
  intros HW HWL Vv Nv. cbn zeta. split; [|split].
  - assert (Hvv : SFleb v v = true).
    { destruct v as [s|[|]| |s m e]; try discriminate; try reflexivity.
      unfold SFleb, SFcompare. rewrite Z.compare_refl.
      change (Pos.compare_cont Eq m m) with (m ?= m)%positive.
      rewrite Pos.compare_refl. destruct s; reflexivity. }
    pose proof (window_level_pixel_mono W L HW HWL v v Vv Nv Vv Nv Hvv). lia.
  - now apply window_level_pixel_below.
  - now apply window_level_pixel_above.
Qed.

(** At such a window the transform is monotone: of two cells that are not
    NaN, the greater is not shown darker. *)
Theorem window_level_monotone (W L : Z) (a b : spec_float) :
  1 <= W -> 2 * Z.abs L + W < 2 ^ 24 ->
  valid_binary prec32 emax32 a = true -> is_nan a = false ->
  valid_binary prec32 emax32 b = true -> is_nan b = false ->
  SFleb a b = true ->
  window_level_pixel (window_low (f64_lit W) (f64_lit L))
    (window_high (f64_lit W) (f64_lit L)) a
  <= window_level_pixel (window_low (f64_lit W) (f64_lit L))
       (window_high (f64_lit W) (f64_lit L)) b.
Proof.
  intros HW HWL Va Na Vb Nb Hab.
  pose proof (window_level_pixel_mono W L HW HWL a b Va Na Vb Nb Hab). lia.
Qed.

Lemma window_level_slider_window_witness :
  SFltb (window_low (f64_lit 400) (f64_lit 40))
    (window_high (f64_lit 400) (f64_lit 40)) = true.
Proof.
  exact (proj2 (window_level_slider_window image_1x2 400 40
                  ltac:(lia) ltac:(cbn; lia))).
Defined.

Lemma window_level_saturates_witness :
  0 <= window_level_pixel (window_low (f64_lit 400) (f64_lit 40))
         (window_high (f64_lit 400) (f64_lit 40)) (f32_lit 2000)
  <= 255.
Proof.
  exact (proj1 (window_level_saturates 400 40 (f32_lit 2000)
                  ltac:(lia) ltac:(cbn; lia) eq_refl eq_refl)).
Defined.

Lemma window_level_monotone_witness :
  window_level_pixel (window_low (f64_lit 400) (f64_lit 40))
    (window_high (f64_lit 400) (f64_lit 40)) (f32_lit (-20))
  <= window_level_pixel (window_low (f64_lit 400) (f64_lit 40))
       (window_high (f64_lit 400) (f64_lit 40)) (f32_lit 130).
Proof.
  apply window_level_monotone; try reflexivity; cbn; lia.
Defined.

(** ** The window of any integer width *)

(** The floor of the width: [max(float(ww), 1.0)] for an integer [ww]. *)
Lemma py_max_floor (W : Z) :
  Z.abs W < 2 ^ 53 -> py_max (f64_lit W) (f64_lit 1) = f64_lit (Z.max W 1).
Proof.
  intros HW. unfold py_max.
  destruct (f64_lit_int W HW) as (Wv & Wval & Wfin).
  destruct (f64_lit_int 1 ltac:(lia)) as (Ov & Oval & Ofin).
  destruct (SFltb (f64_lit W) (f64_lit 1)) eqn:H.
  - apply (SFltb_lt prec64 emax64) in H; try assumption.
    rewrite Wv, Ov in H. apply lt_IZR in H.
    replace (Z.max W 1) with 1 by lia. reflexivity.
  - assert (Hge : 1 <= W).
    { destruct (Z_lt_le_dec W 1) as [Hlt|Hle]; [|exact Hle].
      assert (Ht : SFltb (f64_lit W) (f64_lit 1) = true).
      { apply (SFltb_lt prec64 emax64); try assumption.
        rewrite Wv, Ov. now apply IZR_lt. }
      congruence. }
    replace (Z.max W 1) with W by lia. reflexivity.
Qed.

Lemma py_max_idem (W : Z) :
  Z.abs W < 2 ^ 53 ->
  py_max (f64_lit (Z.max W 1)) (f64_lit 1) = py_max (f64_lit W) (f64_lit 1).
Proof.
  intros HW. rewrite (py_max_floor W HW).
  rewrite (py_max_floor (Z.max W 1)) by lia. f_equal. lia.
Qed.

Lemma window_low_floor (W L : Z) :
  Z.abs W < 2 ^ 53 ->
  window_low (f64_lit W) (f64_lit L)
  = window_low (f64_lit (Z.max W 1)) (f64_lit L).
Proof. intros HW. unfold window_low. now rewrite py_max_idem. Qed.

Lemma window_high_floor (W L : Z) :
  Z.abs W < 2 ^ 53 ->
  window_high (f64_lit W) (f64_lit L)
  = window_high (f64_lit (Z.max W 1)) (f64_lit L).
Proof. intros HW. unfold window_high. now rewrite py_max_idem. Qed.

Lemma window_level_image_bounds (img : ndarray2 spec_float) (ww wl : spec_float) :
  window_level_image img ww wl
  = if SFeqb (window_high ww wl) (window_low ww wl)
    then map2d (fun _ => 0) img
    else map2d (window_level_pixel (window_low ww wl) (window_high ww wl)) img.
Proof. reflexivity. Qed.

Lemma get2_map2d {A B : Type} (f : A -> B) (a : ndarray2 A) (dA : A) (dB : B)
  (i j : nat) :
  (i < length (rows2 a))%nat -> (j < length (nth i (rows2 a) []))%nat ->
  get2 dB (map2d f a) i j = f (get2 dA a i j).
Proof.
  intros Hi Hj. unfold get2, map2d. cbn [rows2].
  change (@nil B) with (map f (@nil A)). rewrite map_nth.
  rewrite (nth_indep _ dB (f dA)) by (now rewrite length_map).
  apply map_nth.
Qed.


(** C10, as the code has it.  For an integer width [W] and an integer
    level [L] with [2 |L| + max(W, 1) < 2^24], the image that
    [window_level_image] returns is monotone in the cells of its input: of
    two cells that are not NaN, the one that holds the greater intensity
    is shown at least as bright, and both are shown as a value from 0 to
    255. *)
Theorem window_level_image_monotone (img : ndarray2 spec_float) (W L : Z)
  (i j i' j' : nat) :
  Z.abs W < 2 ^ 53 -> 2 * Z.abs L + Z.max W 1 < 2 ^ 24 ->
  (i < length (rows2 img))%nat -> (j < length (nth i (rows2 img) []))%nat ->
  (i' < length (rows2 img))%nat -> (j' < length (nth i' (rows2 img) []))%nat ->
  let a := get2 S754_nan img i j in
  let b := get2 S754_nan img i' j' in
  valid_binary prec32 emax32 a = true -> is_nan a = false ->
  valid_binary prec32 emax32 b = true -> is_nan b = false ->
  SFleb a b = true ->
  let shown := window_level_image img (f64_lit W) (f64_lit L) in
  0 <= get2 0 shown i j <= get2 0 shown i' j' /\ get2 0 shown i' j' <= 255.
Proof.
  intros HW HWL Hi Hj Hi' Hj' a b Va Na Vb Nb Hab shown.
  assert (H1 : 1 <= Z.max W 1) by lia.
  pose proof (window_bounds_differ (Z.max W 1) L H1 HWL) as Hne.
  pose proof (window_level_pixel_mono (Z.max W 1) L H1 HWL a b Va Na Vb Nb Hab)
    as Hm.
  rewrite <- (window_low_floor W L HW) in Hne, Hm.
  rewrite <- (window_high_floor W L HW) in Hne, Hm.
  unfold shown. rewrite window_level_image_bounds, Hne.
  rewrite (get2_map2d _ img S754_nan 0 i j Hi Hj).
  rewrite (get2_map2d _ img S754_nan 0 i' j' Hi' Hj').
  exact Hm.
Qed.


(** The two cells of the sample image under a window of width 0, floored
    to 1, at level 2^23 - 1. *)
Lemma window_level_image_monotone_witness :
  0 <= get2 0 (window_level_image image_1x2 (f64_lit 0) (f64_lit (2 ^ 23 - 1)))
         0 0
    <= get2 0 (window_level_image image_1x2 (f64_lit 0) (f64_lit (2 ^ 23 - 1)))
         0 1
  /\ get2 0 (window_level_image image_1x2 (f64_lit 0) (f64_lit (2 ^ 23 - 1)))
       0 1 <= 255.
Proof.
  apply (window_level_image_monotone image_1x2 0 (2 ^ 23 - 1) 0 0 0 1);
    try reflexivity; cbn; lia.
Defined.

Local Open Scope Z_scope.

(** * The default window of a uniform volume *)

Lemma SFltb_irrefl (c : spec_float) : SFltb c c = false.
Proof.
  destruct c as [s|[|]| |s m e]; try reflexivity.
  unfold SFltb, SFcompare. rewrite Z.compare_refl.
  change (Pos.compare_cont Eq m m) with (m ?= m)%positive.
  rewrite Pos.compare_refl. destruct s; reflexivity.
Qed.

Lemma np_lt_irrefl (c : spec_float) : is_nan c = false -> np_lt c c = false.
Proof. intros H. unfold np_lt. now rewrite SFltb_irrefl, H. Qed.

Lemma np_sort_repeat (c : spec_float) (n : nat) :
  is_nan c = false -> np_sort (repeat c n) = repeat c n.
Proof.
  intros Hc. induction n as [|n IH]; [reflexivity|].
  cbn [repeat np_sort fold_right]. fold (np_sort (repeat c n)). rewrite IH.
  destruct n as [|n]; [reflexivity|].
  cbn [repeat np_insert]. now rewrite np_lt_irrefl.
Qed.

Lemma Forall_eq_repeat {T : Type} (c : T) (l : list T) :
  Forall (fun x => x = c) l -> l = repeat c (length l).
Proof.
  induction 1 as [|x l Hx _ IH]; [reflexivity|].
  cbn [length repeat]. now rewrite Hx, <- IH.
Qed.

Lemma nth_repeat_lt {T : Type} (c d : T) (n k : nat) :
  (k < n)%nat -> nth k (repeat c n) d = c.
Proof.
  revert k. induction n as [|n IH]; intros k Hk; [lia|].
  destruct k as [|k]; [reflexivity|]. cbn [repeat nth]. apply IH. lia.
Qed.

Lemma percentile_repeat (c : spec_float) (n : nat) (q : Z) :
  (0 < n)%nat -> 0 <= q <= 100 -> is_nan c = false ->
  percentile (repeat c n) q
  = lerp c c (SFdiv prec32 emax32
                (f32_lit (((Z.of_nat n - 1) * q) mod 100)) (f32_lit 100)).
Proof.
  intros Hn Hq Hc. unfold percentile. rewrite np_sort_repeat by exact Hc.
  rewrite repeat_length.
  replace (Z.of_nat n =? 0) with false by (symmetry; apply Z.eqb_neq; lia).
  assert (Hj : 0 <= (Z.of_nat n - 1) * q / 100 <= Z.of_nat n - 1).
  { split.
    - apply Z.div_pos; [nia | lia].
    - apply Z.div_le_upper_bound; [lia | nia]. }
  rewrite !nth_repeat_lt by lia. reflexivity.
Qed.

Lemma fraction_spec (r : Z) :
  0 <= r < 100 ->
  is_finite (SFdiv prec32 emax32 (f32_lit r) (f32_lit 100)) = true
  /\ valid_binary prec32 emax32
       (SFdiv prec32 emax32 (f32_lit r) (f32_lit 100)) = true
  /\ (0 <= SF2R (SFdiv prec32 emax32 (f32_lit r) (f32_lit 100)) <= 1)%R.
Proof.
  intros Hr.
  destruct (f32_lit_int r ltac:(lia)) as (Rv & Rval & Rfin).
  pose proof (SFdiv_rounds prec32 emax32 prec32_pos (f32_lit r) (f32_lit 100)
                Rfin eq_refl eq_refl) as Hd.
  rewrite Rv in Hd.
  replace (SF2R (f32_lit 100)) with 100%R in Hd
    by (symmetry; apply (f32_lit_int 100); reflexivity).
  assert (Hb : (0 <= IZR r <= 99)%R) by (split; apply IZR_le; lia).
  apply (rounds_between prec32 emax32 prec32_pos prec32_lt_emax32 _ _ 0 1 Hd);
    try reflexivity.
  split; lra.
Qed.

Lemma SFsub_diag (c : spec_float) :
  is_finite c = true -> SFsub prec32 emax32 c c = S754_zero false.
Proof.
  destruct c as [[|]|s| |s m e]; try discriminate; intros _; try reflexivity.
  cbn [SFsub]. now rewrite Z.sub_diag.
Qed.

Lemma SFsub_diag64 (c : spec_float) :
  is_finite c = true -> SFsub prec64 emax64 c c = S754_zero false.
Proof.
  destruct c as [[|]|s| |s m e]; try discriminate; intros _; try reflexivity.
  cbn [SFsub]. now rewrite Z.sub_diag.
Qed.

Lemma SFmul_zero_l (prec emax : Z) (y : spec_float) :
  is_finite y = true -> is_zero (SFmul prec emax (S754_zero false) y) = true.
Proof. destruct y; try discriminate; reflexivity. Qed.

(** Interpolating between a number and itself gives that number; a zero
    may change its sign. *)
Lemma lerp_same (c g : spec_float) :
  is_finite c = true ->
  is_finite g = true -> valid_binary prec32 emax32 g = true ->
  (0 <= SF2R g <= 1)%R ->
  (is_zero c = false -> lerp c c g = c)
  /\ (is_zero c = true -> is_zero (lerp c c g) = true).
Proof.
  intros Fc Fg Vg Bg. unfold lerp. rewrite SFsub_diag by exact Fc.
  assert (F1g : is_finite (SFsub prec32 emax32 (f32_lit 1) g) = true).
  { pose proof (SFsub_rounds prec32 emax32 (f32_lit 1) g eq_refl eq_refl Vg Fg)
      as Hs.
    replace (SF2R (f32_lit 1)) with 1%R in Hs
      by (symmetry; apply (f32_lit_int 1); reflexivity).
    apply (rounds_between prec32 emax32 prec32_pos prec32_lt_emax32 _ _ 0 1 Hs);
      try reflexivity.
    split; lra. }
  pose proof (SFmul_zero_l prec32 emax32 _ F1g) as Z1.
  pose proof (SFmul_zero_l prec32 emax32 _ Fg) as Z2.
  destruct (SFmul prec32 emax32 (S754_zero false)
              (SFsub prec32 emax32 (f32_lit 1) g)) as [s1| | |]; try discriminate.
  destruct (SFmul prec32 emax32 (S754_zero false) g) as [s2| | |];
    try discriminate.
  destruct (SFleb _ g); destruct c as [s|s| |s m e]; try discriminate;
    split; intros H; try discriminate; try reflexivity;
    destruct s, s1; try reflexivity; destruct s2; reflexivity.
Qed.

Lemma percentile_uniform (c : spec_float) (n : nat) (q : Z) :
  (0 < n)%nat -> 0 <= q <= 100 -> is_finite c = true ->
  (is_zero c = false -> percentile (repeat c n) q = c)
  /\ (is_zero c = true -> is_zero (percentile (repeat c n) q) = true).
Proof.
  intros Hn Hq Fc.
  rewrite percentile_repeat; try assumption;
    [|destruct c; try discriminate; reflexivity].
  destruct (fraction_spec (((Z.of_nat n - 1) * q) mod 100)) as (Fg & Vg & Bg).
  { apply Z.mod_pos_bound. lia. }
  now apply lerp_same.
Qed.

(** A [float32] other than zero becomes the same number in binary64. *)
Lemma f64_of_f32_exact (c : spec_float) :
  valid_binary prec32 emax32 c = true -> is_finite c = true ->
  is_zero c = false ->
  SF2R (f64_of_f32 c) = SF2R c
  /\ valid_binary prec64 emax64 (f64_of_f32 c) = true
  /\ is_finite (f64_of_f32 c) = true /\ is_zero (f64_of_f32 c) = false
  /\ exists k e0, SF2R c = (IZR k * bpow e0)%R
                  /\ Z.abs k < 2 ^ 24 /\ -149 <= e0 <= 104.
Proof.
  intros Vc Fc Zc. destruct c as [s|s| |s m e]; try discriminate.
  cbn [valid_binary] in Vc. apply andb_prop in Vc as [Hcan Hbd].
  apply Z.leb_le in Hbd.
  apply (canonical_iff prec32 emax32) in Hcan.
  assert (He : -149 <= e <= 104).
  { pose proof (fexp_ge_emin prec32 emax32 (Zdigits2 (Zpos m) + e)) as H.
    rewrite Hcan in H. unfold emin, prec32, emax32 in *. lia. }
  assert (Hm : Zpos m < 2 ^ 24).
  { pose proof (Zdigits2_bounds (Zpos m) ltac:(lia)) as [_ Hhi].
    assert (Hd : Zdigits2 (Zpos m) <= 24).
    { unfold fexp, emin, prec32, emax32 in Hcan. lia. }
    eapply Z.lt_le_trans; [exact Hhi|]. apply Z.pow_le_mono_r; lia. }
  assert (Hx : SF2R (S754_finite s m e)
               = (IZR (cond_Zopp s (Zpos m)) * bpow e)%R) by reflexivity.
  cbn [f64_of_f32].
  pose proof (binary_round_rounds prec64 emax64 s m e) as Hr.
  destruct (rounds_exact prec64 emax64 prec64_pos prec64_lt_emax64 _ _
              (cond_Zopp s (Zpos m)) e Hr Hx) as (H1 & H2 & H3 & H4).
  - destruct s; cbn; lia.
  - change (2 ^ prec64) with (2 ^ 53). destruct s; cbn [cond_Zopp]; lia.
  - unfold emin, prec64, emax64. lia.
  - repeat split; try assumption.
    exists (cond_Zopp s (Zpos m)), e. repeat split; try assumption; try lia.
    destruct s; cbn [cond_Zopp]; lia.
Qed.

Lemma default_window_of (C : spec_float) (k e0 : Z) :
  valid_binary prec64 emax64 C = true -> is_finite C = true ->
  is_zero C = false ->
  SF2R C = (IZR k * bpow e0)%R -> Z.abs k < 2 ^ 24 -> -149 <= e0 <= 104 ->
  py_max (SFsub prec64 emax64 C C) (f64_lit 1) = f64_lit 1
  /\ SFdiv prec64 emax64 (SFadd prec64 emax64 C C) (f64_lit 2) = C.
Proof.
  intros VC FC ZC Hx Hk He. split.
  - rewrite SFsub_diag64 by exact FC. reflexivity.
  - pose proof (SFadd_rounds prec64 emax64 C C VC FC VC FC) as Ha.
    assert (H2 : (SF2R C + SF2R C = IZR k * bpow (e0 + 1))%R).
    { rewrite Hx, bpow_succ. lra. }
    destruct (rounds_dyadic prec64 emax64 prec64_pos prec64_lt_emax64
                _ _ k (e0 + 1) Ha H2) as (Sv & Sval & Sfin).
    { change (2 ^ prec64) with (2 ^ 53). lia. }
    { unfold emin, prec64, emax64. lia. }
    pose proof (SFdiv_rounds prec64 emax64 prec64_pos _ (f64_lit 2)
                  Sfin eq_refl eq_refl) as Hd.
    rewrite Sv in Hd.
    replace (SF2R (f64_lit 2)) with 2%R in Hd
      by (symmetry; apply (f64_lit_int 2); reflexivity).
    replace ((SF2R C + SF2R C) / 2)%R with (SF2R C) in Hd by lra.
    now apply (rounds_format prec64 emax64 prec64_pos).
Qed.

(** On a volume whose cells all hold the same finite number [c],
    [compute_default_window] returns the width 1.0, the floor of the
    width, and the level [c] (a zero for [c] zero). *)
Theorem compute_default_window_uniform
  (volume : ndarray3 spec_float) (c : spec_float) :
  flatten3 volume <> [] ->
  Forall (fun x => x = c) (flatten3 volume) ->
  valid_binary prec32 emax32 c = true -> is_finite c = true ->
  fst (compute_default_window volume) = f64_lit 1
  /\ (is_zero c = false -> snd (compute_default_window volume) = f64_of_f32 c)
  /\ (is_zero c = true -> is_zero (snd (compute_default_window volume)) = true).
Proof.
  intros Hne Hall Vc Fc. unfold compute_default_window. cbn [fst snd].
  rewrite (Forall_eq_repeat c _ Hall).
  assert (Hn : (0 < length (flatten3 volume))%nat).
  { destruct (flatten3 volume); [contradiction | cbn; lia]. }
  destruct (percentile_uniform c (length (flatten3 volume)) 5 Hn ltac:(lia) Fc)
    as [P5 Z5].
  destruct (percentile_uniform c (length (flatten3 volume)) 95 Hn ltac:(lia) Fc)
    as [P95 Z95].
  destruct (is_zero c) eqn:Zc.
  - specialize (Z5 eq_refl). specialize (Z95 eq_refl).
    destruct (percentile _ 5) as [s5| | |]; try discriminate.
    destruct (percentile _ 95) as [s95| | |]; try discriminate.
    cbn [f64_of_f32].
    repeat split; try discriminate; destruct s5, s95; reflexivity.
  - rewrite (P5 eq_refl), (P95 eq_refl).
    destruct (f64_of_f32_exact c Vc Fc Zc)
      as (Cv & Cval & Cfin & Cz & k & e0 & Hx & Hk & He).
    rewrite <- Cv in Hx.
    destruct (default_window_of (f64_of_f32 c) k e0 Cval Cfin Cz Hx Hk He)
      as [Hww Hwl].
    repeat split; try assumption; try discriminate. intros _. exact Hwl.
Qed.

Lemma compute_default_window_uniform_witness :
  fst (compute_default_window
         (mk3 (1, 1, 2)%nat [[[f32_lit 7; f32_lit 7]]])) = f64_lit 1.
Proof.
  refine (proj1 (compute_default_window_uniform
                   (mk3 (1, 1, 2)%nat [[[f32_lit 7; f32_lit 7]]]) (f32_lit 7)
                   _ _ eq_refl eq_refl)).
  - discriminate.
  - repeat constructor.
Defined.

(** ** The default window in general *)






